(** * GMRES with Givens rotations and a restart wrapper

    A shallow embedding of [examples/gmres_demo.py]: the Givens helper
    [givens_rotation], the Krylov solver [gmres] (Arnoldi with modified
    Gram-Schmidt, rotated Hessenberg, rotated right-hand side) and the
    restart controller [gmres_restart].

    The Python code computes in binary64.  The embedding is written once,
    over an abstract scalar arithmetic ([Scalar]), so that every statement
    that only depends on the control flow holds for any arithmetic, and it is
    instantiated twice: with the real numbers (exact arithmetic, the
    setting in which the algebraic properties of GMRES are stated) and with
    the kernel's binary64 floats (to run the code on concrete inputs). *)

From Stdlib Require Import Floats.
From Stdlib Require Import Reals Lra Lia List ZArith Bool FunctionalExtensionality.
Import ListNotations.

(** ** Scalars *)

(** The operations the program applies to Python floats. *)
Class Scalar (F : Type) : Type := {
  s0 : F;                       (* 0.0 *)
  s1 : F;                       (* 1.0 *)
  sadd : F -> F -> F;           (* x + y *)
  ssub : F -> F -> F;           (* x - y *)
  smul : F -> F -> F;           (* x * y *)
  sdiv : F -> F -> F;           (* x / y *)
  sopp : F -> F;                (* -x *)
  ssqrt : F -> F;               (* np.sqrt(x) *)
  sabs : F -> F;                (* abs(x) *)
  seqb : F -> F -> bool;        (* x == y *)
  sleb : F -> F -> bool;        (* x <= y *)
  sltb : F -> F -> bool         (* x < y *)
}.

(** [x > y] and [x != y], as the program writes them. *)
Definition sgtb {F} `{Scalar F} (x y : F) : bool := sltb y x.
Definition sneb {F} `{Scalar F} (x y : F) : bool := negb (seqb x y).

(** Exact arithmetic: the real numbers. *)
#[export] Instance R_scalar : Scalar R := {|
  s0 := 0%R;
  s1 := 1%R;
  sadd := Rplus;
  ssub := Rminus;
  smul := Rmult;
  sdiv := Rdiv;
  sopp := Ropp;
  ssqrt := sqrt;
  sabs := Rabs;
  seqb := fun x y => if Req_dec_T x y then true else false;
  sleb := fun x y => if Rle_dec x y then true else false;
  sltb := fun x y => if Rlt_dec x y then true else false
|}.

(** Machine arithmetic: IEEE 754 binary64, the type of a Python float. *)
#[export] Instance float_scalar : Scalar float := {|
  s0 := 0%float;
  s1 := 1%float;
  sadd := PrimFloat.add;
  ssub := PrimFloat.sub;
  smul := PrimFloat.mul;
  sdiv := PrimFloat.div;
  sopp := PrimFloat.opp;
  ssqrt := PrimFloat.sqrt;
  sabs := PrimFloat.abs;
  seqb := PrimFloat.eqb;
  sleb := PrimFloat.leb;
  sltb := PrimFloat.ltb
|}.

Declare Scope scalar_scope.
Delimit Scope scalar_scope with S.
Infix "+" := sadd : scalar_scope.
Infix "-" := ssub : scalar_scope.
Infix "*" := smul : scalar_scope.
Infix "/" := sdiv : scalar_scope.
Notation "- x" := (sopp x) : scalar_scope.

(** ** Linear algebra helpers *)

Section Helpers.
Context {F : Type} `{Scalar F}.
Local Open Scope scalar_scope.

(** [givens_rotation(a, b)] *)
Definition givens_rotation (a b : F) : F * F :=
  if seqb b s0 then (s1, s0)
  else if sgtb (sabs b) (sabs a) then
    let tau := - a / b in
    let s := s1 / ssqrt (s1 + tau * tau) in
    let c := s * tau in
    (c, s)
  else
    let tau := - b / a in
    let c := s1 / ssqrt (s1 + tau * tau) in
    let s := c * tau in
    (c, s).

(** The second component of [[c, s], [-s, c]] @ [a, b], the entry the
    rotation is documented to eliminate. *)
Definition rotated_second (cs : F * F) (a b : F) : F :=
  - (snd cs) * a + fst cs * b.

(** The first component of [[c, s], [-s, c]] @ [a, b]. *)
Definition rotated_first (cs : F * F) (a b : F) : F :=
  fst cs * a + snd cs * b.

End Helpers.

(** ** Vectors and arrays *)

(** A one-dimensional array that the program only reads ([b], [x0], [x],
    [r0], [w], [y]) is the list of its entries.  The arrays the solver
    allocates with [np.zeros] and then fills by index ([V], [H], [cs], [sn],
    [g]) are maps from indices to entries that are [0.0] wherever nothing
    was written; the solver only uses indices [0 .. maxiter] of them. *)

Section Arrays.
Context {T : Type}.

(** [a[i] = v] *)
Definition upd (a : nat -> T) (i : nat) (v : T) : nat -> T :=
  fun k => if Nat.eqb k i then v else a k.

(** [M[i, j] = v] *)
Definition upd2 (M : nat -> nat -> T) (i j : nat) (v : T) : nat -> nat -> T :=
  fun r c => if (Nat.eqb r i && Nat.eqb c j)%bool then v else M r c.

End Arrays.

Inductive exn : Type := LinAlgError | ValueError | IndexError | TypeError.

Inductive result (T : Type) : Type :=
| Ok (t : T)
| Raise (e : exn).
Arguments Ok {T} t.
Arguments Raise {T} e.

Section Solver.
Context {F : Type} `{Scalar F}.
Local Open Scope scalar_scope.

Definition zeros (n : nat) : list F := repeat s0 n.

(** [u + v], [u - v], [a * v] and [v / a] on arrays of one length (NumPy
    raises or broadcasts on arrays of different lengths; the solver only
    combines arrays of length [n] when the operator maps such arrays to such
    arrays). *)
Definition vadd (u v : list F) : list F := map (fun p => fst p + snd p) (combine u v).
Definition vsub (u v : list F) : list F := map (fun p => fst p - snd p) (combine u v).
Definition vscale (a : F) (v : list F) : list F := map (fun x => a * x) v.
Definition vdiv (v : list F) (a : F) : list F := map (fun x => x / a) v.

(** [np.dot(u, v)] and [np.linalg.norm(v)] (the square root of
    [np.dot(v, v)]).  The sum is taken left to right; in binary64 NumPy
    leaves the order of the additions to BLAS, so that the two can differ in
    the last digit there.  In exact arithmetic the order does not matter. *)
Definition dot (u v : list F) : F :=
  fold_left (fun acc p => acc + fst p * snd p) (combine u v) s0.
Definition norm (v : list F) : F := ssqrt (dot v v).

(** The operator [Aop], by its [matvec]: a function from arrays of length
    [n] to arrays of length [n], which reads its argument and returns a new
    array. *)
Definition operator : Type := list F -> list F.

(** [matvec] of a dense matrix given by its rows. *)
Definition dense (rows : list (list F)) : operator :=
  fun x => map (fun row => dot row x) rows.

(** [V[:, :k].dot(y)], a vector of length [n]. *)
Definition mat_dot (n : nat) (V : nat -> list F) (k : nat) (y : list F) : list F :=
  fold_left (fun acc i => vadd acc (vscale (nth i y s0) (V i))) (seq 0 k) (zeros n).

(** The arrays of one inner solve. *)
Record arnoldi_state : Type := mk_state {
  st_V : nat -> list F;        (* V[:, k], the basis, by column *)
  st_H : nat -> nat -> F;      (* H[i, k] *)
  st_cs : nat -> F;            (* cs[k] *)
  st_sn : nat -> F;            (* sn[k] *)
  st_g : nat -> F              (* g[k] *)
}.

(** One pass of the modified Gram-Schmidt loop:
    [H[i, j] = np.dot(V[:, i], w); w = w - H[i, j] * V[:, i]]. *)
Definition mgs_step (V : nat -> list F) (j : nat)
    (Hw : (nat -> nat -> F) * list F) (i : nat) : (nat -> nat -> F) * list F :=
  let h := dot (V i) (snd Hw) in
  (upd2 (fst Hw) i j h, vsub (snd Hw) (vscale h (V i))).

(** [w = Aop.matvec(V[:, j])] followed by the loop over [range(j + 1)%nat]:
    the Hessenberg matrix and [w] after the orthogonalisation. *)
Definition arnoldi_expand (A : operator) (j : nat) (st : arnoldi_state)
    : (nat -> nat -> F) * list F :=
  fold_left (mgs_step (st_V st) j) (seq 0 (j + 1)%nat) (st_H st, A (st_V st j)).

(** The vector [w] whose norm is stored in [H[j + 1, j]]. *)
Definition arnoldi_w (A : operator) (j : nat) (st : arnoldi_state) : list F :=
  snd (arnoldi_expand A j st).

(** [H] after [H[j + 1, j] = np.linalg.norm(w)]. *)
Definition arnoldi_H (A : operator) (j : nat) (st : arnoldi_state) : nat -> nat -> F :=
  upd2 (fst (arnoldi_expand A j st)) (j + 1)%nat j (norm (arnoldi_w A j st)).

(** [V] after [if H[j + 1, j] != 0.0: V[:, j + 1] = w / H[j + 1, j]]. *)
Definition arnoldi_V (A : operator) (j : nat) (st : arnoldi_state) : nat -> list F :=
  if sneb (arnoldi_H A j st (j + 1)%nat j) s0
  then upd (st_V st) (j + 1)%nat (vdiv (arnoldi_w A j st) (arnoldi_H A j st (j + 1)%nat j))
  else st_V st.

(** One pass of the loop that applies the previous rotations to column [j]. *)
Definition rot_step (cs sn : nat -> F) (j : nat) (Hm : nat -> nat -> F) (i : nat)
    : nat -> nat -> F :=
  let temp := cs i * Hm i j + sn i * Hm (i + 1)%nat j in
  let Hm' := upd2 Hm (i + 1)%nat j (- sn i * Hm i j + cs i * Hm (i + 1)%nat j) in
  upd2 Hm' i j temp.

(** [H] after the loop over [range(j)]. *)
Definition rotated_H (A : operator) (j : nat) (st : arnoldi_state) : nat -> nat -> F :=
  fold_left (rot_step (st_cs st) (st_sn st) j) (seq 0 j) (arnoldi_H A j st).

(** [c, s = givens_rotation(H[j, j], H[j + 1, j])] *)
Definition step_rotation (A : operator) (j : nat) (st : arnoldi_state) : F * F :=
  givens_rotation (rotated_H A j st j j) (rotated_H A j st (j + 1)%nat j).

(** The body of the loop over [j], up to [resvec.append(res_norm)]: the
    arrays after the step, and [res_norm]. *)
Definition arnoldi_step (A : operator) (j : nat) (st : arnoldi_state)
    : arnoldi_state * F :=
  let Hr := rotated_H A j st in
  let c := fst (step_rotation A j st) in
  let s := snd (step_rotation A j st) in
  let cs' := upd (st_cs st) j c in
  let sn' := upd (st_sn st) j s in
  let H1 := upd2 Hr j j (c * Hr j j + s * Hr (j + 1)%nat j) in
  let H2 := upd2 H1 (j + 1)%nat j s0 in
  let temp := c * st_g st j + s * st_g st (j + 1)%nat in
  let g1 := upd (st_g st) (j + 1)%nat (- s * st_g st j + c * st_g st (j + 1)%nat) in
  let g2 := upd g1 j temp in
  (mk_state (arnoldi_V A j st) H2 cs' sn' g2, sabs (g2 (j + 1)%nat)).

(** [sum(U[i, k + t] * ys[t] for t in range(len(ys)))] *)
Fixpoint row_sum (U : nat -> nat -> F) (i : nat) (ys : list F) (k : nat) : F :=
  match ys with
  | [] => s0
  | y :: ys' => U i k * y + row_sum U i ys' (S k)
  end.

(** Back-substitution over the rows [m - k .. m - 1] of an upper triangular
    system; [None] when a diagonal entry is zero. *)
Fixpoint back_substitute (U : nat -> nat -> F) (rhs : nat -> F) (m k : nat)
    : option (list F) :=
  match k with
  | O => Some []
  | S k' =>
      match back_substitute U rhs m k' with
      | None => None
      | Some ys =>
          let i := (m - k)%nat in
          if seqb (U i i) s0 then None
          else Some ((rhs i - row_sum U i ys (S i)) / U i i :: ys)
      end
  end.

(** [np.linalg.solve(U[:m, :m], rhs[:m])] for the matrices the solver passes
    to it.  The source calls it on [H[: j + 1, : j + 1]], which is upper
    triangular (the comment there says so; [gmres_loop_upper_triangular]
    below proves it): the LU factorisation has nothing to eliminate, the
    pivots are the diagonal entries, and the routine raises [LinAlgError]
    exactly when one of them is zero. *)
Definition solve (U : nat -> nat -> F) (rhs : nat -> F) (m : nat) : option (list F) :=
  back_substitute U rhs m m.

Inductive loop_outcome : Type :=
| Returned (r : result (list F * list F))        (* [return] inside the loop *)
| Exhausted (st : arnoldi_state) (resvec : list F).  (* the loop ran to its end *)

(** The loop [for j in range(maxiter)] over the remaining indices [js]. *)
Fixpoint gmres_loop (A : operator) (n : nat) (x : list F) (tol : F)
    (js : list nat) (st : arnoldi_state) (resvec : list F) : loop_outcome :=
  match js with
  | [] => Exhausted st resvec
  | j :: js' =>
      let st' := fst (arnoldi_step A j st) in
      let res_norm := snd (arnoldi_step A j st) in
      let resvec' := resvec ++ [res_norm] in
      if sleb res_norm tol then
        match solve (st_H st') (st_g st') (j + 1)%nat with
        | Some y => Returned (Ok (vadd x (mat_dot n (st_V st') (j + 1)%nat y), resvec'))
        | None => Returned (Raise LinAlgError)
        end
      else gmres_loop A n x tol js' st' resvec'
  end.

(** The arrays as allocated, with [V[:, 0] = r0 / beta] and [g[0] = beta]. *)
Definition init_state (n : nat) (r0 : list F) (beta : F) : arnoldi_state :=
  mk_state (upd (fun _ => zeros n) 0%nat (vdiv r0 beta))
           (fun _ _ => s0) (fun _ => s0) (fun _ => s0)
           (upd (fun _ => s0) 0%nat beta).

(** [x = np.zeros(n)] or [x = x0.copy()] *)
Definition initial_guess (n : nat) (x0 : option (list F)) : list F :=
  match x0 with
  | None => zeros n
  | Some v => v
  end.

(** [maxiter], with its default [n]. *)
Definition max_steps (n : nat) (maxiter : option Z) : Z :=
  match maxiter with
  | None => Z.of_nat n
  | Some m => m
  end.

(** The arrays of [gmres(A, b, x0, ...)] when its loop is entered. *)
Definition entry_state (A : operator) (b : list F) (x0 : option (list F))
    : arnoldi_state :=
  let n := length b in
  let r0 := vsub b (A (initial_guess n x0)) in
  init_state n r0 (norm r0).

(** The initial residual norm [beta] of [gmres(A, b, x0, ...)]. *)
Definition initial_residual (A : operator) (b : list F) (x0 : option (list F)) : F :=
  norm (vsub b (A (initial_guess (length b) x0))).

Section WithLstsq.

(** [np.linalg.lstsq(M[:m, :m], rhs[:m], rcond=None)[0]], NumPy's
    least-squares routine.  It is not code of the program; the solver is
    parameterised by it, as [lstsq m M rhs]: [Some y] when the routine
    returns [y], [None] when it raises [LinAlgError] (its singular value
    decomposition does not converge, as on a block that holds [inf] or
    [nan]). *)
Variable lstsq : nat -> (nat -> nat -> F) -> (nat -> F) -> option (list F).

(** [gmres(A, b, x0, tol, maxiter)].  A negative [maxiter] makes the
    allocation of [H] raise [ValueError]; [np.linalg.solve] and
    [np.linalg.lstsq] raise [LinAlgError]. *)
Definition gmres (A : operator) (b : list F) (x0 : option (list F)) (tol : F)
    (maxiter : option Z) : result (list F * list F) :=
  let n := length b in
  let x := initial_guess n x0 in
  let maxiter := max_steps n maxiter in
  let r0 := vsub b (A x) in
  let beta := norm r0 in
  if seqb beta s0 then Ok (x, [s0])
  else if (maxiter <? 0)%Z then Raise ValueError
  else
    let m := Z.to_nat maxiter in
    match gmres_loop A n x tol (seq 0 m) (init_state n r0 beta) [beta] with
    | Returned r => r
    | Exhausted st resvec =>
        match lstsq m (st_H st) (st_g st) with
        | Some y => Ok (vadd x (mat_dot n (st_V st) m y), resvec)
        | None => Raise LinAlgError
        end
    end.

(** [residuals[-1]] *)
Definition last_entry (l : list F) : option F :=
  match rev l with
  | [] => None
  | r :: _ => Some r
  end.

(** The loop [for cycle in range(maxcycles)] over the remaining cycles. *)
Fixpoint restart_loop (A : operator) (b : list F) (m : Z) (tol : F)
    (cycles : list nat) (x : list F) (residuals : list F)
    : result (list F * list F) :=
  match cycles with
  | [] => Ok (x, residuals)
  | cycle :: cycles' =>
      match gmres A b (Some x) tol (Some m) with
      | Raise e => Raise e
      | Ok (x', rvec) =>
          let residuals' :=
            if Nat.eqb cycle 0 then residuals ++ rvec else residuals ++ tl rvec in
          match last_entry residuals' with
          | None => Raise IndexError
          | Some r =>
              if sleb r tol then Ok (x', residuals')
              else restart_loop A b m tol cycles' x' residuals'
          end
      end
  end.

(** [gmres_restart(A, b, x0, m, tol, maxcycles)] *)
Definition gmres_restart (A : operator) (b : list F) (x0 : option (list F))
    (m : Z) (tol : F) (maxcycles : Z) : result (list F * list F) :=
  restart_loop A b m tol (seq 0 (Z.to_nat maxcycles))
               (initial_guess (length b) x0) [].

End WithLstsq.
End Solver.


(** ** The solvers over a store of arrays

    The model above passes arrays by value.  To say which array objects a
    call writes, the same code is read here over a store: every [ndarray]
    that has a name in the program is a cell, a variable holds a reference
    to its cell, [np.zeros] and [.copy()] and the results of array
    arithmetic are new cells, and an indexed assignment ([V[:, 0] = ...],
    [H[i, j] = ...], [g[j] = ...]) overwrites the cell it indexes.  Arrays
    that only exist as intermediate values ([r0], [w], [y]) are new arrays
    that nothing else refers to, and are kept as values. *)

Section Store.
Variable F : Type.

(** The contents of an array object. *)
Inductive ndarray : Type :=
| Vec (v : list F)               (* a one-dimensional array: [b], [x0], [x] *)
| Basis (V : nat -> list F)      (* [V], by column *)
| Mat (M : nat -> nat -> F)      (* [H] *)
| Arr (a : nat -> F).            (* [cs], [sn], [g] *)

(** The store: the cell of reference [r] is the [r]-th entry. *)
Definition heap : Type := list ndarray.

Fixpoint store (h : heap) (r : nat) (o : ndarray) : heap :=
  match h, r with
  | [], _ => []
  | _ :: h', O => o :: h'
  | o' :: h', S r' => o' :: store h' r' o
  end.

(** Programs over the store, which may raise. *)
Definition prog (T : Type) : Type := heap -> result T * heap.

Definition ret {T : Type} (t : T) : prog T := fun h => (Ok t, h).
Definition raise {T : Type} (e : exn) : prog T := fun h => (Raise e, h).
Definition bind {T U : Type} (c : prog T) (k : T -> prog U) : prog U :=
  fun h =>
    match c h with
    | (Ok t, h') => k t h'
    | (Raise e, h') => (Raise e, h')
    end.

(** A new array object. *)
Definition new (o : ndarray) : prog nat := fun h => (Ok (length h), h ++ [o]).

(** Reading through a reference; a reference to nothing is not an array. *)
Definition get (r : nat) : prog ndarray :=
  fun h =>
    match nth_error h r with
    | Some o => (Ok o, h)
    | None => (Raise TypeError, h)
    end.

(** Writing into the array object behind a reference. *)
Definition put (r : nat) (o : ndarray) : prog unit := fun h => (Ok tt, store h r o).

End Store.

Arguments Vec {F} v.
Arguments Basis {F} V.
Arguments Mat {F} M.
Arguments Arr {F} a.
Arguments store {F} h r o.
Arguments ret {F T} t.
Arguments raise {F T} e.
Arguments bind {F T U} c k.
Arguments new {F} o.
Arguments get {F} r.
Arguments put {F} r o.

Notation "x <- c ;; k" := (bind c (fun x => k))
  (at level 61, c at next level, right associativity).
Notation "c ;;; k" := (bind c (fun _ => k))
  (at level 61, right associativity).

Section StoreSolver.
Context {F : Type} `{Scalar F}.

Definition get_vec (r : nat) : prog F (list F) :=
  o <- get r ;; match o with Vec v => ret v | _ => raise TypeError end.
Definition get_basis (r : nat) : prog F (nat -> list F) :=
  o <- get r ;; match o with Basis V => ret V | _ => raise TypeError end.
Definition get_mat (r : nat) : prog F (nat -> nat -> F) :=
  o <- get r ;; match o with Mat M => ret M | _ => raise TypeError end.
Definition get_arr (r : nat) : prog F (nat -> F) :=
  o <- get r ;; match o with Arr a => ret a | _ => raise TypeError end.

(** The references held by [V], [H], [cs], [sn] and [g]. *)
Record refs : Type := mk_refs {
  r_V : nat; r_H : nat; r_cs : nat; r_sn : nat; r_g : nat
}.

(** The five arrays as they are in the store. *)
Definition get_state (rs : refs) : prog F arnoldi_state :=
  V <- get_basis (r_V rs) ;;
  M <- get_mat (r_H rs) ;;
  cs <- get_arr (r_cs rs) ;;
  sn <- get_arr (r_sn rs) ;;
  g <- get_arr (r_g rs) ;;
  ret (mk_state V M cs sn g).

(** The indexed assignments of one pass of the loop: they overwrite the five
    arrays, in place. *)
Definition put_state (rs : refs) (st : arnoldi_state) : prog F unit :=
  put (r_V rs) (Basis (st_V st)) ;;;
  put (r_H rs) (Mat (st_H st)) ;;;
  put (r_cs rs) (Arr (st_cs st)) ;;;
  put (r_sn rs) (Arr (st_sn st)) ;;;
  put (r_g rs) (Arr (st_g st)).

Inductive loop_outcome_h : Type :=
| ReturnedH (xr : nat) (resvec : list F)   (* [return x, resvec] inside the loop *)
| ExhaustedH (resvec : list F).            (* the loop ran to its end *)

(** The loop [for j in range(maxiter)]; [xr] is the reference held by [x]. *)
Fixpoint gmres_loop_h (A : operator) (n : nat) (xr : nat) (tol : F)
    (js : list nat) (rs : refs) (resvec : list F) : prog F loop_outcome_h :=
  match js with
  | [] => ret (ExhaustedH resvec)
  | j :: js' =>
      st <- get_state rs ;;
      let st' := fst (arnoldi_step A j st) in
      let res_norm := snd (arnoldi_step A j st) in
      put_state rs st' ;;;
      let resvec' := resvec ++ [res_norm] in
      if sleb res_norm tol then
        match solve (st_H st') (st_g st') (j + 1)%nat with
        | Some y =>
            x <- get_vec xr ;;
            (* x = x + V[:, : j + 1].dot(y): a new array, bound to x *)
            xr' <- new (Vec (vadd x (mat_dot n (st_V st') (j + 1)%nat y))) ;;
            ret (ReturnedH xr' resvec')
        | None => raise LinAlgError
        end
      else gmres_loop_h A n xr tol js' rs resvec'
  end.

(** [x = np.zeros(n)] or [x = x0.copy()]: a new array either way. *)
Definition new_guess (n : nat) (x0r : option nat) : prog F nat :=
  match x0r with
  | None => new (Vec (zeros n))
  | Some r => x0 <- get_vec r ;; new (Vec x0)
  end.

Section WithLstsq.
Variable lstsq : nat -> (nat -> nat -> F) -> (nat -> F) -> option (list F).

(** [gmres(A, b, x0, tol, maxiter)], with [b] and [x0] given by reference;
    it returns the reference held by [x], and the history. *)
Definition gmres_h (A : operator) (br : nat) (x0r : option nat) (tol : F)
    (maxiter : option Z) : prog F (nat * list F) :=
  b <- get_vec br ;;
  let n := length b in
  xr <- new_guess n x0r ;;
  let maxiter := max_steps n maxiter in
  x <- get_vec xr ;;
  let r0 := vsub b (A x) in
  let beta := norm r0 in
  if seqb beta s0 then ret (xr, [s0])
  else if (maxiter <? 0)%Z then raise ValueError
  else
    vr <- new (Basis (fun _ => zeros n)) ;;
    hr <- new (Mat (fun _ _ => s0)) ;;
    V <- get_basis vr ;;
    put vr (Basis (upd V 0%nat (vdiv r0 beta))) ;;;
    csr <- new (Arr (fun _ => s0)) ;;
    snr <- new (Arr (fun _ => s0)) ;;
    gr <- new (Arr (fun _ => s0)) ;;
    g <- get_arr gr ;;
    put gr (Arr (upd g 0%nat beta)) ;;;
    let rs := mk_refs vr hr csr snr gr in
    let m := Z.to_nat maxiter in
    out <- gmres_loop_h A n xr tol (seq 0 m) rs [beta] ;;
    match out with
    | ReturnedH xr' resvec => ret (xr', resvec)
    | ExhaustedH resvec =>
        st <- get_state rs ;;
        match lstsq m (st_H st) (st_g st) with
        | Some y =>
            x <- get_vec xr ;;
            xr' <- new (Vec (vadd x (mat_dot n (st_V st) m y))) ;;
            ret (xr', resvec)
        | None => raise LinAlgError
        end
    end.

(** The loop [for cycle in range(maxcycles)]. *)
Fixpoint restart_loop_h (A : operator) (br : nat) (m : Z) (tol : F)
    (cycles : list nat) (xr : nat) (residuals : list F) : prog F (nat * list F) :=
  match cycles with
  | [] => ret (xr, residuals)
  | cycle :: cycles' =>
      out <- gmres_h A br (Some xr) tol (Some m) ;;
      let residuals' :=
        if Nat.eqb cycle 0 then residuals ++ snd out
        else residuals ++ tl (snd out) in
      match last_entry residuals' with
      | None => raise IndexError
      | Some r =>
          if sleb r tol then ret (fst out, residuals')
          else restart_loop_h A br m tol cycles' (fst out) residuals'
      end
  end.

(** [gmres_restart(A, b, x0, m, tol, maxcycles)], with [b] and [x0] given by
    reference. *)
Definition gmres_restart_h (A : operator) (br : nat) (x0r : option nat)
    (m : Z) (tol : F) (maxcycles : Z) : prog F (nat * list F) :=
  xr <- match x0r with
        | None => b <- get_vec br ;; new (Vec (zeros (length b)))
        | Some r => x0 <- get_vec r ;; new (Vec x0)
        end ;;
  restart_loop_h A br m tol (seq 0 (Z.to_nat maxcycles)) xr [].

End WithLstsq.
End StoreSolver.

(** ** The shape of the arrays during the loop *)

Section Invariant.
Context {F : Type} `{Scalar F}.

(** When the pass for [j] starts, [H] is zero below the diagonal and in the
    columns from [j] on, and [g] and [V] are as allocated beyond index [j]. *)
Definition loop_inv (n j : nat) (st : arnoldi_state) : Prop :=
  (forall i k, (k < i \/ j <= k)%nat -> st_H st i k = s0) /\
  (forall k, (j < k)%nat -> st_g st k = s0) /\
  (forall k, (j < k)%nat -> st_V st k = zeros n).

(** The arrays after the passes [0 .. k - 1] of the loop over [j], when
    none of them returns. *)
Fixpoint after_passes (A : operator) (st : arnoldi_state) (k : nat)
    : arnoldi_state :=
  match k with
  | O => st
  | S k' => fst (arnoldi_step A k' (after_passes A st k'))
  end.

(** [res_norm] of the pass [j], the entry it appends to the history. *)
Definition pass_residual (A : operator) (st : arnoldi_state) (j : nat) : F :=
  snd (arnoldi_step A j (after_passes A st j)).

(** What [gmres] returns from the pass [j] when the check of that pass
    succeeds: the solution formed from the triangular solve, with the history
    up to that pass, or the [LinAlgError] of [np.linalg.solve]. *)
Definition early_exit (A : operator) (n : nat) (x : list F) (st : arnoldi_state)
    (rv : list F) (j : nat) : result (list F * list F) :=
  let st' := after_passes A st (S j) in
  match solve (st_H st') (st_g st') (j + 1)%nat with
  | Some y =>
      Ok (vadd x (mat_dot n (st_V st') (j + 1)%nat y),
          rv ++ map (pass_residual A st) (seq 0 (S j)))
  | None => Raise LinAlgError
  end.

End Invariant.

(** ** The store during a call *)

Section StoreShape.
Context {F : Type} `{Scalar F}.

(** The arrays when the loop is left, by [return] or at its end. *)
Fixpoint final_state (A : operator) (tol : F) (js : list nat) (st : arnoldi_state)
    : arnoldi_state :=
  match js with
  | [] => st
  | j :: js' =>
      if sleb (snd (arnoldi_step A j st)) tol then fst (arnoldi_step A j st)
      else final_state A tol js' (fst (arnoldi_step A j st))
  end.

(** The cells a call of [gmres_h] allocates, in order: [x], then [V], [H],
    [cs], [sn], [g]. *)
Definition cells (x : list F) (st : arnoldi_state) : list (ndarray F) :=
  [Vec x; Basis (st_V st); Mat (st_H st); Arr (st_cs st); Arr (st_sn st);
   Arr (st_g st)].

(** The references of the five arrays when [x] is the cell [k]. *)
Definition loop_refs (k : nat) : refs :=
  mk_refs (k + 1) (k + 2) (k + 3) (k + 4) (k + 5).

(** What the reference [x0r] passed for [x0] stands for. *)
Definition denotes (h : heap F) (x0r : option nat) (x0 : option (list F)) : Prop :=
  match x0r, x0 with
  | None, None => True
  | Some r, Some v => nth_error h r = Some (Vec v)
  | _, _ => False
  end.

End StoreShape.

(** ** The history of the restarted solver, cycle by cycle *)

Section RestartTrace.
Context {F : Type} `{Scalar F}.
Variable lstsq : nat -> (nat -> nat -> F) -> (nat -> F) -> option (list F).

(** [k] cycles of the inner solver, each started from the solution of the
    one before: the last solution and the histories of the cycles. *)
Fixpoint run_cycles (A : operator) (b : list F) (m : Z) (tol : F) (k : nat)
    (x : list F) : result (list F * list (list F)) :=
  match k with
  | O => Ok (x, [])
  | S k' =>
      match gmres lstsq A b (Some x) tol (Some m) with
      | Raise e => Raise e
      | Ok (x', rv) =>
          match run_cycles A b m tol k' x' with
          | Raise e => Raise e
          | Ok (x'', hs) => Ok (x'', rv :: hs)
          end
      end
  end.

(** The histories of later cycles, each without its first entry. *)
Definition drop_firsts (hs : list (list F)) : list F := concat (map (@tl F) hs).

(** The whole history of the first cycle, then the later ones without their
    first entries. *)
Definition stitch (hs : list (list F)) : list F :=
  match hs with
  | [] => []
  | h :: rest => h ++ drop_firsts rest
  end.

(** What a run of the restart loop appends when it starts at cycle [c]. *)
Definition appended (c : nat) (hs : list (list F)) : list F :=
  if Nat.eqb c 0 then stitch hs else drop_firsts hs.

End RestartTrace.

(** ** Shapes of histories and bases, in exact arithmetic *)

Section ExactShapes.
Local Open Scope R_scope.

(** Each entry is at most the one before it. *)
Fixpoint nonincreasing (l : list R) : Prop :=
  match l with
  | a :: ((b :: _) as t) => b <= a /\ nonincreasing t
  | _ => True
  end.

(** The columns [0 .. j] of [V] have length [n], are pairwise orthogonal,
    and each has unit norm or is still the zero column it was allocated as. *)
Definition orthogonal_basis (n j : nat) (V : nat -> list R) : Prop :=
  (forall k, (k <= j)%nat -> length (V k) = n) /\
  (forall k, (k <= j)%nat -> dot (V k) (V k) = 1 \/ V k = zeros n) /\
  (forall i k, (i <= j)%nat -> (k <= j)%nat -> i <> k -> dot (V i) (V k) = 0).

End ExactShapes.

(** ** Least squares, in exact arithmetic *)

Section LeastSquares.
Local Open Scope R_scope.

(** [f 0 + ... + f (n - 1)] *)
Fixpoint sum_upto (f : nat -> R) (n : nat) : R :=
  match n with
  | O => 0
  | S n' => sum_upto f n' + f n'
  end.

(** The squared 2-norm of [M[:rows, :cols] @ z - rhs[:rows]]. *)
Definition ls_residual2 (rows cols : nat) (M : nat -> nat -> R) (rhs : nat -> R)
    (z : list R) : R :=
  sum_upto (fun i =>
              (sum_upto (fun k => M i k * nth k z 0) cols - rhs i) *
              (sum_upto (fun k => M i k * nth k z 0) cols - rhs i)) rows.

(** What NumPy documents for [lstsq]: [y] minimises the residual of the
    [rows] by [cols] system, and has the least 2-norm among the minimisers. *)
Definition min_norm_least_squares (rows cols : nat) (M : nat -> nat -> R)
    (rhs : nat -> R) (y : list R) : Prop :=
  length y = cols /\
  (forall z, length z = cols ->
     ls_residual2 rows cols M rhs y <= ls_residual2 rows cols M rhs z) /\
  (forall z, length z = cols ->
     ls_residual2 rows cols M rhs z = ls_residual2 rows cols M rhs y ->
     dot y y <= dot z z).

End LeastSquares.

(** ** Concrete inputs *)

Section Inputs.
Local Open Scope R_scope.

(** The default tolerance, [tol = 1e-8]. *)
Definition tol_default : R := 1e-8.

(** A nonsingular 2 by 2 system, [A2 @ x = b2] with solution [1/9, 4/21]. *)
Definition A2 : @operator R := dense [[9; 0]; [12; -7]].
Definition b2 : list R := [1; 0].

(** The arrays of [gmres(A2, b2)] when the loop is entered, after its first
    pass and after its second pass. *)
Definition A2_st0 : @arnoldi_state R := init_state 2 [1; 0] 1.

Definition A2_V : nat -> list R :=
  upd (upd (fun _ => zeros 2) 0%nat [1; 0]) 1%nat [0; 1].
Definition A2_H1 : nat -> nat -> R := upd2 (fun _ _ => 0) 0%nat 0%nat (21 / 5).
Definition A2_cs1 : nat -> R := upd (fun _ => 0) 0%nat (- (3 / 5)).
Definition A2_sn1 : nat -> R := upd (fun _ => 0) 0%nat (4 / 5).
Definition A2_g : nat -> R := upd (upd (fun _ => 0) 0%nat (- (3 / 5))) 1%nat (- (4 / 5)).
Definition A2_st1 : @arnoldi_state R := mk_state A2_V A2_H1 A2_cs1 A2_sn1 A2_g.

Definition A2_H2 : nat -> nat -> R :=
  upd2 (upd2 A2_H1 0%nat 1%nat (- (28 / 5))) 1%nat 1%nat (21 / 5).
Definition A2_st2 : @arnoldi_state R :=
  mk_state A2_V A2_H2 (upd A2_cs1 1%nat 1) (upd A2_sn1 1%nat 0) A2_g.

(** What [gmres(A2, b2)] returns, and what one cycle of one step returns. *)
Definition A2_x : list R := [- (25 / 63); - (4 / 21)].
Definition A2_x1 : list R := [- (1 / 7); 0].

(** The arrays of the second restart cycle, started from [A2_x1]. *)
Definition A2_r1 : list R := [16 / 7; 12 / 7].
Definition A2_c1_st0 : @arnoldi_state R := init_state 2 A2_r1 (20 / 7).
Definition A2_c1_st1 : @arnoldi_state R :=
  mk_state (upd (fun _ => zeros 2) 0%nat [4 / 5; 3 / 5])
           (upd2 (fun _ _ => 0) 0%nat 0%nat 9)
           (upd (fun _ => 0) 0%nat 1)
           (fun _ => 0)
           (upd (fun _ => 0) 0%nat (20 / 7)).

(** A 3 by 3 system on which two passes do not reach the default tolerance. *)
Definition A3 : @operator R := dense [[9; 0; 0]; [12; -5; 0]; [0; 4; 1]].
Definition b3 : list R := [1; 0; 0].

(** The arrays of [gmres(A3, b3, maxiter=2)] when the loop is entered, after
    its first pass and after its second pass. *)
Definition A3_st0 : @arnoldi_state R := init_state 3 [1; 0; 0] 1.

Definition A3_V1 : nat -> list R :=
  upd (upd (fun _ => zeros 3) 0%nat [1; 0; 0]) 1%nat [0; 1; 0].
Definition A3_g1 : nat -> R := upd (upd (fun _ => 0) 0%nat (- (3 / 5))) 1%nat (- (4 / 5)).
Definition A3_st1 : @arnoldi_state R := mk_state A3_V1 A2_H1 A2_cs1 A2_sn1 A3_g1.

Definition A3_V2 : nat -> list R := upd A3_V1 2%nat [0; 0; 1].
Definition A3_H2 : nat -> nat -> R :=
  upd2 (upd2 A2_H1 0%nat 1%nat (- 4)) 1%nat 1%nat (7 / 5).
Definition A3_g2 : nat -> R :=
  upd (upd (upd (fun _ => 0) 0%nat (- (3 / 5))) 1%nat (12 / 25)) 2%nat (16 / 25).
Definition A3_st2 : @arnoldi_state R :=
  mk_state A3_V2 A3_H2 (upd A2_cs1 1%nat (- (3 / 5))) (upd A2_sn1 1%nat (4 / 5)) A3_g2.

(** What [gmres(A3, b3, maxiter=2)] returns. *)
Definition A3_y : list R := [9 / 49; 12 / 35].
Definition A3_x : list R := [9 / 49; 12 / 35; 0].

(** A singular 1 by 1 system. *)
Definition A0 : @operator R := dense [[0]].
Definition b0 : list R := [1].
Definition A0_st0 : @arnoldi_state R := init_state 1 [1] 1.
Definition A0_st1 : @arnoldi_state R :=
  mk_state (upd (fun _ => zeros 1) 0%nat [1])
           (fun _ _ => 0)
           (upd (fun _ => 0) 0%nat 1)
           (fun _ => 0)
           (upd (fun _ => 0) 0%nat 1).

(** The 5 by 5 identity and the vector of ones. *)
Definition I5 : @operator R :=
  dense [[1; 0; 0; 0; 0]; [0; 1; 0; 0; 0]; [0; 0; 1; 0; 0];
         [0; 0; 0; 1; 0]; [0; 0; 0; 0; 1]].
Definition ones5 : list R := [1; 1; 1; 1; 1].
Definition I5_v0 : list R :=
  [1 / sqrt 5; 1 / sqrt 5; 1 / sqrt 5; 1 / sqrt 5; 1 / sqrt 5].
Definition I5_st0 : @arnoldi_state R := init_state 5 ones5 (sqrt 5).
Definition I5_st1 : @arnoldi_state R :=
  mk_state (upd (fun _ => zeros 5) 0%nat I5_v0)
           (upd2 (fun _ _ => 0) 0%nat 0%nat 1)
           (upd (fun _ => 0) 0%nat 1)
           (fun _ => 0)
           (upd (fun _ => 0) 0%nat (sqrt 5)).

(** A least-squares routine for the 1 by 1 systems of the examples. *)
Definition lstsq_1x1 (m : nat) (M : nat -> nat -> R) (rhs : nat -> R)
    : option (list R) :=
  Some [rhs 0%nat / M 0%nat 0%nat].

(** A least-squares routine for the nonsingular upper triangular 2 by 2
    systems of the examples: the solution of the system. *)
Definition lstsq_2x2 (m : nat) (M : nat -> nat -> R) (rhs : nat -> R)
    : option (list R) :=
  Some [(rhs 0%nat - M 0%nat 1%nat * (rhs 1%nat / M 1%nat 1%nat)) / M 0%nat 0%nat;
        rhs 1%nat / M 1%nat 1%nat].

End Inputs.

(** The same inputs in binary64. *)
Section InputsBinary64.
Local Open Scope float_scope.
#[local] Set Warnings "-inexact-float".

Definition tol_default_f : float := 1e-8.
Definition A2f : @operator float := dense [[9; 0]; [12; -7]].
Definition b2f : list float := [1; 0].

(** A system with finite entries on which [norm(w)] overflows. *)
Definition A_big : @operator float := dense [[1e200; 2e200]; [3e200; 4e200]].
Definition b11 : list float := [1; 1].
(** [np.linalg.lstsq] on a 1 by 1 block in binary64: the routine raises
    [LinAlgError] (no convergence) when the entry is [inf] or [nan]. *)
Definition lstsq_1x1_f (m : nat) (M : nat -> nat -> float) (rhs : nat -> float)
    : option (list float) :=
  if is_finite (M 0%nat 0%nat) then Some [rhs 0%nat / M 0%nat 0%nat] else None.

End InputsBinary64.

(** Unfolds the array operations on a concrete input, down to expressions
    of real arithmetic. *)
Ltac eval_R :=
  cbv beta iota zeta delta
    [A2 b2 A2_st0 A2_V A2_H1 A2_cs1 A2_sn1 A2_g A2_st1 A2_H2 A2_st2 A2_x A2_x1
     A2_r1 A2_c1_st0 A2_c1_st1 A0 b0 A0_st0 A0_st1 I5 ones5 I5_v0 I5_st0 I5_st1
     A3 b3 A3_st0 A3_V1 A3_g1 A3_st1 A3_V2 A3_H2 A3_g2 A3_st2 A3_y A3_x
     dense zeros repeat vadd vsub vscale vdiv dot norm mat_dot map combine
     fold_left fst snd seq nth upd upd2 Nat.eqb andb Nat.add length
     init_state st_V st_H st_cs st_sn st_g
     arnoldi_expand arnoldi_w arnoldi_H mgs_step rot_step rotated_H
     s0 s1 sadd ssub smul sdiv sopp ssqrt sabs R_scalar].

(** Closes an equation between concrete vectors, entry by entry. *)
Ltac vec_R := repeat (f_equal; try lra; try (field; lra)).

(** Reads the scalar operations of the instance as operations on [R]; the
    comparisons are left to their lemmas. *)
Ltac scalar_R :=
  cbn [s0 s1 sadd ssub smul sdiv sopp ssqrt sabs R_scalar] in *.

(** Splits the conjunctions of the goal, and nothing else. *)
Ltac split_and := repeat match goal with |- _ /\ _ => split end.
(** * Properties *)

(** ** Control flow of the two solvers, for any arithmetic *)

Section SolverFacts.
Context {F : Type} `{Scalar F}.
Variable lstsq : nat -> (nat -> nat -> F) -> (nat -> F) -> option (list F).

Lemma last_entry_snoc (l : list F) (r : F) : last_entry (l ++ [r]) = Some r.
Proof. unfold last_entry. rewrite rev_app_distr. reflexivity. Qed.

Lemma last_entry_app (l k : list F) :
  k <> [] -> last_entry (l ++ k) = last_entry k.
Proof.
  intros Hk. destruct (exists_last Hk) as (k' & r & ->).
  rewrite app_assoc, !last_entry_snoc. reflexivity.
Qed.

Lemma last_entry_nonempty (l : list F) :
  l <> [] -> exists r, last_entry l = Some r.
Proof.
  intros Hl. destruct (exists_last Hl) as (l' & r & ->).
  exists r. apply last_entry_snoc.
Qed.

(** The history only grows: whatever the loop returns extends the history it
    was entered with. *)
Lemma gmres_loop_history_extends (A : operator) n x tol js :
  forall st resvec,
    match gmres_loop A n x tol js st resvec with
    | Returned (Ok (_, rv)) => exists l, rv = resvec ++ l
    | Returned (Raise _) => True
    | Exhausted _ rv => exists l, rv = resvec ++ l
    end.
Proof.
  induction js as [|j js IH]; intros st resvec; simpl.
  - exists []. now rewrite app_nil_r.
  - destruct (sleb _ tol).
    + destruct (solve _ _ _); [|exact I].
      eexists. reflexivity.
    + specialize (IH (fst (arnoldi_step A j st))
                     (resvec ++ [snd (arnoldi_step A j st)])).
      destruct (gmres_loop _ _ _ _ _ _ _) as [[[x' rv]|e]|st' rv]; auto.
      * destruct IH as [l ->]. rewrite <- app_assoc. eexists. reflexivity.
      * destruct IH as [l ->]. rewrite <- app_assoc. eexists. reflexivity.
Qed.

(** Every history [gmres] returns starts with an entry: [0.0] on the
    short-circuit, the initial residual norm otherwise. *)
Lemma gmres_history_head (A : operator) b x0 tol maxiter x rv :
  gmres lstsq A b x0 tol maxiter = Ok (x, rv) ->
  exists l,
    rv = (if seqb (norm (vsub b (A (initial_guess (length b) x0)))) s0
          then s0
          else norm (vsub b (A (initial_guess (length b) x0)))) :: l.
Proof.
  unfold gmres. destruct (seqb _ s0).
  - intros [= <- <-]. now exists [].
  - destruct (Z.ltb _ 0); [discriminate|].
    match goal with
    | |- context [gmres_loop ?A ?n ?x ?tol ?js ?st ?rv0] =>
        pose proof (gmres_loop_history_extends A n x tol js st rv0) as Hext;
        destruct (gmres_loop A n x tol js st rv0) as [[[x' rv']|e]|st' rv']
    end.
    + intros [= <- <-]. destruct Hext as [l ->]. now exists l.
    + discriminate.
    + destruct (lstsq _ _ _) as [y|]; [|discriminate].
      intros [= <- <-]. destruct Hext as [l' ->]. now exists l'.
Qed.

Lemma gmres_history_nonempty (A : operator) b x0 tol maxiter x rv :
  gmres lstsq A b x0 tol maxiter = Ok (x, rv) -> rv <> [].
Proof.
  intros Hg. destruct (gmres_history_head _ _ _ _ _ _ _ Hg) as [l ->]. discriminate.
Qed.

(** [gmres] reads [x0] only through its entries: the default guess and an
    explicit vector of zeros are the same call. *)
Lemma gmres_default_guess (A : operator) b tol maxiter :
  gmres lstsq A b None tol maxiter =
  gmres lstsq A b (Some (zeros (length b))) tol maxiter.
Proof. reflexivity. Qed.

(** One cycle of the restart loop, on a cycle that does not raise. *)
Lemma restart_loop_cycle (A : operator) b m tol cycle cycles x residuals x' rvec :
  gmres lstsq A b (Some x) tol (Some m) = Ok (x', rvec) ->
  restart_loop lstsq A b m tol (cycle :: cycles) x residuals =
  let residuals' :=
    residuals ++ (if Nat.eqb cycle 0 then rvec else tl rvec) in
  match last_entry residuals' with
  | None => Raise IndexError
  | Some r =>
      if sleb r tol then Ok (x', residuals')
      else restart_loop lstsq A b m tol cycles x' residuals'
  end.
Proof.
  intros Hg. simpl. rewrite Hg. destruct (Nat.eqb cycle 0); reflexivity.
Qed.

End SolverFacts.

Section ControlFlow.
Context {F : Type} `{Scalar F}.
Variable lstsq : nat -> (nat -> nat -> F) -> (nat -> F) -> option (list F).

(** C7: when the initial residual norm [beta] compares equal to zero, [gmres]
    returns the initial guess ([x0], or the zero vector when [x0] is [None])
    with the one-element history [[0.0]]: a normal return, before any array
    of the Arnoldi process is allocated and whatever [maxiter] is. *)
Theorem gmres_zero_initial_residual
    (A : operator) (b : list F) (x0 : option (list F)) (tol : F) (maxiter : option Z) :
  seqb (norm (vsub b (A (initial_guess (length b) x0)))) s0 = true ->
  gmres lstsq A b x0 tol maxiter = Ok (initial_guess (length b) x0, [s0]).
Proof. intros Hbeta. unfold gmres. rewrite Hbeta. reflexivity. Qed.

(** C6: one restart cycle of length [n = len(b)] is the unrestarted solver
    with [maxiter = n]: same solution, same history, same exception if one is
    raised. *)
Theorem gmres_restart_single_cycle (A : operator) (b : list F) (tol : F) :
  gmres_restart lstsq A b None (Z.of_nat (length b)) tol 1 =
  gmres lstsq A b None tol (Some (Z.of_nat (length b))).
Proof.
  unfold gmres_restart.
  change (seq 0 (Z.to_nat 1)) with [0%nat].
  rewrite gmres_default_guess. simpl initial_guess.
  destruct (gmres lstsq A b (Some (zeros (length b))) tol
                  (Some (Z.of_nat (length b)))) as [[x rvec]|e] eqn:Hg.
  - rewrite (restart_loop_cycle _ _ _ _ _ _ _ _ _ _ _ Hg). simpl.
    destruct (last_entry_nonempty _ (gmres_history_nonempty _ _ _ _ _ _ _ _ Hg)) as [r ->].
    destruct (sleb r tol); reflexivity.
  - simpl. rewrite Hg. reflexivity.
Qed.


End ControlFlow.


(** ** The loop keeps [H] upper triangular and the unused entries zero *)

Section InvariantFacts.
Context {F : Type} `{Scalar F}.

Lemma upd_same {T} (a : nat -> T) i v : upd a i v i = v.
Proof. unfold upd. now rewrite Nat.eqb_refl. Qed.

Lemma upd_other {T} (a : nat -> T) i v k : k <> i -> upd a i v k = a k.
Proof. intros Hk. unfold upd. apply Nat.eqb_neq in Hk. now rewrite Hk. Qed.

Lemma upd2_same {T} (M : nat -> nat -> T) i j v : upd2 M i j v i j = v.
Proof. unfold upd2. now rewrite !Nat.eqb_refl. Qed.

Lemma upd2_other {T} (M : nat -> nat -> T) i j v r c :
  r <> i \/ c <> j -> upd2 M i j v r c = M r c.
Proof.
  intros Hrc. unfold upd2.
  destruct (Nat.eqb_spec r i), (Nat.eqb_spec c j); simpl; try reflexivity.
  exfalso. destruct Hrc; contradiction.
Qed.

(** The orthogonalisation loop writes the rows it visits, in column [j]. *)
Lemma mgs_fold_other (V : nat -> list F) j l :
  forall Hm w r c,
    c <> j \/ ~ In r l ->
    fst (fold_left (mgs_step V j) l (Hm, w)) r c = Hm r c.
Proof.
  induction l as [|i l IH]; intros Hm w r c Hrc; simpl; [reflexivity|].
  unfold mgs_step at 2. simpl fst. simpl snd.
  rewrite IH.
  - apply upd2_other. destruct Hrc as [Hc|Hr]; [now right|].
    left. intros ->. apply Hr. now left.
  - destruct Hrc as [Hc|Hr]; [now left|]. right. intros Hin. apply Hr. now right.
Qed.

(** The loop over the previous rotations writes rows [i] and [i + 1] for the
    [i] it visits, in column [j]. *)
Lemma rot_fold_other (cs sn : nat -> F) j l :
  forall Hm r c,
    c <> j \/ (forall i, In i l -> r <> i /\ r <> (i + 1)%nat) ->
    fold_left (rot_step cs sn j) l Hm r c = Hm r c.
Proof.
  induction l as [|i l IH]; intros Hm r c Hrc; simpl; [reflexivity|].
  rewrite IH.
  - unfold rot_step. rewrite !upd2_other; [reflexivity| |].
    + destruct Hrc as [Hc|Hr]; [now right|]. left. apply Hr. now left.
    + destruct Hrc as [Hc|Hr]; [now right|]. left. apply Hr. now left.
  - destruct Hrc as [Hc|Hr]; [now left|]. right. intros i' Hin. apply Hr. now right.
Qed.

Lemma arnoldi_H_other (A : operator) j st r c :
  c <> j \/ (j + 1 < r)%nat -> arnoldi_H A j st r c = st_H st r c.
Proof.
  intros Hrc. unfold arnoldi_H. rewrite upd2_other by lia.
  unfold arnoldi_expand. apply mgs_fold_other.
  destruct Hrc as [Hc|Hr]; [now left|]. right. rewrite in_seq. lia.
Qed.

Lemma arnoldi_H_subdiagonal (A : operator) j st :
  arnoldi_H A j st (j + 1)%nat j = norm (arnoldi_w A j st).
Proof. unfold arnoldi_H. apply upd2_same. Qed.

Lemma rotated_H_below (A : operator) j st r c :
  c <> j \/ (j < r)%nat -> rotated_H A j st r c = arnoldi_H A j st r c.
Proof.
  intros Hrc. unfold rotated_H. apply rot_fold_other.
  destruct Hrc as [Hc|Hr]; [now left|]. right. intros i Hin.
  apply in_seq in Hin. lia.
Qed.

(** The rotations of the earlier steps leave the new subdiagonal entry
    alone: the rotation of step [j] is computed from [H[j + 1, j] = norm(w)]. *)
Lemma rotated_H_subdiagonal (A : operator) j st :
  rotated_H A j st (j + 1)%nat j = norm (arnoldi_w A j st).
Proof. rewrite rotated_H_below by lia. apply arnoldi_H_subdiagonal. Qed.

Lemma arnoldi_step_H (A : operator) j st :
  st_H (fst (arnoldi_step A j st)) =
  upd2 (upd2 (rotated_H A j st) j j
             (sadd (smul (fst (step_rotation A j st)) (rotated_H A j st j j))
                   (smul (snd (step_rotation A j st))
                         (rotated_H A j st (j + 1)%nat j))))
       (j + 1)%nat j s0.
Proof. reflexivity. Qed.

Lemma arnoldi_step_g (A : operator) j st :
  st_g (fst (arnoldi_step A j st)) =
  upd (upd (st_g st) (j + 1)%nat
           (sadd (smul (sopp (snd (step_rotation A j st))) (st_g st j))
                 (smul (fst (step_rotation A j st)) (st_g st (j + 1)%nat))))
      j
      (sadd (smul (fst (step_rotation A j st)) (st_g st j))
            (smul (snd (step_rotation A j st)) (st_g st (j + 1)%nat))).
Proof. reflexivity. Qed.

Lemma arnoldi_step_V (A : operator) j st :
  st_V (fst (arnoldi_step A j st)) = arnoldi_V A j st.
Proof. reflexivity. Qed.

Lemma arnoldi_V_other (A : operator) j st k :
  k <> (j + 1)%nat -> arnoldi_V A j st k = st_V st k.
Proof.
  intros Hk. unfold arnoldi_V. destruct (sneb _ _); [|reflexivity].
  now apply upd_other.
Qed.

Lemma loop_inv_init n (r0 : list F) beta : loop_inv n 0 (init_state n r0 beta).
Proof.
  split; [|split]; simpl; intros.
  - reflexivity.
  - now rewrite upd_other by lia.
  - now rewrite upd_other by lia.
Qed.

Lemma loop_inv_step (A : operator) n j st :
  loop_inv n j st -> loop_inv n (S j) (fst (arnoldi_step A j st)).
Proof.
  intros (HH & Hg & HV). split; [|split].
  - intros i k Hik. rewrite arnoldi_step_H.
    destruct (Nat.eq_dec k j) as [->|Hk].
    + (* column j: the entry below the diagonal is zeroed, the rest untouched *)
      assert (Hi : (j < i)%nat) by lia.
      destruct (Nat.eq_dec i (j + 1)%nat) as [->|Hi'].
      * apply upd2_same.
      * rewrite !upd2_other by lia.
        rewrite rotated_H_below by lia. rewrite arnoldi_H_other by lia.
        apply HH. lia.
    + rewrite !upd2_other by lia.
      rewrite rotated_H_below by (now left). rewrite arnoldi_H_other by (now left).
      apply HH. lia.
  - intros k Hk. rewrite arnoldi_step_g. rewrite !upd_other by lia.
    apply Hg. lia.
  - intros k Hk. rewrite arnoldi_step_V. rewrite arnoldi_V_other by lia.
    apply HV. lia.
Qed.

(** Running the loop over [l1 ++ l2] is running it over [l1] and, unless it
    returned, over [l2]. *)
Lemma gmres_loop_app (A : operator) n x tol l1 l2 :
  forall st rv,
    gmres_loop A n x tol (l1 ++ l2) st rv =
    match gmres_loop A n x tol l1 st rv with
    | Returned r => Returned r
    | Exhausted st' rv' => gmres_loop A n x tol l2 st' rv'
    end.
Proof.
  induction l1 as [|j l1 IH]; intros st rv; simpl; [reflexivity|].
  destruct (sleb _ tol).
  - destruct (solve _ _ _); reflexivity.
  - apply IH.
Qed.

(** The loop runs [k] passes without returning exactly when none of their
    checks succeeds; it then leaves the arrays of [after_passes] and has
    appended the entries of the passes. *)
Lemma gmres_loop_exhausted (A : operator) n x tol st0 rv0 k st rv :
  gmres_loop A n x tol (seq 0 k) st0 rv0 = Exhausted st rv <->
  (forall j, (j < k)%nat -> sleb (pass_residual A st0 j) tol = false) /\
  st = after_passes A st0 k /\
  rv = rv0 ++ map (pass_residual A st0) (seq 0 k).
Proof.
  revert st rv. induction k as [|k IH]; intros st rv.
  - cbn [seq gmres_loop after_passes map]. rewrite app_nil_r. split.
    + intros [= <- <-]. split_and; [intros j Hj; lia|reflexivity|reflexivity].
    + intros (_ & -> & ->). reflexivity.
  - rewrite seq_S, gmres_loop_app, map_app. cbn [Nat.add map gmres_loop].
    destruct (gmres_loop A n x tol (seq 0 k) st0 rv0) as [r|st1 rv1] eqn:Hk.
    + split; [discriminate|]. intros (Hno & _ & _).
      specialize (IH (after_passes A st0 k)
                     (rv0 ++ map (pass_residual A st0) (seq 0 k))).
      destruct IH as [_ IH]. discriminate IH.
      split_and; [intros j Hj; apply Hno; lia|reflexivity|reflexivity].
    + destruct (proj1 (IH st1 rv1) eq_refl) as (Hno & -> & ->).
      fold (pass_residual A st0 k).
      destruct (sleb (pass_residual A st0 k) tol) eqn:Hchk.
      * split.
        -- destruct (solve _ _ _); discriminate.
        -- intros (Hno' & _ & _). rewrite Hno' in Hchk by lia. discriminate.
      * cbn [after_passes]. rewrite <- app_assoc. split.
        -- intros [= <- <-]. split_and; [|reflexivity|reflexivity].
           intros j Hj. destruct (Nat.eq_dec j k) as [->|Hne];
             [exact Hchk|apply Hno; lia].
        -- intros (_ & -> & ->). reflexivity.
Qed.

(** The invariant holds of the arrays after any number of passes. *)
Lemma after_passes_inv (A : operator) n (r0 : list F) beta k :
  loop_inv n k (after_passes A (init_state n r0 beta) k).
Proof.
  induction k as [|k IH]; cbn [after_passes].
  - apply loop_inv_init.
  - now apply loop_inv_step.
Qed.

(** A pass writes one column of [V], and no later pass writes it again. *)
Lemma after_passes_V (A : operator) st0 j :
  st_V (after_passes A st0 j) 0%nat = st_V st0 0%nat /\
  forall k, (k < j)%nat ->
    st_V (after_passes A st0 j) (k + 1)%nat =
    arnoldi_V A k (after_passes A st0 k) (k + 1)%nat.
Proof.
  induction j as [|j [IH0 IH]]; cbn [after_passes].
  - split; [reflexivity|]. intros k Hk. lia.
  - rewrite arnoldi_step_V. split.
    + rewrite arnoldi_V_other by lia. exact IH0.
    + intros k Hk. destruct (Nat.eq_dec k j) as [->|Hne]; [reflexivity|].
      rewrite arnoldi_V_other by lia. apply IH. lia.
Qed.

(** What the columns of [V] are after [j] passes: column 0 is [r0 / beta];
    the pass [k] wrote [w / norm(w)] into column [k + 1] unless that norm was
    zero, and the column is as allocated then. *)
Lemma after_passes_columns (A : operator) n (r0 : list F) beta j :
  st_V (after_passes A (init_state n r0 beta) j) 0%nat = vdiv r0 beta /\
  forall k, (k < j)%nat ->
    st_V (after_passes A (init_state n r0 beta) j) (k + 1)%nat =
    if seqb (norm (arnoldi_w A k (after_passes A (init_state n r0 beta) k))) s0
    then zeros n
    else vdiv (arnoldi_w A k (after_passes A (init_state n r0 beta) k))
              (norm (arnoldi_w A k (after_passes A (init_state n r0 beta) k))).
Proof.
  destruct (after_passes_V A (init_state n r0 beta) j) as [H0 Hk].
  split; [rewrite H0; apply upd_same|].
  intros k Hlt. rewrite (Hk k Hlt). unfold arnoldi_V.
  rewrite arnoldi_H_subdiagonal. unfold sneb.
  destruct (seqb _ s0); cbn [negb].
  - destruct (after_passes_inv A n r0 beta k) as (_ & _ & HV). apply HV. lia.
  - apply upd_same.
Qed.

(** The two ways the loop over [range(k)] ends: no check succeeds and it runs
    to its end, or it returns from the first pass whose check succeeds. *)
Lemma gmres_loop_cases (A : operator) n x tol st0 rv0 k :
  ((forall j, (j < k)%nat -> sleb (pass_residual A st0 j) tol = false) /\
   gmres_loop A n x tol (seq 0 k) st0 rv0 =
   Exhausted (after_passes A st0 k) (rv0 ++ map (pass_residual A st0) (seq 0 k)))
  \/
  (exists j,
     (j < k)%nat /\
     (forall i, (i < j)%nat -> sleb (pass_residual A st0 i) tol = false) /\
     sleb (pass_residual A st0 j) tol = true /\
     gmres_loop A n x tol (seq 0 k) st0 rv0 = Returned (early_exit A n x st0 rv0 j)).
Proof.
  induction k as [|k IH].
  - left. split; [intros j Hj; lia|]. cbn [seq gmres_loop after_passes map].
    now rewrite app_nil_r.
  - rewrite seq_S, gmres_loop_app. cbn [Nat.add].
    destruct IH as [[Hno ->]|(j & Hj & Hno & Hchk & ->)].
    + cbn [gmres_loop]. fold (pass_residual A st0 k).
      destruct (sleb (pass_residual A st0 k) tol) eqn:Hchk.
      * right. exists k. split_and; [lia|exact Hno|exact Hchk|].
        unfold early_exit. cbv zeta. cbn [after_passes].
        rewrite seq_S, map_app, app_assoc. cbn [Nat.add map].
        destruct (solve _ _ _); reflexivity.
      * left. split.
        -- intros j Hj. destruct (Nat.eq_dec j k) as [->|Hne];
             [exact Hchk|apply Hno; lia].
        -- cbn [after_passes]. rewrite map_app, app_assoc. reflexivity.
    + right. exists j. split_and; [lia|exact Hno|exact Hchk|reflexivity].
Qed.

Lemma gmres_loop_inv (A : operator) n x tol k :
  forall j st rv st' rv',
    loop_inv n j st ->
    gmres_loop A n x tol (seq j k) st rv = Exhausted st' rv' ->
    loop_inv n (j + k) st'.
Proof.
  induction k as [|k IH]; intros j st rv st' rv' Hinv; simpl.
  - intros [= <- <-]. now rewrite Nat.add_0_r.
  - destruct (sleb _ tol).
    + destruct (solve _ _ _); discriminate.
    + intros Hloop. rewrite <- Nat.add_succ_comm.
      eapply IH; [|exact Hloop]. now apply loop_inv_step.
Qed.

(** The matrix handed to [np.linalg.solve] at step [j] is upper
    triangular. *)
Lemma gmres_loop_upper_triangular (A : operator) n x tol r0 beta j st rv :
  gmres_loop A n x tol (seq 0 j) (init_state n r0 beta) [beta] = Exhausted st rv ->
  forall i k, (k < i)%nat -> st_H (fst (arnoldi_step A j st)) i k = s0.
Proof.
  intros Hloop i k Hik.
  pose proof (gmres_loop_inv A n x tol j 0 _ _ _ _ (loop_inv_init n r0 beta) Hloop)
    as Hinv.
  apply (loop_inv_step A) in Hinv. destruct Hinv as (HH & _). apply HH. now left.
Qed.

End InvariantFacts.

(** ** The solvers over the store: what is written, what is computed *)

Section StoreFacts.
Context {F : Type} `{Scalar F}.

Lemma store_app (h l : heap F) k o :
  store (h ++ l) (length h + k) o = h ++ store l k o.
Proof. induction h as [|a h IH]; simpl; [reflexivity|]. now rewrite IH. Qed.

Lemma new_app (h l : heap F) o :
  new o (h ++ l) = (Ok (length h + length l)%nat, h ++ (l ++ [o])).
Proof. unfold new. now rewrite length_app, app_assoc. Qed.

Lemma get_app (h l : heap F) k :
  get (length h + k) (h ++ l) =
  match nth_error l k with
  | Some o => (Ok o, h ++ l)
  | None => (Raise TypeError, h ++ l)
  end.
Proof.
  unfold get. rewrite nth_error_app2 by lia.
  replace (length h + k - length h)%nat with k by lia. reflexivity.
Qed.

Lemma put_app (h l : heap F) k o :
  put (length h + k) o (h ++ l) = (Ok tt, h ++ store l k o).
Proof. unfold put. now rewrite store_app. Qed.

Lemma get_state_cells (h : heap F) x st rest :
  get_state (loop_refs (length h)) (h ++ (cells x st ++ rest)) =
  (Ok st, h ++ (cells x st ++ rest)).
Proof.
  destruct st as [V M cs sn g].
  unfold get_state, get_basis, get_mat, get_arr, loop_refs, bind, ret.
  cbn [r_V r_H r_cs r_sn r_g].
  repeat (first [rewrite get_app | rewrite put_app];
          cbn [nth_error cells app store st_V st_H st_cs st_sn st_g];
          cbv beta iota).
  reflexivity.
Qed.

Lemma put_state_cells (h : heap F) x st st' rest :
  put_state (loop_refs (length h)) st' (h ++ (cells x st ++ rest)) =
  (Ok tt, h ++ (cells x st' ++ rest)).
Proof.
  unfold put_state, loop_refs, bind. cbn [r_V r_H r_cs r_sn r_g].
  repeat (first [rewrite get_app | rewrite put_app];
          cbn [nth_error cells app store st_V st_H st_cs st_sn st_g];
          cbv beta iota).
  reflexivity.
Qed.

Lemma get_vec_cells (h : heap F) x st rest :
  get_vec (length h + 0) (h ++ (cells x st ++ rest)) = (Ok x, h ++ (cells x st ++ rest)).
Proof.
  unfold get_vec, bind, ret. rewrite get_app. reflexivity.
Qed.

Lemma gmres_loop_h_spec (A : operator) n x tol (h : heap F) js :
  forall st resvec,
    gmres_loop_h A n (length h + 0) tol js (loop_refs (length h)) resvec
                 (h ++ cells x st) =
    match gmres_loop A n x tol js st resvec with
    | Returned (Ok (x', rv)) =>
        (Ok (ReturnedH (length h + 6) rv),
         h ++ (cells x (final_state A tol js st) ++ [Vec x']))
    | Returned (Raise e) => (Raise e, h ++ cells x (final_state A tol js st))
    | Exhausted st' rv => (Ok (ExhaustedH rv), h ++ cells x st')
    end.
Proof.
  induction js as [|j js IH]; intros st resvec; [reflexivity|].
  cbn [gmres_loop_h gmres_loop final_state].
  unfold bind at 1.
  rewrite <- (app_nil_r (cells x st)). rewrite get_state_cells.
  unfold bind at 1. rewrite put_state_cells. rewrite app_nil_r.
  destruct (sleb _ tol).
  - destruct (solve _ _ _) as [y|].
    + unfold bind at 1.
      rewrite <- (app_nil_r (cells x (fst (arnoldi_step A j st)))) at 1.
      rewrite get_vec_cells. rewrite app_nil_r.
      unfold bind at 1. rewrite new_app. reflexivity.
    + reflexivity.
  - apply IH.
Qed.

Lemma get_vec_ok (h : heap F) r v :
  nth_error h r = Some (Vec v) -> get_vec r h = (Ok v, h).
Proof. intros Hr. unfold get_vec, bind, get. now rewrite Hr. Qed.

Lemma get_vec_heap (h : heap F) r : snd (get_vec r h) = h.
Proof.
  unfold get_vec, bind, get.
  destruct (nth_error h r) as [[v|V|M|a]|]; reflexivity.
Qed.

Lemma new_guess_ok (h : heap F) n x0r x0 :
  denotes h x0r x0 ->
  new_guess n x0r h = (Ok (length h + 0)%nat, h ++ [Vec (initial_guess n x0)]).
Proof.
  unfold denotes, new_guess. rewrite Nat.add_0_r.
  destruct x0r as [r|], x0 as [v|]; try contradiction; intros Hd.
  - unfold bind. now rewrite (get_vec_ok _ _ _ Hd).
  - reflexivity.
Qed.

Section WithLstsq.
Variable lstsq : nat -> (nat -> nat -> F) -> (nat -> F) -> option (list F).

(** What [gmres_h] computes, and the store it leaves. *)
Lemma gmres_h_run (A : operator) br x0r tol maxiter (h : heap F) b x0 :
  nth_error h br = Some (Vec b) ->
  denotes h x0r x0 ->
  gmres_h lstsq A br x0r tol maxiter h =
  let n := length b in
  let x := initial_guess n x0 in
  let r0 := vsub b (A x) in
  let beta := norm r0 in
  let m := Z.to_nat (max_steps n maxiter) in
  if seqb beta s0 then (Ok ((length h + 0)%nat, [s0]), h ++ [Vec x])
  else if (max_steps n maxiter <? 0)%Z then (Raise ValueError, h ++ [Vec x])
  else
    match gmres_loop A n x tol (seq 0 m) (init_state n r0 beta) [beta] with
    | Returned (Ok (x', rv)) =>
        (Ok ((length h + 6)%nat, rv),
         h ++ (cells x (final_state A tol (seq 0 m) (init_state n r0 beta))
               ++ [Vec x']))
    | Returned (Raise e) =>
        (Raise e, h ++ cells x (final_state A tol (seq 0 m) (init_state n r0 beta)))
    | Exhausted st rv =>
        match lstsq m (st_H st) (st_g st) with
        | Some y =>
            (Ok ((length h + 6)%nat, rv),
             h ++ (cells x st ++ [Vec (vadd x (mat_dot n (st_V st) m y))]))
        | None => (Raise LinAlgError, h ++ cells x st)
        end
    end.
Proof.
  intros Hb Hx0. unfold gmres_h. cbv zeta.
  unfold bind at 1. rewrite (get_vec_ok _ _ _ Hb).
  unfold bind at 1. rewrite (new_guess_ok _ (length b) _ _ Hx0).
  set (x := initial_guess (length b) x0).
  unfold bind at 1. unfold get_vec at 1. unfold bind at 1. rewrite get_app.
  cbn [nth_error]. unfold ret at 1.
  destruct (seqb _ s0); [reflexivity|].
  destruct (Z.ltb _ 0); [reflexivity|].
  set (r0 := vsub b (A x)). set (beta := norm r0).
  unfold bind at 1. rewrite new_app. cbn [length app Nat.add].
  unfold bind at 1. rewrite new_app. cbn [length app Nat.add].
  unfold bind at 1. unfold get_basis at 1. unfold bind at 1. rewrite get_app.
  cbn [nth_error]. unfold ret at 1.
  unfold bind at 1. rewrite put_app. cbn [store].
  unfold bind at 1. rewrite new_app. cbn [length app Nat.add].
  unfold bind at 1. rewrite new_app. cbn [length app Nat.add].
  unfold bind at 1. rewrite new_app. cbn [length app Nat.add].
  unfold bind at 1. unfold get_arr at 1. unfold bind at 1. rewrite get_app.
  cbn [nth_error]. unfold ret at 1.
  unfold bind at 1. rewrite put_app. cbn [store].
  unfold bind at 1.
  change (mk_refs (length h + 1) (length h + 2) (length h + 3)
                  (length h + 4) (length h + 5))
    with (loop_refs (length h)).
  match goal with
  | |- context [gmres_loop_h ?A ?n ?xr ?tol ?js ?rs ?rv (h ++ ?l)] =>
      change l with (cells x (init_state (length b) r0 beta))
  end.
  rewrite gmres_loop_h_spec.
  destruct (gmres_loop _ _ _ _ _ _ _) as [[[x' rv]|e]|st' rv]; try reflexivity.
  unfold bind at 1.
  rewrite <- (app_nil_r (cells x st')). rewrite get_state_cells.
  destruct (lstsq _ _ _) as [y|]; [|now rewrite app_nil_r].
  unfold bind at 1. rewrite get_vec_cells. rewrite app_nil_r.
  unfold bind at 1. rewrite new_app. reflexivity.
Qed.

Lemma nth_error_fresh (h l : heap F) k :
  nth_error (h ++ l) (length h + k) = nth_error l k.
Proof.
  rewrite nth_error_app2 by lia. f_equal. lia.
Qed.

Lemma gmres_h_simulation (A : operator) br x0r tol maxiter (h : heap F) b x0 :
  nth_error h br = Some (Vec b) ->
  denotes h x0r x0 ->
  exists fresh,
    snd (gmres_h lstsq A br x0r tol maxiter h) = h ++ fresh /\
    match gmres lstsq A b x0 tol maxiter with
    | Ok (x, rv) =>
        exists xr,
          fst (gmres_h lstsq A br x0r tol maxiter h) = Ok (xr, rv) /\
          nth_error (h ++ fresh) xr = Some (Vec x) /\
          (length h <= xr)%nat
    | Raise e => fst (gmres_h lstsq A br x0r tol maxiter h) = Raise e
    end.
Proof.
  intros Hb Hx0. rewrite (gmres_h_run _ _ _ _ _ _ _ _ Hb Hx0). unfold gmres.
  cbv zeta.
  destruct (seqb _ s0).
  - eexists. split; [reflexivity|]. eexists. split; [reflexivity|].
    split; [|lia]. now rewrite nth_error_fresh.
  - destruct (Z.ltb _ 0).
    + eexists. split; reflexivity.
    + destruct (gmres_loop _ _ _ _ _ _ _) as [[[x' rv]|e]|st' rv].
      * eexists. split; [reflexivity|]. eexists. split; [reflexivity|].
        split; [|lia]. now rewrite nth_error_fresh.
      * eexists. split; reflexivity.
      * destruct (lstsq _ _ _) as [y|].
        -- eexists. split; [reflexivity|]. eexists. split; [reflexivity|].
           split; [|lia]. now rewrite nth_error_fresh.
        -- eexists. split; reflexivity.
Qed.

(** [gmres_h] only extends the store, and computes what [gmres] computes:
    the same history, a new array holding the same solution, the same
    exception. *)
Theorem gmres_h_refines_gmres (A : operator) br x0r tol maxiter (h : heap F) b x0 :
  nth_error h br = Some (Vec b) ->
  denotes h x0r x0 ->
  exists fresh,
    snd (gmres_h lstsq A br x0r tol maxiter h) = h ++ fresh /\
    match gmres lstsq A b x0 tol maxiter with
    | Ok (x, rv) =>
        exists xr,
          fst (gmres_h lstsq A br x0r tol maxiter h) = Ok (xr, rv) /\
          nth_error (h ++ fresh) xr = Some (Vec x) /\
          (length h <= xr)%nat
    | Raise e => fst (gmres_h lstsq A br x0r tol maxiter h) = Raise e
    end.
Proof. exact (gmres_h_simulation A br x0r tol maxiter h b x0). Qed.

(** Whatever the references, [gmres_h] only extends the store. *)
Lemma gmres_h_extends (A : operator) br x0r tol maxiter (h : heap F) :
  exists fresh, snd (gmres_h lstsq A br x0r tol maxiter h) = h ++ fresh.
Proof.
  destruct (nth_error h br) as [[b|V|M|a]|] eqn:Hb;
    try (exists []; rewrite app_nil_r; unfold gmres_h, bind, get_vec, bind, get;
         rewrite Hb; reflexivity).
  destruct x0r as [r|].
  - destruct (nth_error h r) as [[x0|V|M|a]|] eqn:Hr;
      try (exists []; rewrite app_nil_r;
           unfold gmres_h, bind, get_vec, bind, get, new_guess, bind, get_vec, bind, get;
           rewrite Hb; cbn [ret]; rewrite Hr; reflexivity).
    destruct (gmres_h_simulation A br (Some r) tol maxiter h b (Some x0) Hb Hr)
      as (fresh & Hfresh & _).
    now exists fresh.
  - destruct (gmres_h_simulation A br None tol maxiter h b None Hb I)
      as (fresh & Hfresh & _).
    now exists fresh.
Qed.


Lemma restart_loop_h_extends (A : operator) br m tol cycles :
  forall (h : heap F) xr residuals,
    exists fresh,
      snd (restart_loop_h lstsq A br m tol cycles xr residuals h) = h ++ fresh.
Proof.
  induction cycles as [|cycle cycles IH]; intros h xr residuals.
  - exists []. simpl. now rewrite app_nil_r.
  - cbn [restart_loop_h]. unfold bind.
    destruct (gmres_h_extends A br (Some xr) tol (Some m) h) as [fresh1 Hfresh1].
    destruct (gmres_h lstsq A br (Some xr) tol (Some m) h) as [[out|e] h1].
    + simpl in Hfresh1. subst h1.
      destruct (last_entry _) as [r|]; [|now exists fresh1].
      destruct (sleb r tol); [now exists fresh1|].
      destruct (IH (h ++ fresh1) (fst out)
                   (if Nat.eqb cycle 0 then residuals ++ snd out
                    else residuals ++ tl (snd out))) as [fresh2 Hfresh2].
      exists (fresh1 ++ fresh2). now rewrite Hfresh2, app_assoc.
    + now exists fresh1.
Qed.

Lemma gmres_restart_h_extends (A : operator) br x0r m tol maxcycles (h : heap F) :
  exists fresh,
    snd (gmres_restart_h lstsq A br x0r m tol maxcycles h) = h ++ fresh.
Proof.
  unfold gmres_restart_h. unfold bind at 1.
  assert (Hnew :
    (exists v, (match x0r with
                | Some r => x0 <- get_vec r;; new (Vec x0)
                | None => b <- get_vec br;; new (Vec (zeros (length b)))
                end) h = (Ok (length h), h ++ [Vec v])) \/
    (exists e, (match x0r with
                | Some r => x0 <- get_vec r;; new (Vec x0)
                | None => b <- get_vec br;; new (Vec (zeros (length b)))
                end) h = (Raise e, h))).
  { destruct x0r as [r|]; unfold bind, get_vec, bind, get.
    - destruct (nth_error h r) as [[v|V|M|a]|];
        first [left; eexists; reflexivity | right; eexists; reflexivity].
    - destruct (nth_error h br) as [[v|V|M|a]|];
        first [left; eexists; reflexivity | right; eexists; reflexivity]. }
  destruct Hnew as [[v ->]|[e ->]].
  - destruct (restart_loop_h_extends A br m tol (seq 0 (Z.to_nat maxcycles))
                (h ++ [Vec v]) (length h) []) as [fresh Hfresh].
    exists ([Vec v] ++ fresh). now rewrite Hfresh, app_assoc.
  - exists []. now rewrite app_nil_r.
Qed.

Lemma restart_loop_h_spec (A : operator) br m tol b cycles :
  forall (h : heap F) xr x residuals,
    nth_error h br = Some (Vec b) ->
    nth_error h xr = Some (Vec x) ->
    exists fresh,
      snd (restart_loop_h lstsq A br m tol cycles xr residuals h) = h ++ fresh /\
      match restart_loop lstsq A b m tol cycles x residuals with
      | Ok (x', rs) =>
          exists xr',
            fst (restart_loop_h lstsq A br m tol cycles xr residuals h) =
              Ok (xr', rs) /\
            nth_error (h ++ fresh) xr' = Some (Vec x')
      | Raise e =>
          fst (restart_loop_h lstsq A br m tol cycles xr residuals h) = Raise e
      end.
Proof.
  induction cycles as [|cycle cycles IH]; intros h xr x residuals Hb Hx.
  - exists []. simpl. rewrite app_nil_r. split; [reflexivity|].
    exists xr. now split.
  - cbn [restart_loop_h restart_loop]. unfold bind.
    destruct (gmres_h_simulation A br (Some xr) tol (Some m) h b (Some x) Hb Hx)
      as (fresh1 & Hfresh1 & Hres).
    destruct (gmres_h lstsq A br (Some xr) tol (Some m) h) as [[out|e] h1].
    + simpl in Hfresh1. subst h1. simpl fst in Hres.
      destruct (gmres lstsq A b (Some x) tol (Some m)) as [[x1 rv]|e];
        [|discriminate].
      destruct Hres as (xr1 & [= ->] & Hx1 & _). cbn [fst snd].
      set (residuals' := if Nat.eqb cycle 0 then residuals ++ rv
                         else residuals ++ tl rv).
      destruct (last_entry residuals') as [r|].
      * destruct (sleb r tol).
        -- exists fresh1. split; [reflexivity|]. exists xr1. now split.
        -- destruct (IH (h ++ fresh1) xr1 x1 residuals') as (fresh2 & Hfresh2 & Hres2).
           { rewrite nth_error_app1; [exact Hb|].
             apply nth_error_Some. now rewrite Hb. }
           { exact Hx1. }
           exists (fresh1 ++ fresh2). rewrite app_assoc.
           split; [exact Hfresh2|exact Hres2].
      * exists fresh1. split; reflexivity.
    + simpl in Hfresh1. subst h1. simpl fst in Hres.
      destruct (gmres lstsq A b (Some x) tol (Some m)) as [[x1 rv]|e'].
      * destruct Hres as (xr1 & Habs & _). discriminate.
      * injection Hres as ->. exists fresh1. split; reflexivity.
Qed.

Lemma gmres_restart_h_run (A : operator) br x0r m tol maxcycles (h : heap F) b x0 :
  nth_error h br = Some (Vec b) ->
  denotes h x0r x0 ->
  gmres_restart_h lstsq A br x0r m tol maxcycles h =
  restart_loop_h lstsq A br m tol (seq 0 (Z.to_nat maxcycles)) (length h) []
                 (h ++ [Vec (initial_guess (length b) x0)]).
Proof.
  intros Hb Hx0. unfold gmres_restart_h. unfold bind at 1.
  unfold denotes in Hx0. destruct x0r as [r|], x0 as [v|]; try contradiction.
  - unfold bind. now rewrite (get_vec_ok _ _ _ Hx0).
  - unfold bind. now rewrite (get_vec_ok _ _ _ Hb).
Qed.

(** [gmres_restart_h] only extends the store, and computes what
    [gmres_restart] computes. *)
Theorem gmres_restart_h_refines_gmres_restart (A : operator) br x0r m tol maxcycles (h : heap F) b x0 :
  nth_error h br = Some (Vec b) ->
  denotes h x0r x0 ->
  exists fresh,
    snd (gmres_restart_h lstsq A br x0r m tol maxcycles h) = h ++ fresh /\
    match gmres_restart lstsq A b x0 m tol maxcycles with
    | Ok (x, rs) =>
        exists xr,
          fst (gmres_restart_h lstsq A br x0r m tol maxcycles h) = Ok (xr, rs) /\
          nth_error (h ++ fresh) xr = Some (Vec x)
    | Raise e => fst (gmres_restart_h lstsq A br x0r m tol maxcycles h) = Raise e
    end.
Proof.
  intros Hb Hx0. rewrite (gmres_restart_h_run _ _ _ _ _ _ _ _ _ Hb Hx0).
  unfold gmres_restart.
  destruct (restart_loop_h_spec A br m tol b (seq 0 (Z.to_nat maxcycles))
              (h ++ [Vec (initial_guess (length b) x0)]) (length h)
              (initial_guess (length b) x0) [])
    as (fresh & Hfresh & Hres).
  { rewrite nth_error_app1; [exact Hb|]. apply nth_error_Some. now rewrite Hb. }
  { rewrite nth_error_app2 by lia. now rewrite Nat.sub_diag. }
  exists ([Vec (initial_guess (length b) x0)] ++ fresh). rewrite app_assoc.
  split; [exact Hfresh|exact Hres].
Qed.

(** C9: a call of either solver leaves every array that exists when it is
    made as it is, among them the arrays passed as [b] and as [x0]: the
    store after the call is the store before it, extended by the arrays the
    call created ([gmres_h_extends], [gmres_restart_h_extends]).  The
    solvers read [b], copy [x0] into a new array, write by index only into
    arrays they allocated, and bind [x] to a new array for the result. *)
Theorem solvers_leave_existing_arrays_unchanged
    (A : operator) (br : nat) (x0r : option nat) (tol : F) (maxiter : option Z)
    (m maxcycles : Z) (h : heap F) (r : nat) (o : ndarray F) :
  nth_error h r = Some o ->
  nth_error (snd (gmres_h lstsq A br x0r tol maxiter h)) r = Some o /\
  nth_error (snd (gmres_restart_h lstsq A br x0r m tol maxcycles h)) r = Some o.
Proof.
  intros Hr.
  assert (Hlt : (r < length h)%nat) by (apply nth_error_Some; now rewrite Hr).
  destruct (gmres_h_extends A br x0r tol maxiter h) as [fresh1 ->].
  destruct (gmres_restart_h_extends A br x0r m tol maxcycles h) as [fresh2 ->].
  now rewrite !nth_error_app1 by exact Hlt.
Qed.

End WithLstsq.
End StoreFacts.

(** ** The history of the restarted solver *)

Section RestartStructure.
Context {F : Type} `{Scalar F}.
Variable lstsq : nat -> (nat -> nat -> F) -> (nat -> F) -> option (list F).

Lemma appended_cons (c : nat) (rv : list F) (hs : list (list F)) :
  appended c (rv :: hs) =
  (if Nat.eqb c 0 then rv else tl rv) ++ appended (S c) hs.
Proof. unfold appended. destruct (Nat.eqb c 0); reflexivity. Qed.

(** A run of the restart loop from cycle [c] that returns has executed
    [k] cycles, [k] at most the number of cycles left and at least one if
    there is one; it appended the history of cycle 0 whole and those of the
    later cycles without their first entries; after each cycle but the last
    the last entry of the running history was not [<= tol]; and if cycles
    were left over, the last entry of the result is [<= tol]. *)
Lemma restart_loop_trace (A : operator) (b : list F) (m : Z) (tol : F) (n : nat) :
  forall (c : nat) (x residuals x' rs : list F),
    restart_loop lstsq A b m tol (seq c n) x residuals = Ok (x', rs) ->
    exists (k : nat) (hs : list (list F)),
      (k <= n)%nat /\ ((0 < n)%nat -> (1 <= k)%nat) /\
      run_cycles lstsq A b m tol k x = Ok (x', hs) /\
      length hs = k /\
      rs = residuals ++ appended c hs /\
      (forall k', (1 <= k' < k)%nat ->
         exists r, last_entry (residuals ++ appended c (firstn k' hs)) = Some r /\
                   sleb r tol = false) /\
      ((k < n)%nat -> exists r, last_entry rs = Some r /\ sleb r tol = true).
Proof.
  induction n as [|n IH]; intros c x residuals x' rs Hrun.
  - simpl in Hrun. injection Hrun as <- <-.
    exists 0%nat, []. unfold appended, stitch, drop_firsts.
    destruct (Nat.eqb c 0); simpl; rewrite app_nil_r;
      split_and; try reflexivity; try lia; intros; lia.
  - cbn [seq restart_loop] in Hrun.
    destruct (gmres lstsq A b (Some x) tol (Some m)) as [[x1 rv]|e] eqn:Hg;
      [|discriminate].
    set (residuals' := if Nat.eqb c 0 then residuals ++ rv
                       else residuals ++ tl rv) in *.
    assert (Hres' : residuals' = residuals ++ (if Nat.eqb c 0 then rv else tl rv)).
    { unfold residuals'. destruct (Nat.eqb c 0); reflexivity. }
    destruct (last_entry residuals') as [r|] eqn:Hlast; [|discriminate].
    destruct (sleb r tol) eqn:Hle.
    + injection Hrun as <- <-.
      exists 1%nat, [rv]. cbn [run_cycles]. rewrite Hg.
      rewrite appended_cons. unfold appended at 1, drop_firsts; simpl concat.
      replace ((if Nat.eqb (S c) 0 then stitch [] else [])) with (@nil F)
        by reflexivity.
      rewrite app_nil_r, <- Hres'.
      split_and; try reflexivity; try lia.
      intros _. exists r. now split.
    + destruct (IH (S c) x1 residuals' x' rs Hrun)
        as (k & hs & Hk & Hk1 & Hcycles & Hlen & Hrs & Hearly & Hstop).
      exists (S k), (rv :: hs). cbn [run_cycles]. rewrite Hg, Hcycles.
      rewrite appended_cons, app_assoc, <- Hres'.
      split_and; try reflexivity; try lia.
      * simpl. now rewrite Hlen.
      * exact Hrs.
      * intros k' Hk'. destruct k' as [|k'']; [lia|].
        cbn [firstn]. rewrite appended_cons, app_assoc, <- Hres'.
        destruct k'' as [|k''].
        -- exists r. cbn [firstn]. unfold appended, stitch, drop_firsts.
           simpl. rewrite app_nil_r. now split.
        -- apply Hearly. lia.
      * intros Hlt. apply Hstop. lia.
Qed.

(** The residual history of [gmres_restart] with at least one cycle: the
    inner solver's history of cycle 0, followed by the histories of the
    later executed cycles without their first entries; the loop goes on to
    the next cycle exactly when the last entry of the running history is not
    [<= tol]. *)
Theorem gmres_restart_history (A : operator) (b : list F) (x0 : option (list F))
    (m : Z) (tol : F) (maxcycles : Z) (x rs : list F) :
  (0 < maxcycles)%Z ->
  gmres_restart lstsq A b x0 m tol maxcycles = Ok (x, rs) ->
  exists (k : nat) (hs : list (list F)),
    (1 <= k <= Z.to_nat maxcycles)%nat /\
    run_cycles lstsq A b m tol k (initial_guess (length b) x0) = Ok (x, hs) /\
    length hs = k /\
    rs = stitch hs /\
    (forall k', (1 <= k' < k)%nat ->
       exists r, last_entry (stitch (firstn k' hs)) = Some r /\ sleb r tol = false) /\
    ((k < Z.to_nat maxcycles)%nat ->
       exists r, last_entry rs = Some r /\ sleb r tol = true).
Proof.
  intros Hpos Hrun. unfold gmres_restart in Hrun.
  destruct (restart_loop_trace A b m tol _ _ _ _ _ _ Hrun)
    as (k & hs & Hk & Hk1 & Hcycles & Hlen & Hrs & Hearly & Hstop).
  exists k, hs. simpl in Hrs, Hearly.
  split_and; try assumption; try lia.
Qed.

End RestartStructure.
(** ** The Givens helper in exact arithmetic *)

Section GivensExact.
Local Open Scope R_scope.

Lemma R_seqb (x y : R) : @seqb R _ x y = if Req_dec_T x y then true else false.
Proof. reflexivity. Qed.

Lemma R_seqb_true (x y : R) : x = y -> @seqb R _ x y = true.
Proof. intros ->. rewrite R_seqb. destruct (Req_dec_T y y); congruence. Qed.

Lemma R_seqb_false (x y : R) : x <> y -> @seqb R _ x y = false.
Proof. intros Hne. rewrite R_seqb. destruct (Req_dec_T x y); congruence. Qed.

Lemma R_sleb_true (x y : R) : x <= y -> @sleb R _ x y = true.
Proof. intros Hle. simpl. destruct (Rle_dec x y); [reflexivity|contradiction]. Qed.

Lemma R_sleb_false (x y : R) : y < x -> @sleb R _ x y = false.
Proof. intros Hlt. simpl. destruct (Rle_dec x y); [lra|reflexivity]. Qed.

Lemma R_sgtb_true (x y : R) : y < x -> @sgtb R _ x y = true.
Proof. intros Hlt. unfold sgtb. simpl. destruct (Rlt_dec y x); [reflexivity|contradiction]. Qed.

Lemma R_sgtb_false (x y : R) : x <= y -> @sgtb R _ x y = false.
Proof. intros Hle. unfold sgtb. simpl. destruct (Rlt_dec y x); [lra|reflexivity]. Qed.

(** The two branches of [givens_rotation] for [b != 0], with the scalar
    operations read as operations on [R]. *)
Lemma givens_rotation_steep (a b : R) :
  b <> 0 -> Rabs a < Rabs b ->
  givens_rotation a b =
  (1 / sqrt (1 + (- a / b) * (- a / b)) * (- a / b),
   1 / sqrt (1 + (- a / b) * (- a / b))).
Proof.
  intros Hb Hab. unfold givens_rotation. scalar_R.
  rewrite (R_seqb_false _ _ Hb), (R_sgtb_true _ _ Hab). reflexivity.
Qed.

Lemma givens_rotation_flat (a b : R) :
  b <> 0 -> Rabs b <= Rabs a ->
  givens_rotation a b =
  (1 / sqrt (1 + (- b / a) * (- b / a)),
   1 / sqrt (1 + (- b / a) * (- b / a)) * (- b / a)).
Proof.
  intros Hb Hab. unfold givens_rotation. scalar_R.
  rewrite (R_seqb_false _ _ Hb), (R_sgtb_false _ _ Hab). reflexivity.
Qed.

Lemma givens_rotation_b_zero (a : R) : givens_rotation a 0 = (1, 0).
Proof. unfold givens_rotation. scalar_R. rewrite R_seqb_true; reflexivity. Qed.

Lemma unit_circle (t d : R) :
  0 < d -> d * d = 1 + t * t ->
  (1 / d * t) * (1 / d * t) + (1 / d) * (1 / d) = 1.
Proof.
  intros Hpos Hsq.
  replace ((1 / d * t) * (1 / d * t) + (1 / d) * (1 / d))
    with ((1 + t * t) / (d * d)) by (field; lra).
  rewrite Hsq. field. nra.
Qed.

Lemma sqrt_one_plus_square (t : R) :
  0 < sqrt (1 + t * t) /\ sqrt (1 + t * t) * sqrt (1 + t * t) = 1 + t * t.
Proof.
  split.
  - apply sqrt_lt_R0. nra.
  - apply sqrt_sqrt. nra.
Qed.

(** The pair returned is always on the unit circle: [c^2 + s^2 = 1]. *)
Theorem givens_rotation_unit (a b : R) :
  fst (givens_rotation a b) * fst (givens_rotation a b) +
  snd (givens_rotation a b) * snd (givens_rotation a b) = 1.
Proof.
  destruct (Req_dec_T b 0) as [->|Hb].
  - rewrite givens_rotation_b_zero. simpl. lra.
  - destruct (Rlt_dec (Rabs a) (Rabs b)) as [Hab|Hab].
    + rewrite (givens_rotation_steep _ _ Hb Hab). simpl.
      destruct (sqrt_one_plus_square (- a / b)) as [Hpos Hsq].
      apply unit_circle; assumption.
    + apply Rnot_lt_le in Hab.
      rewrite (givens_rotation_flat _ _ Hb Hab). simpl.
      destruct (sqrt_one_plus_square (- b / a)) as [Hpos Hsq].
      rewrite Rplus_comm. apply unit_circle; assumption.
Qed.

(** What the returned pair eliminates: the second component of
    [[c, -s], [s, c]] @ [a, b], the transpose of the documented matrix. *)
Lemma givens_rotation_eliminates_transposed (a b : R) :
  snd (givens_rotation a b) * a + fst (givens_rotation a b) * b = 0.
Proof.
  destruct (Req_dec_T b 0) as [->|Hb].
  - rewrite givens_rotation_b_zero. simpl. lra.
  - destruct (Rlt_dec (Rabs a) (Rabs b)) as [Hab|Hab].
    + rewrite (givens_rotation_steep _ _ Hb Hab). simpl.
      destruct (sqrt_one_plus_square (- a / b)) as [Hpos Hsq].
      set (d := sqrt _) in *. field. split; lra.
    + apply Rnot_lt_le in Hab.
      assert (Ha : a <> 0).
      { intros ->. rewrite Rabs_R0 in Hab.
        pose proof (Rabs_pos_lt b Hb). lra. }
      rewrite (givens_rotation_flat _ _ Hb Hab). simpl.
      destruct (sqrt_one_plus_square (- b / a)) as [Hpos Hsq].
      set (d := sqrt _) in *. field. split; lra.
Qed.

(** With the documented matrix [[c, s], [-s, c]] the second component is
    [2 * c * b] instead of zero. *)
Theorem givens_rotation_second_component (a b : R) :
  rotated_second (givens_rotation a b) a b =
  2 * (fst (givens_rotation a b) * b).
Proof.
  unfold rotated_second. simpl.
  pose proof (givens_rotation_eliminates_transposed a b). lra.
Qed.

(** [givens_rotation(a, 0.0)] is [(1.0, 0.0)] for every [a], zero included. *)
Theorem givens_rotation_zero_second_argument (a : R) :
  givens_rotation a 0 = (1, 0) /\ givens_rotation 0 0 = (1, 0).
Proof. split; apply givens_rotation_b_zero. Qed.

Lemma sqrt_of_square (q x : R) : 0 <= q -> q * q = x -> sqrt x = q.
Proof. intros Hq <-. apply sqrt_square, Hq. Qed.

Lemma givens_rotation_3_4 : givens_rotation 3 4 = (- (3 / 5), 4 / 5).
Proof.
  rewrite givens_rotation_steep.
  - rewrite (sqrt_of_square (5 / 4)) by lra. f_equal; field.
  - lra.
  - rewrite !Rabs_pos_eq; lra.
Qed.

End GivensExact.

(** ** The solver on the concrete inputs, in exact arithmetic *)

Section RunA2.
Local Open Scope R_scope.

Lemma tol_default_bounds : 0 < tol_default < 1 / 2.
Proof. unfold tol_default. lra. Qed.

Lemma A2_r0 : vsub b2 (A2 (zeros 2)) = [1; 0].
Proof. eval_R. vec_R. Qed.

Lemma norm_1_0 : norm [1; 0] = 1.
Proof. eval_R. apply sqrt_of_square; lra. Qed.

Lemma norm_0_12 : norm [0; 12] = 12.
Proof. eval_R. apply sqrt_of_square; lra. Qed.

Lemma norm_0_0 : norm [0; 0] = 0.
Proof. eval_R. apply sqrt_of_square; lra. Qed.

Lemma givens_rotation_9_12 : givens_rotation 9 12 = (- (3 / 5), 4 / 5).
Proof.
  rewrite givens_rotation_steep.
  - rewrite (sqrt_of_square (5 / 4)) by lra. f_equal; field.
  - lra.
  - rewrite !Rabs_pos_eq; lra.
Qed.

(** First pass, [j = 0]. *)
Lemma A2_w0 : arnoldi_w A2 0 A2_st0 = [0; 12].
Proof. eval_R. vec_R. Qed.

Lemma A2_H0 :
  arnoldi_H A2 0 A2_st0 = upd2 (upd2 (fun _ _ => 0) 0%nat 0%nat 9) 1%nat 0%nat 12.
Proof.
  unfold arnoldi_H. rewrite A2_w0, norm_0_12.
  extensionality r. extensionality c.
  destruct r as [|[|r]]; destruct c as [|c]; eval_R; try reflexivity; lra.
Qed.

Lemma A2_V0 : arnoldi_V A2 0 A2_st0 = A2_V.
Proof.
  unfold arnoldi_V. rewrite A2_H0, A2_w0. unfold sneb.
  change (upd2 _ 1%nat 0%nat 12 (0 + 1)%nat 0%nat) with 12.
  rewrite R_seqb_false by (scalar_R; lra). cbn [negb].
  extensionality k. destruct k as [|[|k]]; eval_R; vec_R.
Qed.

Lemma A2_rotH0 :
  rotated_H A2 0 A2_st0 = upd2 (upd2 (fun _ _ => 0) 0%nat 0%nat 9) 1%nat 0%nat 12.
Proof. unfold rotated_H. rewrite A2_H0. reflexivity. Qed.

Lemma A2_rot0 : step_rotation A2 0 A2_st0 = (- (3 / 5), 4 / 5).
Proof.
  unfold step_rotation. rewrite A2_rotH0. exact givens_rotation_9_12.
Qed.

Lemma A2_step0 : arnoldi_step A2 0 A2_st0 = (A2_st1, 4 / 5).
Proof.
  unfold arnoldi_step. rewrite A2_rot0, A2_rotH0, A2_V0.
  cbv beta iota zeta delta [fst snd]. f_equal.
  - unfold A2_st1. f_equal.
    + extensionality r; extensionality c.
      destruct r as [|[|r]]; destruct c as [|c]; eval_R; try reflexivity; lra.
    + extensionality k.
      destruct k as [|[|k]]; eval_R; try reflexivity; lra.
  - eval_R. replace (- (4 / 5) * 1 + - (3 / 5) * 0) with (- (4 / 5)) by lra.
    rewrite Rabs_left by lra. lra.
Qed.

(** Second pass, [j = 1]: the Krylov space is exhausted, [w] is zero. *)
Lemma A2_w1 : arnoldi_w A2 1 A2_st1 = [0; 0].
Proof. eval_R. vec_R. Qed.

Lemma A2_H1_expand :
  arnoldi_H A2 1 A2_st1 = upd2 (upd2 A2_H1 0%nat 1%nat 0) 1%nat 1%nat (- 7).
Proof.
  unfold arnoldi_H. rewrite A2_w1, norm_0_0.
  extensionality r. extensionality c.
  destruct r as [|[|[|r]]]; destruct c as [|[|c]]; eval_R; try reflexivity; lra.
Qed.

Lemma A2_V1 : arnoldi_V A2 1 A2_st1 = A2_V.
Proof.
  unfold arnoldi_V. rewrite A2_H1_expand. unfold sneb.
  change (upd2 _ 1%nat 1%nat (- 7) (1 + 1)%nat 1%nat) with 0.
  rewrite R_seqb_true by reflexivity. reflexivity.
Qed.

Lemma A2_rotH1 : rotated_H A2 1 A2_st1 = A2_H2.
Proof.
  unfold rotated_H. rewrite A2_H1_expand.
  extensionality r. extensionality c.
  destruct r as [|[|[|r]]]; destruct c as [|[|c]]; eval_R; try reflexivity; lra.
Qed.

Lemma A2_rot1 : step_rotation A2 1 A2_st1 = (1, 0).
Proof.
  unfold step_rotation. rewrite A2_rotH1.
  change (givens_rotation (21 / 5) 0 = (1, 0)). apply givens_rotation_b_zero.
Qed.

Lemma A2_step1 : arnoldi_step A2 1 A2_st1 = (A2_st2, 0).
Proof.
  unfold arnoldi_step. rewrite A2_rot1, A2_rotH1, A2_V1.
  cbv beta iota zeta delta [fst snd]. f_equal.
  - unfold A2_st2. f_equal.
    + extensionality r; extensionality c.
      destruct r as [|[|[|r]]]; destruct c as [|[|c]]; eval_R; try reflexivity; lra.
    + extensionality k.
      destruct k as [|[|[|k]]]; eval_R; try reflexivity; lra.
  - eval_R. replace (- 0 * - (4 / 5) + 1 * 0) with 0 by lra. apply Rabs_R0.
Qed.

Lemma A2_solve : solve A2_H2 A2_g 2 = Some A2_x.
Proof.
  unfold solve. cbn [back_substitute Nat.sub].
  cbv beta iota zeta delta [A2_H2 A2_H1 A2_g upd upd2 Nat.eqb andb row_sum].
  rewrite !R_seqb_false by (scalar_R; lra).
  scalar_R. unfold A2_x. f_equal. vec_R.
Qed.

(** The loop of [gmres(A2, b2)] with the default tolerance. *)
Lemma A2_loop_first_pass (x : list R) :
  gmres_loop A2 2 x tol_default [0%nat] A2_st0 [1] = Exhausted A2_st1 [1; 4 / 5].
Proof.
  cbn [gmres_loop]. rewrite A2_step0. cbn [fst snd].
  pose proof tol_default_bounds.
  rewrite R_sleb_false by lra. reflexivity.
Qed.

Lemma A2_loop :
  gmres_loop A2 2 (zeros 2) tol_default [0%nat; 1%nat] A2_st0 [1] =
  Returned (Ok (A2_x, [1; 4 / 5; 0])).
Proof.
  cbn [gmres_loop]. rewrite A2_step0. cbn [fst snd].
  pose proof tol_default_bounds.
  rewrite R_sleb_false by lra.
  rewrite A2_step1. cbn [fst snd].
  rewrite R_sleb_true by lra.
  cbn [st_H st_g st_V A2_st2]. change (1 + 1)%nat with 2%nat. rewrite A2_solve.
  do 3 f_equal. eval_R. vec_R.
Qed.

Lemma A2_gmres lstsq :
  gmres lstsq A2 b2 None tol_default None = Ok (A2_x, [1; 4 / 5; 0]).
Proof.
  unfold gmres. change (length b2) with 2%nat. cbv zeta. unfold initial_guess, max_steps.
  rewrite A2_r0, norm_1_0.
  rewrite R_seqb_false by (scalar_R; lra).
  change (Z.of_nat 2 <? 0)%Z with false. cbv iota.
  change (seq 0 (Z.to_nat (Z.of_nat 2))) with [0%nat; 1%nat].
  fold A2_st0. rewrite A2_loop. reflexivity.
Qed.

Lemma A2_true_residual : norm (vsub b2 (A2 A2_x)) = 40 / 7.
Proof. eval_R. apply sqrt_of_square; lra. Qed.

End RunA2.

Section RestartA2.
Local Open Scope R_scope.

(** The least-squares routine is only assumed to solve a nonsingular 1 by 1
    system. *)
Variable lstsq : nat -> (nat -> nat -> R) -> (nat -> R) -> option (list R).
Hypothesis lstsq_1x1_exact :
  forall M rhs, M 0%nat 0%nat <> 0 -> lstsq 1%nat M rhs = Some [rhs 0%nat / M 0%nat 0%nat].

(** First cycle: one Arnoldi step from the zero guess, then the
    least-squares solve. *)
Lemma A2_cycle0 :
  gmres lstsq A2 b2 (Some (zeros 2)) tol_default (Some 1%Z) =
  Ok (A2_x1, [1; 4 / 5]).
Proof.
  unfold gmres. change (length b2) with 2%nat. cbv zeta. unfold initial_guess, max_steps.
  rewrite A2_r0, norm_1_0.
  rewrite R_seqb_false by (scalar_R; lra).
  change (1 <? 0)%Z with false. cbv iota.
  change (Z.to_nat 1) with 1%nat. change (seq 0 1) with [0%nat].
  fold A2_st0. rewrite A2_loop_first_pass.
  rewrite lstsq_1x1_exact by (eval_R; lra).
  do 2 f_equal. eval_R. vec_R.
Qed.

(** Second cycle, from [A2_x1]. *)
Lemma A2_r1_eq : vsub b2 (A2 A2_x1) = A2_r1.
Proof. eval_R. vec_R. Qed.

Lemma A2_norm_r1 : norm A2_r1 = 20 / 7.
Proof. eval_R. apply sqrt_of_square; lra. Qed.

Lemma A2_c1_w0 : arnoldi_w A2 0 A2_c1_st0 = [0; 0].
Proof. eval_R. vec_R. Qed.

Lemma A2_c1_H0 : arnoldi_H A2 0 A2_c1_st0 = upd2 (fun _ _ => 0) 0%nat 0%nat 9.
Proof.
  unfold arnoldi_H. rewrite A2_c1_w0, norm_0_0.
  extensionality r. extensionality c.
  destruct r as [|[|r]]; destruct c as [|c]; eval_R; try reflexivity; try lra;
    field.
Qed.

Lemma A2_c1_V0 : arnoldi_V A2 0 A2_c1_st0 = st_V A2_c1_st1.
Proof.
  unfold arnoldi_V. rewrite A2_c1_H0. unfold sneb.
  change (upd2 _ 0%nat 0%nat 9 (0 + 1)%nat 0%nat) with 0.
  rewrite R_seqb_true by reflexivity. cbn [negb].
  extensionality k. destruct k as [|k]; eval_R; vec_R.
Qed.

Lemma A2_c1_rot0 : step_rotation A2 0 A2_c1_st0 = (1, 0).
Proof.
  unfold step_rotation, rotated_H. rewrite A2_c1_H0.
  change (givens_rotation 9 0 = (1, 0)). apply givens_rotation_b_zero.
Qed.

Lemma A2_c1_step0 : arnoldi_step A2 0 A2_c1_st0 = (A2_c1_st1, 0).
Proof.
  unfold arnoldi_step. rewrite A2_c1_rot0, A2_c1_V0.
  unfold rotated_H. rewrite A2_c1_H0.
  cbv beta iota zeta delta [fst snd]. f_equal.
  - unfold A2_c1_st1. cbn [st_V]. f_equal.
    + extensionality r; extensionality c.
      destruct r as [|[|r]]; destruct c as [|c]; eval_R; try reflexivity; lra.
    + extensionality k. destruct k as [|k]; eval_R; reflexivity.
    + extensionality k.
      destruct k as [|[|k]]; eval_R; try reflexivity; lra.
  - eval_R. replace (- 0 * (20 / 7) + 1 * 0) with 0 by lra. apply Rabs_R0.
Qed.

Lemma A2_cycle1 :
  gmres lstsq A2 b2 (Some A2_x1) tol_default (Some 1%Z) =
  Ok ([1 / 9; 4 / 21], [20 / 7; 0]).
Proof.
  unfold gmres. change (length b2) with 2%nat. cbv zeta. unfold initial_guess, max_steps.
  rewrite A2_r1_eq, A2_norm_r1.
  rewrite R_seqb_false by (scalar_R; lra).
  change (1 <? 0)%Z with false. cbv iota.
  change (seq 0 (Z.to_nat 1)) with [0%nat].
  fold A2_c1_st0. cbn [gmres_loop]. rewrite A2_c1_step0. cbn [fst snd].
  pose proof tol_default_bounds.
  rewrite R_sleb_true by lra.
  unfold solve. cbn [back_substitute Nat.sub Nat.add].
  cbv beta iota zeta delta [A2_c1_st1 st_H st_g upd upd2 Nat.eqb andb row_sum].
  rewrite R_seqb_false by (scalar_R; lra).
  do 3 f_equal. eval_R. vec_R.
Qed.

(** The restarted solver with [m = 1] and the default tolerance and number
    of cycles stops after the second cycle. *)
Lemma A2_restart :
  gmres_restart lstsq A2 b2 None 1 tol_default 20 =
  Ok ([1 / 9; 4 / 21], [1; 4 / 5; 0]).
Proof.
  unfold gmres_restart. change (length b2) with 2%nat. unfold initial_guess.
  change (seq 0 (Z.to_nat 20)) with (0 :: 1 :: seq 2 18)%nat.
  pose proof tol_default_bounds.
  rewrite (restart_loop_cycle _ _ _ _ _ _ _ _ _ _ _ A2_cycle0).
  cbn [Nat.eqb app]. cbv zeta.
  change (last_entry [1; 4 / 5]) with (Some (4 / 5)). cbv beta iota.
  rewrite R_sleb_false by lra.
  rewrite (restart_loop_cycle _ _ _ _ _ _ _ _ _ _ _ A2_cycle1).
  cbn [Nat.eqb app tl]. cbv zeta.
  change (last_entry [1; 4 / 5; 0]) with (Some 0). cbv beta iota.
  rewrite R_sleb_true by lra. reflexivity.
Qed.

End RestartA2.

Section RunIdentity.
Local Open Scope R_scope.

Lemma sqrt5_facts : 0 < sqrt 5 /\ sqrt 5 * sqrt 5 = 5.
Proof.
  split.
  - apply sqrt_lt_R0. lra.
  - apply sqrt_sqrt. lra.
Qed.

Lemma I5_r0 : vsub ones5 (I5 (zeros 5)) = ones5.
Proof. eval_R. vec_R. Qed.

Lemma I5_beta : norm ones5 = sqrt 5.
Proof. eval_R. f_equal. lra. Qed.

Lemma I5_matvec_v0 : I5 I5_v0 = I5_v0.
Proof. eval_R. vec_R. Qed.

Lemma I5_dot_v0 : dot I5_v0 I5_v0 = 1.
Proof.
  destruct sqrt5_facts as [Hpos Hsq].
  assert (Hinv : 1 / sqrt 5 * (1 / sqrt 5) = 1 / 5).
  { replace (1 / sqrt 5 * (1 / sqrt 5)) with (1 / (sqrt 5 * sqrt 5)) by (field; lra).
    rewrite Hsq. reflexivity. }
  eval_R. lra.
Qed.

Lemma norm_zeros5 : norm (zeros 5) = 0.
Proof. eval_R. apply sqrt_of_square; lra. Qed.

Lemma I5_expand :
  arnoldi_expand I5 0 I5_st0 = (upd2 (fun _ _ => 0) 0%nat 0%nat 1, zeros 5).
Proof.
  unfold arnoldi_expand. cbn [Nat.add seq fold_left]. unfold mgs_step. cbn [fst snd].
  change (st_V I5_st0 0%nat) with I5_v0.
  rewrite I5_matvec_v0, I5_dot_v0. f_equal.
  eval_R. vec_R.
Qed.

(** The Hessenberg column of the first Arnoldi step. *)
Lemma I5_H0 :
  arnoldi_H I5 0 I5_st0 = upd2 (upd2 (fun _ _ => 0) 0%nat 0%nat 1) 1%nat 0%nat 0.
Proof.
  unfold arnoldi_H, arnoldi_w. rewrite I5_expand. cbn [fst snd].
  rewrite norm_zeros5. reflexivity.
Qed.

Lemma I5_V0 : arnoldi_V I5 0 I5_st0 = st_V I5_st1.
Proof.
  unfold arnoldi_V. rewrite I5_H0. unfold sneb.
  change (upd2 _ 1%nat 0%nat 0 (0 + 1)%nat 0%nat) with 0.
  rewrite R_seqb_true by reflexivity. reflexivity.
Qed.

Lemma I5_rot0 : step_rotation I5 0 I5_st0 = (1, 0).
Proof.
  unfold step_rotation, rotated_H. rewrite I5_H0.
  change (givens_rotation 1 0 = (1, 0)). apply givens_rotation_b_zero.
Qed.

Lemma I5_step0 : arnoldi_step I5 0 I5_st0 = (I5_st1, 0).
Proof.
  unfold arnoldi_step. rewrite I5_rot0, I5_V0.
  unfold rotated_H. rewrite I5_H0.
  cbv beta iota zeta delta [fst snd]. f_equal.
  - unfold I5_st1. cbn [st_V]. f_equal.
    + extensionality r; extensionality c.
      destruct r as [|[|r]]; destruct c as [|c]; eval_R; try reflexivity; lra.
    + extensionality k. destruct k as [|k]; eval_R; reflexivity.
    + extensionality k.
      destruct k as [|[|k]]; eval_R; try reflexivity; lra.
  - eval_R. replace (- 0 * sqrt 5 + 1 * 0) with 0 by lra. apply Rabs_R0.
Qed.

Lemma I5_gmres lstsq (x0 : option (list R)) :
  initial_guess 5 x0 = zeros 5 ->
  gmres lstsq I5 ones5 x0 tol_default None = Ok (ones5, [sqrt 5; 0]).
Proof.
  intros Hx0. unfold gmres. change (length ones5) with 5%nat. cbv zeta.
  unfold max_steps.
  rewrite Hx0, I5_r0, I5_beta.
  destruct sqrt5_facts as [Hpos Hsq].
  rewrite R_seqb_false by (scalar_R; lra).
  change (Z.of_nat 5 <? 0)%Z with false. cbv iota.
  change (Z.to_nat (Z.of_nat 5)) with 5%nat.
  change (seq 0 5) with (0 :: seq 1 4)%nat.
  fold I5_st0. cbn [gmres_loop]. rewrite I5_step0. cbn [fst snd].
  pose proof tol_default_bounds.
  rewrite R_sleb_true by lra.
  unfold solve. cbn [back_substitute Nat.sub Nat.add].
  cbv beta iota zeta delta [I5_st1 st_H st_g upd upd2 Nat.eqb andb row_sum].
  rewrite R_seqb_false by (scalar_R; lra).
  do 3 f_equal. eval_R. vec_R.
Qed.

End RunIdentity.

Section RunSingular.
Local Open Scope R_scope.

Lemma A0_r0 : vsub b0 (A0 (zeros 1)) = [1].
Proof. eval_R. vec_R. Qed.

Lemma norm_1 : norm [1] = 1.
Proof. eval_R. apply sqrt_of_square; lra. Qed.

Lemma norm_0 : norm [0] = 0.
Proof. eval_R. apply sqrt_of_square; lra. Qed.

Lemma A0_w0 : arnoldi_w A0 0 A0_st0 = [0].
Proof. eval_R. vec_R. Qed.

Lemma A0_H0 : arnoldi_H A0 0 A0_st0 = fun _ _ => 0.
Proof.
  unfold arnoldi_H. rewrite A0_w0, norm_0.
  extensionality r. extensionality c.
  destruct r as [|[|r]]; destruct c as [|c]; eval_R; try reflexivity; try lra;
    field.
Qed.

Lemma A0_step0 : arnoldi_step A0 0 A0_st0 = (A0_st1, 0).
Proof.
  unfold arnoldi_step, step_rotation, rotated_H, arnoldi_V.
  rewrite A0_H0. cbn [seq fold_left]. unfold sneb.
  rewrite R_seqb_true by reflexivity. cbn [negb].
  change (givens_rotation 0 0) with (givens_rotation 0 0%R).
  rewrite givens_rotation_b_zero.
  cbv beta iota zeta delta [fst snd]. f_equal.
  - unfold A0_st1. f_equal.
    + extensionality k. destruct k as [|k]; eval_R; vec_R.
    + extensionality r; extensionality c.
      destruct r as [|[|r]]; destruct c as [|c]; eval_R; try reflexivity; lra.
    + extensionality k. destruct k as [|k]; eval_R; reflexivity.
    + extensionality k.
      destruct k as [|[|k]]; eval_R; try reflexivity; lra.
  - eval_R. replace (- 0 * 1 + 1 * 0) with 0 by lra. apply Rabs_R0.
Qed.

Lemma A0_gmres lstsq :
  gmres lstsq A0 b0 None tol_default None = Raise LinAlgError.
Proof.
  unfold gmres. change (length b0) with 1%nat. cbv zeta. unfold initial_guess, max_steps.
  rewrite A0_r0, norm_1.
  rewrite R_seqb_false by (scalar_R; lra).
  change (Z.of_nat 1 <? 0)%Z with false. cbv iota.
  change (seq 0 (Z.to_nat (Z.of_nat 1))) with [0%nat].
  fold A0_st0. cbn [gmres_loop]. rewrite A0_step0. cbn [fst snd].
  pose proof tol_default_bounds.
  rewrite R_sleb_true by lra.
  unfold solve. cbn [back_substitute Nat.sub Nat.add].
  cbv beta iota zeta delta [A0_st1 st_H st_g].
  rewrite R_seqb_true by reflexivity. reflexivity.
Qed.

End RunSingular.

(** ** Two passes that do not reach the tolerance *)

Section RunA3.
Local Open Scope R_scope.

Lemma A3_r0 : vsub b3 (A3 (zeros 3)) = [1; 0; 0].
Proof. eval_R. vec_R. Qed.

Lemma norm_1_0_0 : norm [1; 0; 0] = 1.
Proof. eval_R. apply sqrt_of_square; lra. Qed.

Lemma norm_0_12_0 : norm [0; 12; 0] = 12.
Proof. eval_R. apply sqrt_of_square; lra. Qed.

Lemma norm_0_0_4 : norm [0; 0; 4] = 4.
Proof. eval_R. apply sqrt_of_square; lra. Qed.

Lemma A3_entry : entry_state A3 b3 None = A3_st0.
Proof.
  unfold entry_state. change (length b3) with 3%nat. cbv zeta.
  unfold initial_guess. rewrite A3_r0, norm_1_0_0. reflexivity.
Qed.

Lemma A3_initial_residual : initial_residual A3 b3 None = 1.
Proof.
  unfold initial_residual. change (length b3) with 3%nat.
  unfold initial_guess. rewrite A3_r0. apply norm_1_0_0.
Qed.

(** First pass, [j = 0]. *)
Lemma A3_w0 : arnoldi_w A3 0 A3_st0 = [0; 12; 0].
Proof. eval_R. vec_R. Qed.

Lemma A3_H0 :
  arnoldi_H A3 0 A3_st0 = upd2 (upd2 (fun _ _ => 0) 0%nat 0%nat 9) 1%nat 0%nat 12.
Proof.
  unfold arnoldi_H. rewrite A3_w0, norm_0_12_0.
  extensionality r. extensionality c.
  destruct r as [|[|r]]; destruct c as [|c]; eval_R; try reflexivity; lra.
Qed.

Lemma A3_V0 : arnoldi_V A3 0 A3_st0 = A3_V1.
Proof.
  unfold arnoldi_V. rewrite A3_H0, A3_w0. unfold sneb.
  change (upd2 _ 1%nat 0%nat 12 (0 + 1)%nat 0%nat) with 12.
  rewrite R_seqb_false by (scalar_R; lra). cbn [negb].
  extensionality k. destruct k as [|[|k]]; eval_R; vec_R.
Qed.

Lemma A3_rotH0 :
  rotated_H A3 0 A3_st0 = upd2 (upd2 (fun _ _ => 0) 0%nat 0%nat 9) 1%nat 0%nat 12.
Proof. unfold rotated_H. rewrite A3_H0. reflexivity. Qed.

Lemma A3_rot0 : step_rotation A3 0 A3_st0 = (- (3 / 5), 4 / 5).
Proof.
  unfold step_rotation. rewrite A3_rotH0. exact givens_rotation_9_12.
Qed.

Lemma A3_step0 : arnoldi_step A3 0 A3_st0 = (A3_st1, 4 / 5).
Proof.
  unfold arnoldi_step. rewrite A3_rot0, A3_rotH0, A3_V0.
  cbv beta iota zeta delta [fst snd]. f_equal.
  - unfold A3_st1. f_equal.
    + extensionality r; extensionality c.
      destruct r as [|[|r]]; destruct c as [|c]; eval_R; try reflexivity; lra.
    + extensionality k.
      destruct k as [|[|k]]; eval_R; try reflexivity; lra.
  - eval_R. replace (- (4 / 5) * 1 + - (3 / 5) * 0) with (- (4 / 5)) by lra.
    rewrite Rabs_left by lra. lra.
Qed.

(** Second pass, [j = 1]: the rotation of the first pass is applied to the
    new column, then [givens_rotation(3, 4)]. *)
Lemma A3_w1 : arnoldi_w A3 1 A3_st1 = [0; 0; 4].
Proof. eval_R. vec_R. Qed.

Lemma A3_H1_expand :
  arnoldi_H A3 1 A3_st1 =
  upd2 (upd2 (upd2 A2_H1 0%nat 1%nat 0) 1%nat 1%nat (- 5)) 2%nat 1%nat 4.
Proof.
  unfold arnoldi_H. rewrite A3_w1, norm_0_0_4.
  extensionality r. extensionality c.
  destruct r as [|[|[|r]]]; destruct c as [|[|c]]; eval_R; try reflexivity; lra.
Qed.

Lemma A3_V1_next : arnoldi_V A3 1 A3_st1 = A3_V2.
Proof.
  unfold arnoldi_V. rewrite A3_H1_expand, A3_w1. unfold sneb.
  change (upd2 _ 2%nat 1%nat 4 (1 + 1)%nat 1%nat) with 4.
  rewrite R_seqb_false by (scalar_R; lra). cbn [negb].
  extensionality k. destruct k as [|[|[|k]]]; eval_R; vec_R.
Qed.

Lemma A3_rotH1 :
  rotated_H A3 1 A3_st1 =
  upd2 (upd2 (upd2 A2_H1 0%nat 1%nat (- 4)) 1%nat 1%nat 3) 2%nat 1%nat 4.
Proof.
  unfold rotated_H. rewrite A3_H1_expand.
  extensionality r. extensionality c.
  destruct r as [|[|[|r]]]; destruct c as [|[|c]]; eval_R; try reflexivity; lra.
Qed.

Lemma A3_rot1 : step_rotation A3 1 A3_st1 = (- (3 / 5), 4 / 5).
Proof.
  unfold step_rotation. rewrite A3_rotH1.
  change (givens_rotation 3 4 = (- (3 / 5), 4 / 5)). exact givens_rotation_3_4.
Qed.

Lemma A3_step1 : arnoldi_step A3 1 A3_st1 = (A3_st2, 16 / 25).
Proof.
  unfold arnoldi_step. rewrite A3_rot1, A3_rotH1, A3_V1_next.
  cbv beta iota zeta delta [fst snd]. f_equal.
  - unfold A3_st2. f_equal.
    + extensionality r; extensionality c.
      destruct r as [|[|[|r]]]; destruct c as [|[|c]]; eval_R; try reflexivity; lra.
    + extensionality k.
      destruct k as [|[|[|k]]]; eval_R; try reflexivity; lra.
  - eval_R.
    replace (- (4 / 5) * - (4 / 5) + - (3 / 5) * 0) with (16 / 25) by lra.
    rewrite Rabs_pos_eq by lra. reflexivity.
Qed.

Lemma A3_after_1 : after_passes A3 A3_st0 1 = A3_st1.
Proof. cbn [after_passes]. now rewrite A3_step0. Qed.

Lemma A3_after_2 : after_passes A3 A3_st0 2 = A3_st2.
Proof.
  change (after_passes A3 A3_st0 2)
    with (fst (arnoldi_step A3 1 (after_passes A3 A3_st0 1))).
  now rewrite A3_after_1, A3_step1.
Qed.

Lemma A3_residual_0 : pass_residual A3 A3_st0 0 = 4 / 5.
Proof. unfold pass_residual. cbn [after_passes]. now rewrite A3_step0. Qed.

Lemma A3_residual_1 : pass_residual A3 A3_st0 1 = 16 / 25.
Proof. unfold pass_residual. now rewrite A3_after_1, A3_step1. Qed.

(** The least-squares solution of the 2 by 2 block is the solution of the
    triangular system, and the only minimiser. *)
Lemma A3_lstsq : lstsq_2x2 2 A3_H2 A3_g2 = Some A3_y.
Proof. unfold lstsq_2x2, A3_y. eval_R. f_equal. vec_R. Qed.

Lemma A3_min_norm : min_norm_least_squares 2 2 A3_H2 A3_g2 A3_y.
Proof.
  split; [reflexivity|split].
  - intros [|z0 [|z1 [|z2 z]]] Hz; try discriminate.
    unfold ls_residual2. cbn [sum_upto]. eval_R.
    pose proof (Rle_0_sqr (0 + 21 / 5 * z0 + - 4 * z1 - - (3 / 5))) as Hsq0.
    pose proof (Rle_0_sqr (0 + 0 * z0 + 7 / 5 * z1 - 12 / 25)) as Hsq1.
    unfold Rsqr in Hsq0, Hsq1. lra.
  - intros [|z0 [|z1 [|z2 z]]] Hz; try discriminate.
    unfold ls_residual2. cbn [sum_upto]. eval_R. intros Heq.
    assert (Hz1 : z1 = 12 / 35).
    { assert (Hsq : (7 / 5 * z1 - 12 / 25) * (7 / 5 * z1 - 12 / 25) = 0).
      { pose proof (Rle_0_sqr (21 / 5 * z0 - 4 * z1 + 3 / 5)) as Hsq0.
        pose proof (Rle_0_sqr (7 / 5 * z1 - 12 / 25)) as Hsq1.
        unfold Rsqr in Hsq0, Hsq1. lra. }
      apply Rmult_integral in Hsq. lra. }
    subst z1.
    assert (Hz0 : z0 = 9 / 49).
    { assert (Hsq : (21 / 5 * z0 - 27 / 35) * (21 / 5 * z0 - 27 / 35) = 0) by lra.
      apply Rmult_integral in Hsq. lra. }
    subst z0. lra.
Qed.

End RunA3.

(** ** Entering the loop *)

Section EnterLoop.
Context {F : Type} `{Scalar F}.
Variable lstsq : nat -> (nat -> nat -> F) -> (nat -> F) -> option (list F).

(** Past the short-circuit and the allocation, [gmres] is its loop followed
    by the least-squares solve. *)
Lemma gmres_enter_loop (A : operator) b x0 tol maxiter :
  seqb (initial_residual A b x0) s0 = false ->
  (0 <= max_steps (length b) maxiter)%Z ->
  gmres lstsq A b x0 tol maxiter =
  match gmres_loop A (length b) (initial_guess (length b) x0) tol
                   (seq 0 (Z.to_nat (max_steps (length b) maxiter)))
                   (entry_state A b x0) [initial_residual A b x0] with
  | Returned r => r
  | Exhausted st resvec =>
      match lstsq (Z.to_nat (max_steps (length b) maxiter)) (st_H st) (st_g st) with
      | Some y =>
          Ok (vadd (initial_guess (length b) x0)
                   (mat_dot (length b) (st_V st)
                            (Z.to_nat (max_steps (length b) maxiter)) y),
              resvec)
      | None => Raise LinAlgError
      end
  end.
Proof.
  intros Hbeta Hm. unfold gmres, entry_state. fold (initial_residual A b x0).
  rewrite Hbeta.
  destruct (Z.ltb_spec (max_steps (length b) maxiter) 0); [lia|reflexivity].
Qed.

(** The two ways a call that enters the loop ends: no check succeeds, and
    the result is decided by [lstsq]; or it ends in the first pass whose check
    succeeds, and the result is decided by [np.linalg.solve]. *)
Lemma gmres_run_cases (A : operator) b x0 tol maxiter :
  seqb (initial_residual A b x0) s0 = false ->
  (0 <= max_steps (length b) maxiter)%Z ->
  ((forall j, (j < Z.to_nat (max_steps (length b) maxiter))%nat ->
      sleb (pass_residual A (entry_state A b x0) j) tol = false) /\
   gmres lstsq A b x0 tol maxiter =
   match lstsq (Z.to_nat (max_steps (length b) maxiter))
               (st_H (after_passes A (entry_state A b x0)
                                   (Z.to_nat (max_steps (length b) maxiter))))
               (st_g (after_passes A (entry_state A b x0)
                                   (Z.to_nat (max_steps (length b) maxiter)))) with
   | Some y =>
       Ok (vadd (initial_guess (length b) x0)
                (mat_dot (length b)
                         (st_V (after_passes A (entry_state A b x0)
                                  (Z.to_nat (max_steps (length b) maxiter))))
                         (Z.to_nat (max_steps (length b) maxiter)) y),
           initial_residual A b x0 ::
           map (pass_residual A (entry_state A b x0))
               (seq 0 (Z.to_nat (max_steps (length b) maxiter))))
   | None => Raise LinAlgError
   end)
  \/
  (exists j,
     (j < Z.to_nat (max_steps (length b) maxiter))%nat /\
     (forall i, (i < j)%nat ->
        sleb (pass_residual A (entry_state A b x0) i) tol = false) /\
     sleb (pass_residual A (entry_state A b x0) j) tol = true /\
     gmres lstsq A b x0 tol maxiter =
     early_exit A (length b) (initial_guess (length b) x0) (entry_state A b x0)
                [initial_residual A b x0] j).
Proof.
  intros Hbeta Hm. rewrite (gmres_enter_loop _ _ _ _ _ Hbeta Hm).
  destruct (gmres_loop_cases A (length b) (initial_guess (length b) x0) tol
              (entry_state A b x0) [initial_residual A b x0]
              (Z.to_nat (max_steps (length b) maxiter)))
    as [[Hno ->]|(j & Hj & Hno & Hchk & ->)].
  - left. split; [exact Hno|reflexivity].
  - right. exists j. now split_and.
Qed.

(** A pass whose [w] has norm zero, in any arithmetic: the column of [V]
    is not written, the rotation is [(1, 0)], and the entry appended is
    [|-0 * g[j] + 1 * 0|]. *)
Lemma breakdown_pass (A : operator) n j st :
  loop_inv n j st ->
  seqb (norm (arnoldi_w A j st)) s0 = true ->
  st_V (fst (arnoldi_step A j st)) (j + 1)%nat = zeros n /\
  step_rotation A j st = (s1, s0) /\
  snd (arnoldi_step A j st) = sabs (- s0 * st_g st j + s1 * s0)%S.
Proof.
  intros (_ & Hg & HV) Hw.
  assert (Hrot : step_rotation A j st = (s1, s0)).
  { unfold step_rotation, givens_rotation.
    rewrite (rotated_H_subdiagonal A j st), Hw. reflexivity. }
  split_and.
  - rewrite arnoldi_step_V. unfold arnoldi_V.
    rewrite arnoldi_H_subdiagonal. unfold sneb. rewrite Hw. cbn [negb].
    apply HV. lia.
  - exact Hrot.
  - unfold arnoldi_step. cbv zeta. cbn [snd]. rewrite Hrot. cbn [fst snd].
    rewrite upd_other by lia. rewrite upd_same.
    rewrite (Hg (j + 1)%nat) by lia. reflexivity.
Qed.

(** The loop that reaches the pass [j] returns from it when its check
    succeeds. *)
Lemma gmres_returns_at (A : operator) b x0 tol maxiter j st rv :
  seqb (initial_residual A b x0) s0 = false ->
  (Z.of_nat j < max_steps (length b) maxiter)%Z ->
  gmres_loop A (length b) (initial_guess (length b) x0) tol (seq 0 j)
             (entry_state A b x0) [initial_residual A b x0] = Exhausted st rv ->
  sleb (snd (arnoldi_step A j st)) tol = true ->
  gmres lstsq A b x0 tol maxiter =
    match solve (st_H (fst (arnoldi_step A j st)))
                (st_g (fst (arnoldi_step A j st))) (j + 1) with
    | Some y =>
        Ok (vadd (initial_guess (length b) x0)
                 (mat_dot (length b) (st_V (fst (arnoldi_step A j st))) (j + 1) y),
            rv ++ [snd (arnoldi_step A j st)])
    | None => Raise LinAlgError
    end.
Proof.
  intros Hbeta Hj Hloop Hchk.
  rewrite gmres_enter_loop by (try lia; exact Hbeta).
  set (m := Z.to_nat (max_steps (length b) maxiter)).
  assert (Hm : (j < m)%nat) by lia.
  replace (seq 0 m) with (seq 0 j ++ j :: seq (S j) (m - S j)).
  2:{ replace m with (j + S (m - S j))%nat at 2 by lia.
      rewrite seq_app. reflexivity. }
  rewrite gmres_loop_app, Hloop. cbn [gmres_loop]. rewrite Hchk.
  destruct (solve _ _ _); reflexivity.
Qed.

End EnterLoop.

(** ** The solver in exact arithmetic *)

Section Exact.
Local Open Scope R_scope.

Lemma A2_entry : entry_state A2 b2 None = A2_st0.
Proof.
  unfold entry_state. change (length b2) with 2%nat. cbv zeta.
  unfold initial_guess. rewrite A2_r0, norm_1_0. reflexivity.
Qed.

Lemma A2_initial_residual : initial_residual A2 b2 None = 1.
Proof.
  unfold initial_residual. change (length b2) with 2%nat.
  unfold initial_guess. rewrite A2_r0. apply norm_1_0.
Qed.

(** C2, at the input [a = 3], [b = 4]: the helper returns [(-3/5, 4/5)], and
    [[c, s], [-s, c]] @ [a, b] is then [(7/5, -24/5)]: the second component,
    which the docstring promises to be zero, is [-24/5] (the rotation that
    maps [(3, 4)] to [(5, 0)] is [(3/5, 4/5)]). *)
Theorem givens_rotation_3_4_not_eliminated :
  givens_rotation 3 4 = (- (3 / 5), 4 / 5) /\
  rotated_first (givens_rotation 3 4) 3 4 = 7 / 5 /\
  rotated_second (givens_rotation 3 4) 3 4 = - (24 / 5).
Proof.
  rewrite givens_rotation_3_4. unfold rotated_first, rotated_second. simpl.
  repeat split; lra.
Qed.

(** C1, at the input [A = [[9, 0], [12, -7]]], [b = [1, 0]] with the default
    [x0], [tol] and [maxiter]: [gmres] returns [x = [-25/63, -4/21]] with the
    history [[1, 4/5, 0]], whose last entry is [0], while the residual
    [b - A @ x] has norm [40/7]. *)
Theorem gmres_last_entry_is_not_the_residual
    (lstsq : nat -> (nat -> nat -> R) -> (nat -> R) -> option (list R)) :
  gmres lstsq A2 b2 None tol_default None = Ok (A2_x, [1; 4 / 5; 0]) /\
  last_entry [1; 4 / 5; 0] = Some 0 /\
  norm (vsub b2 (A2 A2_x)) = 40 / 7.
Proof.
  split; [apply A2_gmres|]. split; [reflexivity|apply A2_true_residual].
Qed.

(** C3, as stated, fails on the singular system [A = [[0]]], [b = [1]]: the
    first Arnoldi step produces [w = 0], and [gmres] raises [LinAlgError]
    (the triangular block is singular) instead of returning a solution. *)
Lemma gmres_breakdown_singular_raises :
  norm (arnoldi_w A0 0 (entry_state A0 b0 None)) = 0 /\
  gmres lstsq_1x1 A0 b0 None tol_default None = Raise LinAlgError.
Proof.
  split; [|apply A0_gmres].
  unfold entry_state. change (length b0) with 1%nat. cbv zeta.
  unfold initial_guess. rewrite A0_r0, norm_1. fold A0_st0.
  rewrite A0_w0. apply norm_0.
Qed.

(** C3, amended.  In any arithmetic: when the pass [j] of a run of [gmres]
    produces [w] with norm zero, the pass does not divide by that norm and
    leaves [V[:, j + 1]] as allocated (zeros); its rotation is [(1, 0)]; the
    entry it appends to the history is [|-0 * g[j] + 1 * 0|]; and if that
    entry is [<= tol], [gmres] stops at that pass with the triangular solve
    over the first [j + 1] columns: it returns [x0 + V[:, :j + 1] @ y] when the
    triangular block is nonsingular and raises [LinAlgError] when it is
    singular.  In exact arithmetic the entry appended is [0], so that [gmres]
    stops at that pass for every [tol >= 0], with the history ending in
    [0]. *)
Theorem gmres_breakdown_step :
  (forall (F : Type) (SF : Scalar F)
          (lstsq : nat -> (nat -> nat -> F) -> (nat -> F) -> option (list F))
          (A : operator) (b : list F) (x0 : option (list F)) (tol : F)
          (maxiter : option Z) (j : nat) (st : arnoldi_state) (rv : list F),
     seqb (initial_residual A b x0) s0 = false ->
     (Z.of_nat j < max_steps (length b) maxiter)%Z ->
     gmres_loop A (length b) (initial_guess (length b) x0) tol (seq 0 j)
                (entry_state A b x0) [initial_residual A b x0] = Exhausted st rv ->
     seqb (norm (arnoldi_w A j st)) s0 = true ->
     st_V (fst (arnoldi_step A j st)) (j + 1)%nat = zeros (length b) /\
     step_rotation A j st = (s1, s0) /\
     snd (arnoldi_step A j st) = sabs (- s0 * st_g st j + s1 * s0)%S /\
     (sleb (snd (arnoldi_step A j st)) tol = true ->
      gmres lstsq A b x0 tol maxiter =
        match solve (st_H (fst (arnoldi_step A j st)))
                    (st_g (fst (arnoldi_step A j st))) (j + 1)%nat with
        | Some y =>
            Ok (vadd (initial_guess (length b) x0)
                     (mat_dot (length b) (st_V (fst (arnoldi_step A j st)))
                              (j + 1)%nat y),
                rv ++ [snd (arnoldi_step A j st)])
        | None => Raise LinAlgError
        end)) /\
  (forall (lstsq : nat -> (nat -> nat -> R) -> (nat -> R) -> option (list R))
          (A : operator) (b : list R) (x0 : option (list R)) (tol : R)
          (maxiter : option Z) (j : nat) (st : arnoldi_state) (rv : list R),
     initial_residual A b x0 <> 0 ->
     0 <= tol ->
     (Z.of_nat j < max_steps (length b) maxiter)%Z ->
     gmres_loop A (length b) (initial_guess (length b) x0) tol (seq 0 j)
                (entry_state A b x0) [initial_residual A b x0] = Exhausted st rv ->
     norm (arnoldi_w A j st) = 0 ->
     st_V (fst (arnoldi_step A j st)) (j + 1)%nat = zeros (length b) /\
     step_rotation A j st = (1, 0) /\
     snd (arnoldi_step A j st) = 0 /\
     gmres lstsq A b x0 tol maxiter =
       match solve (st_H (fst (arnoldi_step A j st)))
                   (st_g (fst (arnoldi_step A j st))) (j + 1)%nat with
       | Some y =>
           Ok (vadd (initial_guess (length b) x0)
                    (mat_dot (length b) (st_V (fst (arnoldi_step A j st)))
                             (j + 1)%nat y),
               rv ++ [0])
       | None => Raise LinAlgError
       end).
Proof.
  split.
  - intros F SF lstsq A b x0 tol maxiter j st rv Hbeta Hj Hloop Hw.
    pose proof (gmres_loop_inv A _ _ tol j 0 _ _ _ _
                  (loop_inv_init _ _ _) Hloop) as Hinv.
    simpl Nat.add in Hinv.
    destruct (breakdown_pass A (length b) j st Hinv Hw) as (HV & Hrot & Hres).
    split_and; [exact HV|exact Hrot|exact Hres|].
    intros Hchk. now apply gmres_returns_at.
  - intros lstsq A b x0 tol maxiter j st rv Hbeta Htol Hj Hloop Hw.
    pose proof (gmres_loop_inv A _ _ tol j 0 _ _ _ _
                  (loop_inv_init _ _ _) Hloop) as Hinv.
    simpl Nat.add in Hinv.
    assert (Hw' : @seqb R _ (norm (arnoldi_w A j st)) s0 = true)
      by (apply R_seqb_true; exact Hw).
    destruct (breakdown_pass A (length b) j st Hinv Hw') as (HV & Hrot & Hres).
    assert (Hzero : snd (arnoldi_step A j st) = 0).
    { rewrite Hres. scalar_R.
      replace (- 0 * st_g st j + 1 * 0) with 0 by lra. apply Rabs_R0. }
    split_and; [exact HV|exact Hrot|exact Hzero|].
    rewrite (gmres_returns_at lstsq A b x0 tol maxiter j st rv).
    + now rewrite Hzero.
    + apply R_seqb_false. exact Hbeta.
    + exact Hj.
    + exact Hloop.
    + rewrite Hzero. apply R_sleb_true. exact Htol.
Qed.

Lemma gmres_breakdown_step_witness :
  st_V (fst (arnoldi_step A2 1 A2_st1)) 2%nat = zeros 2 /\
  step_rotation A2 1 A2_st1 = (1, 0) /\
  snd (arnoldi_step A2 1 A2_st1) = 0 /\
  gmres lstsq_1x1 A2 b2 None tol_default None =
    match solve (st_H (fst (arnoldi_step A2 1 A2_st1)))
                (st_g (fst (arnoldi_step A2 1 A2_st1))) 2 with
    | Some y =>
        Ok (vadd (zeros 2)
                 (mat_dot 2 (st_V (fst (arnoldi_step A2 1 A2_st1))) 2 y),
            [1; 4 / 5] ++ [0])
    | None => Raise LinAlgError
    end.
Proof.
  apply (proj2 gmres_breakdown_step lstsq_1x1 A2 b2 None tol_default None 1%nat
               A2_st1 [1; 4 / 5]).
  - rewrite A2_initial_residual. lra.
  - pose proof tol_default_bounds. lra.
  - simpl. lia.
  - rewrite A2_entry, A2_initial_residual. apply A2_loop_first_pass.
  - rewrite A2_w1. apply norm_0_0.
Defined.

(** C4: for [A = I] of size 5, [b = [1, 1, 1, 1, 1]] and [x0 = 0], the first
    Arnoldi step computes [H[0, 0] = 1] and [H[1, 0] = 0], and [gmres] (with
    the default [tol] and [maxiter]) returns [x = [1, 1, 1, 1, 1]] with the
    history [[sqrt 5, 0]]. *)
Theorem gmres_identity_scenario
    (lstsq : nat -> (nat -> nat -> R) -> (nat -> R) -> option (list R)) :
  arnoldi_H I5 0 (entry_state I5 ones5 (Some (zeros 5))) 0%nat 0%nat = 1 /\
  arnoldi_H I5 0 (entry_state I5 ones5 (Some (zeros 5))) 1%nat 0%nat = 0 /\
  gmres lstsq I5 ones5 (Some (zeros 5)) tol_default None =
    Ok ([1; 1; 1; 1; 1], [sqrt 5; 0]).
Proof.
  assert (Hentry : entry_state I5 ones5 (Some (zeros 5)) = I5_st0).
  { unfold entry_state. change (length ones5) with 5%nat. cbv zeta.
    unfold initial_guess. rewrite I5_r0, I5_beta. reflexivity. }
  rewrite Hentry, I5_H0. repeat split.
  now apply I5_gmres.
Qed.

End Exact.

Section LeastSquaresFacts.
Local Open Scope R_scope.

Lemma sum_upto_zero (f : nat -> R) (n : nat) :
  (forall i, (i < n)%nat -> f i = 0) -> sum_upto f n = 0.
Proof.
  induction n as [|n IH]; intros Hf; simpl; [reflexivity|].
  rewrite IH by (intros; apply Hf; lia). rewrite Hf by lia. lra.
Qed.

(** A zero row adds the square of its right-hand side to the residual,
    whatever the candidate solution. *)
Lemma ls_residual2_zero_row (m cols : nat) (M : nat -> nat -> R) (rhs : nat -> R)
    (z : list R) :
  (forall k, M m k = 0) ->
  ls_residual2 (m + 1) cols M rhs z = ls_residual2 m cols M rhs z + rhs m * rhs m.
Proof.
  intros Hrow. unfold ls_residual2. rewrite Nat.add_1_r. cbn [sum_upto].
  rewrite (sum_upto_zero (fun k => M m k * nth k z 0)).
  - lra.
  - intros i _. rewrite Hrow. lra.
Qed.

Lemma min_norm_least_squares_zero_row (m cols : nat) (M : nat -> nat -> R)
    (rhs : nat -> R) (y : list R) :
  (forall k, M m k = 0) ->
  min_norm_least_squares m cols M rhs y ->
  min_norm_least_squares (m + 1) cols M rhs y.
Proof.
  intros Hrow (Hlen & Hmin & Hnorm). split; [exact Hlen|split].
  - intros z Hz. rewrite !ls_residual2_zero_row by exact Hrow.
    specialize (Hmin z Hz). lra.
  - intros z Hz Heq. rewrite !ls_residual2_zero_row in Heq by exact Hrow.
    apply Hnorm; [exact Hz|lra].
Qed.

Lemma min_norm_least_squares_drop_zero_row (m cols : nat) (M : nat -> nat -> R)
    (rhs : nat -> R) (y : list R) :
  (forall k, M m k = 0) ->
  min_norm_least_squares (m + 1) cols M rhs y ->
  min_norm_least_squares m cols M rhs y.
Proof.
  intros Hrow (Hlen & Hmin & Hnorm). split; [exact Hlen|split].
  - intros z Hz. specialize (Hmin z Hz).
    rewrite !ls_residual2_zero_row in Hmin by exact Hrow. lra.
  - intros z Hz Heq. apply Hnorm; [exact Hz|].
    rewrite !ls_residual2_zero_row by exact Hrow. lra.
Qed.

End LeastSquaresFacts.

Section ExactLeastSquares.
Local Open Scope R_scope.

(** C5, amended.  In any arithmetic: when the initial residual is not zero,
    [maxiter >= 0] and the check of none of the passes [0 .. maxiter - 1]
    succeeds, the accumulated [(maxiter + 1)] by [maxiter] matrix [H] is
    zero below its diagonal, row [maxiter] included; column 0 of [V] is
    [r0 / beta], and column [k + 1] is the [w / norm(w)] of the pass [k], or
    zero when that norm is zero; and [gmres] hands the leading [maxiter] by
    [maxiter] block to [lstsq]: when [lstsq] returns [y], [gmres] returns
    [x0 + V[:, :maxiter] @ y] with the initial residual norm and the entries
    of the passes as history; when [lstsq] raises [LinAlgError], so does
    [gmres].  In exact arithmetic: over the full matrix the squared residual
    of every candidate is the one over the block plus [g[maxiter]^2], so [y]
    is a minimum-norm least-squares solution of the block exactly when it
    is one of the full system. *)
Theorem gmres_exhausted_least_squares :
  (forall (F : Type) (SF : Scalar F)
          (lstsq : nat -> (nat -> nat -> F) -> (nat -> F) -> option (list F))
          (A : operator) (b : list F) (x0 : option (list F)) (tol : F)
          (maxiter : option Z),
     let m := Z.to_nat (max_steps (length b) maxiter) in
     let st := after_passes A (entry_state A b x0) m in
     seqb (initial_residual A b x0) s0 = false ->
     (0 <= max_steps (length b) maxiter)%Z ->
     (forall j, (j < m)%nat ->
        sleb (pass_residual A (entry_state A b x0) j) tol = false) ->
     (forall i k, (k < i \/ m <= k)%nat -> st_H st i k = s0) /\
     st_V st 0%nat =
       vdiv (vsub b (A (initial_guess (length b) x0))) (initial_residual A b x0) /\
     (forall k, (k < m)%nat ->
        st_V st (k + 1)%nat =
        if seqb (norm (arnoldi_w A k (after_passes A (entry_state A b x0) k))) s0
        then zeros (length b)
        else vdiv (arnoldi_w A k (after_passes A (entry_state A b x0) k))
                  (norm (arnoldi_w A k (after_passes A (entry_state A b x0) k)))) /\
     gmres lstsq A b x0 tol maxiter =
     match lstsq m (st_H st) (st_g st) with
     | Some y =>
         Ok (vadd (initial_guess (length b) x0)
                  (mat_dot (length b) (st_V st) m y),
             initial_residual A b x0 ::
             map (pass_residual A (entry_state A b x0)) (seq 0 m))
     | None => Raise LinAlgError
     end) /\
  (forall (A : @operator R) (b : list R) (x0 : option (list R))
          (maxiter : option Z) (y : list R),
     let m := Z.to_nat (max_steps (length b) maxiter) in
     let st := after_passes A (entry_state A b x0) m in
     (forall z,
        ls_residual2 (m + 1) m (st_H st) (st_g st) z =
        ls_residual2 m m (st_H st) (st_g st) z + st_g st m * st_g st m) /\
     (min_norm_least_squares m m (st_H st) (st_g st) y <->
      min_norm_least_squares (m + 1) m (st_H st) (st_g st) y)).
Proof.
  split.
  - intros F SF lstsq A b x0 tol maxiter m st Hbeta Hm Hno. split_and.
    + subst st. unfold entry_state. cbv zeta.
      destruct (after_passes_inv A (length b)
                  (vsub b (A (initial_guess (length b) x0)))
                  (norm (vsub b (A (initial_guess (length b) x0)))) m)
        as (HH & _).
      exact HH.
    + subst st. unfold entry_state, initial_residual. cbv zeta.
      apply after_passes_columns.
    + subst st. unfold entry_state, initial_residual. cbv zeta.
      apply after_passes_columns.
    + destruct (gmres_run_cases lstsq A b x0 tol maxiter Hbeta Hm)
        as [[_ Hrun]|(j & Hj & _ & Hchk & _)].
      * exact Hrun.
      * fold m in Hj. rewrite (Hno j Hj) in Hchk. discriminate.
  - intros A b x0 maxiter y m st.
    assert (Hrow : forall k, st_H st m k = 0).
    { intros k. subst st. unfold entry_state. cbv zeta.
      destruct (after_passes_inv A (length b)
                  (vsub b (A (initial_guess (length b) x0)))
                  (norm (vsub b (A (initial_guess (length b) x0)))) m)
        as (HH & _).
      apply HH. lia. }
    split; [|split].
    + intros z. now apply ls_residual2_zero_row.
    + now apply min_norm_least_squares_zero_row.
    + now apply min_norm_least_squares_drop_zero_row.
Qed.

Lemma gmres_exhausted_least_squares_witness :
  (forall i k, (k < i \/ 2 <= k)%nat -> A3_H2 i k = 0) /\
  A3_V2 1%nat = vdiv [0; 12; 0] 12 /\
  gmres lstsq_2x2 A3 b3 None tol_default (Some 2%Z) =
    Ok (A3_x, [1; 4 / 5; 16 / 25]) /\
  min_norm_least_squares 3 2 A3_H2 A3_g2 A3_y.
Proof.
  destruct gmres_exhausted_least_squares as [Hany Hexact].
  pose proof (Hany R R_scalar lstsq_2x2 A3 b3 None tol_default (Some 2%Z)) as Hrun.
  pose proof (Hexact A3 b3 None (Some 2%Z) A3_y) as Hls.
  cbv zeta in Hrun, Hls.
  change (Z.to_nat (max_steps (length b3) (Some 2%Z))) with 2%nat in Hrun, Hls.
  rewrite A3_entry, A3_after_2 in Hrun, Hls.
  rewrite A3_initial_residual in Hrun.
  cbn [st_H st_g st_V A3_st2 seq map] in Hrun, Hls.
  rewrite A3_residual_0, A3_residual_1, A3_lstsq in Hrun.
  destruct Hrun as (Hrow & _ & Hcols & Hrun).
  - apply R_seqb_false. scalar_R. lra.
  - simpl. lia.
  - pose proof tol_default_bounds.
    intros [|[|j]] Hj; [rewrite A3_residual_0|rewrite A3_residual_1|lia];
      apply R_sleb_false; lra.
  - split_and.
    + exact Hrow.
    + pose proof (Hcols 0%nat ltac:(lia)) as Hcol.
      cbn [Nat.add after_passes] in Hcol.
      rewrite A3_w0, norm_0_12_0 in Hcol.
      rewrite R_seqb_false in Hcol by (scalar_R; lra). exact Hcol.
    + rewrite Hrun. change (length b3) with 3%nat. unfold initial_guess.
      do 2 f_equal. eval_R. vec_R.
    + apply (proj1 (proj2 Hls)). exact A3_min_norm.
Defined.


(** C8, at the input [A = [[9, 0], [12, -7]]], [b = [1, 0]], [m = 1] with
    the default [x0], [tol] and [maxcycles], for a least-squares routine
    that solves a nonsingular 1 by 1 system: the first cycle returns the
    history [[1, 4/5]], the second cycle returns [[20/7, 0]], and the
    restarted solver returns [[1, 4/5, 0]].  The entry dropped at the
    boundary is [20/7]; the last entry of the previous cycle is [4/5]. *)
Theorem gmres_restart_boundary_entries_differ
    (lstsq : nat -> (nat -> nat -> R) -> (nat -> R) -> option (list R)) :
  (forall M rhs, M 0%nat 0%nat <> 0 ->
                 lstsq 1%nat M rhs = Some [rhs 0%nat / M 0%nat 0%nat]) ->
  gmres lstsq A2 b2 (Some (zeros 2)) tol_default (Some 1%Z) =
    Ok (A2_x1, [1; 4 / 5]) /\
  gmres lstsq A2 b2 (Some A2_x1) tol_default (Some 1%Z) =
    Ok ([1 / 9; 4 / 21], [20 / 7; 0]) /\
  gmres_restart lstsq A2 b2 None 1 tol_default 20 =
    Ok ([1 / 9; 4 / 21], [1; 4 / 5; 0]).
Proof.
  intros Hlstsq. split; [|split].
  - now apply A2_cycle0.
  - apply A2_cycle1.
  - now apply A2_restart.
Qed.

Lemma gmres_restart_boundary_entries_differ_witness :
  gmres lstsq_1x1 A2 b2 (Some (zeros 2)) tol_default (Some 1%Z) =
    Ok (A2_x1, [1; 4 / 5]) /\
  gmres lstsq_1x1 A2 b2 (Some A2_x1) tol_default (Some 1%Z) =
    Ok ([1 / 9; 4 / 21], [20 / 7; 0]) /\
  gmres_restart lstsq_1x1 A2 b2 None 1 tol_default 20 =
    Ok ([1 / 9; 4 / 21], [1; 4 / 5; 0]).
Proof.
  apply (gmres_restart_boundary_entries_differ lstsq_1x1).
  intros M rhs _. reflexivity.
Defined.

(** C7 at a concrete input: started from the solution [[1/9, 4/21]] of
    [A2 @ x = b2], [gmres] returns it with the history [[0]]. *)
Lemma gmres_zero_initial_residual_witness :
  gmres lstsq_1x1 A2 b2 (Some [1 / 9; 4 / 21]) tol_default None =
  Ok ([1 / 9; 4 / 21], [0]).
Proof.
  refine (gmres_zero_initial_residual lstsq_1x1 A2 b2 (Some [1 / 9; 4 / 21])
                                      tol_default None _).
  apply R_seqb_true. unfold initial_guess.
  replace (vsub b2 (A2 [1 / 9; 4 / 21])) with [0; 0] by (eval_R; vec_R).
  apply norm_0_0.
Defined.

End ExactLeastSquares.

Section StoreWitness.
Local Open Scope R_scope.

Lemma solvers_leave_existing_arrays_unchanged_witness :
  (nth_error (snd (gmres_h lstsq_1x1 A2 0 (Some 1%nat) tol_default None
                           [Vec b2; Vec A2_x1])) 1 = Some (Vec A2_x1) /\
   nth_error (snd (gmres_restart_h lstsq_1x1 A2 0 (Some 1%nat) 1 tol_default 20
                                   [Vec b2; Vec A2_x1])) 1 = Some (Vec A2_x1)) /\
  (nth_error (snd (gmres_h lstsq_1x1 A2 0 (Some 1%nat) tol_default None
                           [Vec b2; Vec A2_x1])) 0 = Some (Vec b2) /\
   nth_error (snd (gmres_restart_h lstsq_1x1 A2 0 (Some 1%nat) 1 tol_default 20
                                   [Vec b2; Vec A2_x1])) 0 = Some (Vec b2)).
Proof.
  split.
  - apply (solvers_leave_existing_arrays_unchanged lstsq_1x1 A2 0 (Some 1%nat)
             tol_default None 1 20 [Vec b2; Vec A2_x1] 1 (Vec A2_x1)).
    reflexivity.
  - apply (solvers_leave_existing_arrays_unchanged lstsq_1x1 A2 0 (Some 1%nat)
             tol_default None 1 20 [Vec b2; Vec A2_x1] 0 (Vec b2)).
    reflexivity.
Defined.

End StoreWitness.

(** ** Back-substitution solves the triangular system *)

Section SolveExact.
Local Open Scope R_scope.

(** [row_sum U i ys k] is the part of row [i] of [U @ y] that the entries
    [ys = y[k:]] contribute. *)
Lemma row_sum_skipn (U : nat -> nat -> R) (i : nat) (y : list R) :
  forall a,
    row_sum U i (skipn a y) a =
    sum_upto (fun k => U i k * nth k y 0) (length y) -
    sum_upto (fun k => U i k * nth k y 0) a \/ (length y < a)%nat.
Proof.
  induction y as [|y0 y IH] using rev_ind; intros a.
  - destruct a; [left; simpl; lra|right; simpl; lia].
  - destruct (le_lt_dec a (length y)) as [Hle|Hgt].
    + left. rewrite skipn_app.
      replace (a - length y)%nat with 0%nat by lia. cbn [skipn].
      assert (Hsum : forall l b, row_sum U i (l ++ [y0]) b =
                row_sum U i l b + U i (b + length l)%nat * y0).
      { clear. induction l as [|z l IHl]; intros b; simpl.
        - rewrite Nat.add_0_r. scalar_R. lra.
        - rewrite IHl. replace (S b + length l)%nat with (b + S (length l))%nat by lia.
          scalar_R. lra. }
      rewrite Hsum. rewrite length_skipn.
      replace (a + (length y - a))%nat with (length y) by lia.
      rewrite length_app. cbn [length]. rewrite Nat.add_1_r. cbn [sum_upto].
      rewrite app_nth2 by lia. rewrite Nat.sub_diag. cbn [nth].
      destruct (IH a) as [Heq|Hlt]; [|lia]. rewrite Heq.
      assert (Hext : forall n, (n <= length y)%nat ->
                sum_upto (fun k => U i k * nth k (y ++ [y0]) 0) n =
                sum_upto (fun k => U i k * nth k y 0) n).
      { clear. induction n as [|n IHn]; intros Hn; simpl; [reflexivity|].
        rewrite IHn by lia. rewrite app_nth1 by lia. reflexivity. }
      rewrite !Hext by lia. lra.
    + destruct (Nat.eq_dec a (S (length y))) as [->|Hne].
      * left. rewrite skipn_all2 by (rewrite length_app; simpl; lia).
        rewrite length_app. cbn [length]. rewrite Nat.add_1_r. simpl row_sum.
        scalar_R. lra.
      * right. rewrite length_app. simpl. lia.
Qed.

Lemma back_substitute_rows (U : nat -> nat -> R) (rhs : nat -> R) (m : nat) :
  forall k ys,
    (k <= m)%nat ->
    back_substitute U rhs m k = Some ys ->
    length ys = k /\
    forall j, (j < k)%nat ->
      row_sum U (m - k + j) (skipn j ys) (m - k + j) = rhs (m - k + j)%nat.
Proof.
  induction k as [|k IH]; intros ys Hk; cbn [back_substitute].
  - intros [= <-]. split; [reflexivity|]. intros j Hj. lia.
  - destruct (back_substitute U rhs m k) as [ys'|]; [|discriminate].
    destruct (IH ys' ltac:(lia) eq_refl) as [Hlen Hrows].
    rewrite R_seqb. destruct (Req_dec_T _ _) as [|Hd]; [discriminate|].
    intros [= <-]. split; [simpl; now rewrite Hlen|].
    intros [|j] Hj.
    + rewrite Nat.add_0_r. cbn [skipn row_sum]. scalar_R. field. exact Hd.
    + cbn [skipn]. replace (m - S k + S j)%nat with (m - k + j)%nat by lia.
      apply Hrows. lia.
Qed.

(** When [solve] returns [y] for an upper triangular [U], [y] has [m]
    entries and [U[:m, :m] @ y = rhs[:m]]. *)
Theorem solve_sound (U : nat -> nat -> R) (rhs : nat -> R) (m : nat) (y : list R) :
  (forall i k, (k < i)%nat -> U i k = 0) ->
  solve U rhs m = Some y ->
  length y = m /\
  forall i, (i < m)%nat -> sum_upto (fun k => U i k * nth k y 0) m = rhs i.
Proof.
  intros Htri Hsolve. unfold solve in Hsolve.
  destruct (back_substitute_rows U rhs m m y (le_n m) Hsolve) as [Hlen Hrows].
  split; [exact Hlen|]. intros i Hi.
  specialize (Hrows i Hi). rewrite Nat.sub_diag in Hrows. simpl in Hrows.
  destruct (row_sum_skipn U i y i) as [Heq|Hlt]; [|lia].
  rewrite Heq, Hlen in Hrows.
  rewrite (sum_upto_zero (fun k => U i k * nth k y 0) i) in Hrows.
  - lra.
  - intros k Hk. rewrite Htri by exact Hk. lra.
Qed.

(** The back-substitution fails exactly when a diagonal entry of the block
    is zero. *)
Lemma solve_singular (U : nat -> nat -> R) (rhs : nat -> R) (m : nat) :
  solve U rhs m = None <-> exists i, (i < m)%nat /\ U i i = 0.
Proof.
  unfold solve.
  assert (Hk : forall k, (k <= m)%nat ->
            (back_substitute U rhs m k = None <->
             exists i, (m - k <= i < m)%nat /\ U i i = 0)).
  { induction k as [|k IH]; intros Hle; cbn [back_substitute].
    - split; [discriminate|]. intros (i & Hi & _). lia.
    - destruct (back_substitute U rhs m k) as [ys|] eqn:Hbs.
      + rewrite R_seqb.
        destruct (Req_dec_T _ _) as [Hz|Hnz].
        * split; [|reflexivity]. intros _. exists (m - S k)%nat. split; [lia|exact Hz].
        * split; [discriminate|]. intros (i & Hi & Hz).
          destruct (Nat.eq_dec i (m - S k)) as [->|Hne]; [contradiction|].
          destruct (IH ltac:(lia)) as [_ Hback].
          discriminate Hback. exists i. split; [lia|exact Hz].
      + split; [|reflexivity]. intros _.
        destruct (IH ltac:(lia)) as [Hfwd _].
        destruct (Hfwd eq_refl) as (i & Hi & Hz). exists i. split; [lia|exact Hz]. }
  rewrite (Hk m (le_n m)). rewrite Nat.sub_diag.
  split; intros (i & Hi & Hz); exists i; (split; [lia|exact Hz]).
Qed.

End SolveExact.

(** ** The general statements at the concrete input *)

Section Witnesses.
Local Open Scope R_scope.

Lemma gmres_restart_history_witness :
  exists (k : nat) (hs : list (list R)),
    (1 <= k <= Z.to_nat 20)%nat /\
    run_cycles lstsq_1x1 A2 b2 1 tol_default k (initial_guess (length b2) None) =
      Ok ([1 / 9; 4 / 21], hs) /\
    length hs = k /\
    [1; 4 / 5; 0] = stitch hs /\
    (forall k', (1 <= k' < k)%nat ->
       exists r, last_entry (stitch (firstn k' hs)) = Some r /\
                 sleb r tol_default = false) /\
    ((k < Z.to_nat 20)%nat ->
       exists r, last_entry [1; 4 / 5; 0] = Some r /\ sleb r tol_default = true).
Proof.
  apply (gmres_restart_history lstsq_1x1 A2 b2 None 1 tol_default 20
                               [1 / 9; 4 / 21] [1; 4 / 5; 0]).
  - lia.
  - apply A2_restart. intros M rhs _. reflexivity.
Defined.

Lemma A2_H2_upper_triangular : forall i k, (k < i)%nat -> A2_H2 i k = 0.
Proof.
  intros i k Hik.
  destruct i as [|[|i]], k as [|[|k]]; try lia; reflexivity.
Qed.

Lemma solve_sound_witness :
  length A2_x = 2%nat /\
  forall i, (i < 2)%nat ->
    sum_upto (fun k => A2_H2 i k * nth k A2_x 0) 2 = A2_g i.
Proof.
  apply (solve_sound A2_H2 A2_g 2 A2_x).
  - exact A2_H2_upper_triangular.
  - exact A2_solve.
Defined.

Lemma gmres_loop_upper_triangular_witness :
  st_H (fst (arnoldi_step A2 1 A2_st1)) 1%nat 0%nat = 0 /\
  st_H (fst (arnoldi_step A2 1 A2_st1)) 2%nat 0%nat = 0 /\
  st_H (fst (arnoldi_step A2 1 A2_st1)) 2%nat 1%nat = 0.
Proof.
  pose proof (gmres_loop_upper_triangular A2 2 (zeros 2) tol_default [1; 0] 1 1
                A2_st1 [1; 4 / 5] (A2_loop_first_pass (zeros 2))) as Htri.
  split_and; apply Htri; lia.
Defined.

Lemma gmres_h_refines_gmres_witness :
  exists fresh,
    snd (gmres_h lstsq_1x1 A2 0 (Some 1%nat) tol_default (Some 1%Z)
                 [Vec b2; Vec A2_x1]) = [Vec b2; Vec A2_x1] ++ fresh /\
    match gmres lstsq_1x1 A2 b2 (Some A2_x1) tol_default (Some 1%Z) with
    | Ok (x, rv) =>
        exists xr,
          fst (gmres_h lstsq_1x1 A2 0 (Some 1%nat) tol_default (Some 1%Z)
                       [Vec b2; Vec A2_x1]) = Ok (xr, rv) /\
          nth_error ([Vec b2; Vec A2_x1] ++ fresh) xr = Some (Vec x) /\
          (length [Vec b2; Vec A2_x1] <= xr)%nat
    | Raise e =>
        fst (gmres_h lstsq_1x1 A2 0 (Some 1%nat) tol_default (Some 1%Z)
                     [Vec b2; Vec A2_x1]) = Raise e
    end.
Proof.
  apply (gmres_h_refines_gmres lstsq_1x1 A2 0 (Some 1%nat) tol_default (Some 1%Z)
                      [Vec b2; Vec A2_x1] b2 (Some A2_x1)); reflexivity.
Defined.

End Witnesses.

(** ** Runs in binary64

    The sums of [dot] are taken left to right, and [solve] is the
    back-substitution; NumPy computes them with BLAS and LAPACK, whose
    results may differ from these in the last digits.  The runs below are
    those whose outcome does not hang on the last digit. *)

Section Binary64.
Local Open Scope float_scope.
#[local] Set Warnings "-inexact-float".

(** [givens_rotation(3.0, 4.0)] and the entry it is documented to
    eliminate. *)
Example givens_rotation_3_4_binary64 :
  givens_rotation 3 4 = (-0.60000000000000009, 0.80000000000000004) /\
  rotated_second (givens_rotation 3 4) 3 4 = -4.8000000000000007.
Proof. split; vm_compute; reflexivity. Qed.

(** [gmres(A2, b2)] with the defaults: the history ends in [0.0], the
    residual of the returned [x] has norm [5.714...]. *)
Example gmres_A2_binary64 :
  gmres lstsq_1x1_f A2f b2f None tol_default_f None =
    Ok ([-0.39682539682539675; -0.19047619047619044],
        [1; 0.80000000000000004; 0]) /\
  norm (vsub b2f (A2f [-0.39682539682539675; -0.19047619047619044])) =
    5.7142857142857135.
Proof. split; vm_compute; reflexivity. Qed.

(** C5, as stated, fails on [A = 1e200 * [[1, 2], [3, 4]]], [b = [1, 1]],
    [maxiter = 1]: all entries are finite, the initial residual is not zero
    and the check of the only pass does not succeed, but [norm(w)]
    overflows, [H[0, 0]] becomes [inf], and [np.linalg.lstsq] raises
    [LinAlgError] on the block [[inf]]: [gmres] raises instead of
    returning.  (The overflow does not depend on the order of the sums.) *)
Lemma gmres_exhausted_lstsq_raises :
  seqb (initial_residual A_big b11 None) s0 = false /\
  sleb (pass_residual A_big (entry_state A_big b11 None) 0) tol_default_f = false /\
  st_H (after_passes A_big (entry_state A_big b11 None) 1) 0%nat 0%nat = infinity /\
  gmres lstsq_1x1_f A_big b11 None tol_default_f (Some 1%Z) = Raise LinAlgError.
Proof. repeat split; vm_compute; reflexivity. Qed.

(** A breakdown in binary64 whose history entry is not [0.0]: for
    [b = [1e200, 1e200]] the initial residual norm overflows to [inf], the
    first column of [V] is zero and so is [w]; the rotation is [(1, 0)], but
    the entry appended is [|-0.0 * inf + 1.0 * 0.0|], which is [nan], and
    the check [nan <= tol] does not succeed. *)
Example gmres_breakdown_binary64_overflow :
  seqb (norm (arnoldi_w A2f 0 (entry_state A2f [1e200; 1e200] None))) s0 = true /\
  step_rotation A2f 0 (entry_state A2f [1e200; 1e200] None) = (1, 0) /\
  is_nan (pass_residual A2f (entry_state A2f [1e200; 1e200] None) 0) = true /\
  sleb (pass_residual A2f (entry_state A2f [1e200; 1e200] None) 0)
       tol_default_f = false.
Proof. repeat split; vm_compute; reflexivity. Qed.

End Binary64.

(** ** Where the loop stops, what can be raised, how long the history is *)

Section StoppingRule.
Context {F : Type} `{Scalar F}.
Variable lstsq : nat -> (nat -> nat -> F) -> (nat -> F) -> option (list F).

(** The entries the loop appends: none of them is [<= tol] except the last
    one of a run that returns inside the loop; the only exception the loop
    raises is [LinAlgError]. *)
Lemma gmres_loop_trace (A : operator) n x tol js :
  forall st rv,
    match gmres_loop A n x tol js st rv with
    | Returned (Ok (_, rv')) =>
        exists mid last,
          rv' = rv ++ mid ++ [last] /\
          Forall (fun r => sleb r tol = false) mid /\
          sleb last tol = true /\
          (length mid < length js)%nat
    | Returned (Raise e) => e = LinAlgError
    | Exhausted _ rv' =>
        exists mid,
          rv' = rv ++ mid /\
          Forall (fun r => sleb r tol = false) mid /\
          length mid = length js
    end.
Proof.
  induction js as [|j js IH]; intros st rv; cbn [gmres_loop].
  - exists []. rewrite app_nil_r. split_and; [reflexivity|constructor|reflexivity].
  - destruct (sleb (snd (arnoldi_step A j st)) tol) eqn:Hle.
    + destruct (solve _ _ _); [|reflexivity].
      exists [], (snd (arnoldi_step A j st)).
      split_and; [reflexivity|constructor|exact Hle|simpl; lia].
    + specialize (IH (fst (arnoldi_step A j st))
                     (rv ++ [snd (arnoldi_step A j st)])).
      destruct (gmres_loop _ _ _ _ _ _ _) as [[[x' rv']|e]|st' rv'].
      * destruct IH as (mid & last & -> & Hmid & Hlast & Hlen).
        exists (snd (arnoldi_step A j st) :: mid), last.
        split_and; [now rewrite <- app_assoc|now constructor|exact Hlast|simpl; lia].
      * exact IH.
      * destruct IH as (mid & -> & Hmid & Hlen).
        exists (snd (arnoldi_step A j st) :: mid).
        split_and; [now rewrite <- app_assoc|now constructor|simpl; lia].
Qed.

(** The stopping rule of [gmres], read off a returned history (when the
    initial residual is not zero): after the initial residual norm, every
    entry but the last is not [<= tol]; either the loop ran all [maxiter]
    steps, and the history has [maxiter + 1] entries, or it returned at the
    first entry that is [<= tol], which is the last one. *)
Theorem gmres_stopping_rule (A : operator) (b : list F) (x0 : option (list F))
    (tol : F) (maxiter : option Z) (x rv : list F) :
  seqb (initial_residual A b x0) s0 = false ->
  gmres lstsq A b x0 tol maxiter = Ok (x, rv) ->
  exists mid,
    Forall (fun r => sleb r tol = false) mid /\
    ((rv = initial_residual A b x0 :: mid /\
      length mid = Z.to_nat (max_steps (length b) maxiter)) \/
     (exists last,
        rv = initial_residual A b x0 :: mid ++ [last] /\
        sleb last tol = true /\
        (length mid < Z.to_nat (max_steps (length b) maxiter))%nat)).
Proof.
  intros Hbeta. unfold gmres. fold (initial_residual A b x0). rewrite Hbeta.
  destruct (Z.ltb _ 0); [discriminate|].
  match goal with
  | |- context [gmres_loop ?A ?n ?x ?tol ?js ?st ?rv0] =>
      pose proof (gmres_loop_trace A n x tol js st rv0) as Htrace;
      destruct (gmres_loop A n x tol js st rv0) as [[[x' rv']|e]|st' rv']
  end.
  - intros [= <- <-]. destruct Htrace as (mid & last & -> & Hmid & Hlast & Hlen).
    rewrite length_seq in Hlen.
    exists mid. split; [exact Hmid|]. right. exists last. now split_and.
  - discriminate.
  - destruct (lstsq _ _ _) as [y|]; [|discriminate].
    intros [= <- <-]. destruct Htrace as (mid & -> & Hmid & Hlen).
    rewrite length_seq in Hlen.
    exists mid. split; [exact Hmid|]. left. now split.
Qed.

(** A history [gmres] returns has between 1 and [maxiter + 1] entries. *)
Lemma gmres_history_length_bounds (A : operator) b x0 tol maxiter x rv :
  gmres lstsq A b x0 tol maxiter = Ok (x, rv) ->
  (1 <= length rv <= Z.to_nat (max_steps (length b) maxiter) + 1)%nat.
Proof.
  unfold gmres. destruct (seqb _ s0).
  - intros [= <- <-]. simpl. lia.
  - destruct (Z.ltb _ 0); [discriminate|].
    match goal with
    | |- context [gmres_loop ?A ?n ?x ?tol ?js ?st ?rv0] =>
        pose proof (gmres_loop_trace A n x tol js st rv0) as Htrace;
        destruct (gmres_loop A n x tol js st rv0) as [[[x' rv']|e]|st' rv']
    end.
    + intros [= <- <-]. destruct Htrace as (mid & last & -> & _ & _ & Hlen).
      rewrite length_seq in Hlen. cbn [length app].
      rewrite length_app. simpl. lia.
    + discriminate.
    + destruct (lstsq _ _ _) as [y|]; [|discriminate].
      intros [= <- <-]. destruct Htrace as (mid & -> & _ & Hlen).
      rewrite length_seq in Hlen. simpl. lia.
Qed.





(** The first cycle decides: if the inner solver raises in it, so does
    [gmres_restart]; if it returns a history whose last entry is [<= tol],
    [gmres_restart] returns exactly its result, whatever [maxcycles >= 1]
    is. *)
Theorem gmres_restart_first_cycle (A : operator) (b : list F)
    (x0 : option (list F)) (m : Z) (tol : F) (maxcycles : Z) :
  (0 < maxcycles)%Z ->
  match gmres lstsq A b (Some (initial_guess (length b) x0)) tol (Some m) with
  | Raise e => gmres_restart lstsq A b x0 m tol maxcycles = Raise e
  | Ok (x, rv) =>
      match last_entry rv with
      | Some r =>
          sleb r tol = true ->
          gmres_restart lstsq A b x0 m tol maxcycles = Ok (x, rv)
      | None => False
      end
  end.
Proof.
  intros Hpos. unfold gmres_restart.
  replace (Z.to_nat maxcycles) with (S (Z.to_nat maxcycles - 1)) by lia.
  cbn [seq restart_loop].
  destruct (gmres lstsq A b (Some (initial_guess (length b) x0)) tol (Some m))
    as [[x rv]|e] eqn:Hg; [|reflexivity].
  cbn [Nat.eqb app].
  destruct (last_entry_nonempty _ (gmres_history_nonempty _ _ _ _ _ _ _ _ Hg))
    as [r ->].
  intros ->. reflexivity.
Qed.

(** A count of cycles that is zero or negative leaves nothing to run: the
    result is the initial guess and the empty history. *)
Theorem gmres_restart_nonpositive_maxcycles (A : operator) (b : list F)
    (x0 : option (list F)) (m : Z) (tol : F) (maxcycles : Z) :
  (maxcycles <= 0)%Z ->
  gmres_restart lstsq A b x0 m tol maxcycles =
  Ok (initial_guess (length b) x0, []).
Proof.
  intros Hle. unfold gmres_restart.
  replace (Z.to_nat maxcycles) with 0%nat by lia. reflexivity.
Qed.

Lemma run_cycles_lengths (A : operator) b m tol k :
  forall x x' hs,
    run_cycles lstsq A b m tol k x = Ok (x', hs) ->
    Forall (fun h => (1 <= length h <= Z.to_nat m + 1)%nat) hs.
Proof.
  induction k as [|k IH]; intros x x' hs; cbn [run_cycles].
  - intros [= <- <-]. constructor.
  - destruct (gmres lstsq A b (Some x) tol (Some m)) as [[x1 rv]|e] eqn:Hg;
      [|discriminate].
    destruct (run_cycles lstsq A b m tol k x1) as [[x2 hs']|e] eqn:Hk;
      [|discriminate].
    intros [= <- <-]. constructor.
    + exact (gmres_history_length_bounds _ _ _ _ _ _ _ Hg).
    + exact (IH _ _ _ Hk).
Qed.

Lemma drop_firsts_length (hs : list (list F)) (m : nat) :
  Forall (fun h => (1 <= length h <= m + 1)%nat) hs ->
  (length (drop_firsts hs) <= length hs * m)%nat.
Proof.
  induction 1 as [|h hs Hh _ IH]; [simpl; lia|].
  unfold drop_firsts in *. cbn [map concat]. rewrite length_app.
  destruct h as [|a h]; simpl in *; lia.
Qed.

(** The history of [gmres_restart] has at most [1 + maxcycles * m]
    entries, and at least one when [maxcycles >= 1]. *)
Theorem gmres_restart_history_length (A : operator) (b : list F)
    (x0 : option (list F)) (m : Z) (tol : F) (maxcycles : Z) (x rs : list F) :
  gmres_restart lstsq A b x0 m tol maxcycles = Ok (x, rs) ->
  (length rs <= 1 + Z.to_nat maxcycles * Z.to_nat m)%nat /\
  ((0 < maxcycles)%Z -> (1 <= length rs)%nat).
Proof.
  unfold gmres_restart. intros Hrun.
  destruct (restart_loop_trace lstsq A b m tol _ _ _ _ _ _ Hrun)
    as (k & hs & Hk & Hk1 & Hcycles & Hlen & -> & _ & _).
  pose proof (run_cycles_lengths _ _ _ _ _ _ _ _ Hcycles) as Hall.
  cbn [app]. unfold appended. cbn [Nat.eqb]. unfold stitch.
  destruct hs as [|h hs]; [simpl in *; split; lia|].
  apply Forall_cons_iff in Hall. destruct Hall as [Hh Hrest].
  pose proof (drop_firsts_length _ _ Hrest) as Hdrop.
  rewrite length_app. simpl in Hlen. split; [nia|lia].
Qed.

End StoppingRule.

(** ** The history in exact arithmetic *)

Section ExactHistory.
Local Open Scope R_scope.
Variable lstsq : nat -> (nat -> nat -> R) -> (nat -> R) -> option (list R).

Lemma norm_nonneg (v : list R) : 0 <= norm v.
Proof. unfold norm. scalar_R. apply sqrt_pos. Qed.

Lemma givens_rotation_unit_circle (a b : R) :
  fst (givens_rotation a b) * fst (givens_rotation a b) +
  snd (givens_rotation a b) * snd (givens_rotation a b) = 1.
Proof.
  destruct (Req_dec_T b 0) as [->|Hb].
  - rewrite givens_rotation_b_zero. simpl. lra.
  - destruct (Rlt_dec (Rabs a) (Rabs b)) as [Hab|Hab].
    + rewrite (givens_rotation_steep _ _ Hb Hab). cbn [fst snd].
      destruct (sqrt_one_plus_square (- a / b)). now apply unit_circle.
    + apply Rnot_lt_le in Hab.
      rewrite (givens_rotation_flat _ _ Hb Hab). cbn [fst snd].
      destruct (sqrt_one_plus_square (- b / a)).
      rewrite Rplus_comm. now apply unit_circle.
Qed.

Lemma givens_rotation_sine_bound (a b : R) : Rabs (snd (givens_rotation a b)) <= 1.
Proof.
  pose proof (givens_rotation_unit_circle a b) as Hunit.
  set (c := fst (givens_rotation a b)) in *.
  set (s := snd (givens_rotation a b)) in *.
  apply Rabs_le. split; nra.
Qed.

Lemma nonincreasing_snoc (l : list R) (r : R) :
  nonincreasing l ->
  (forall a, last_entry l = Some a -> r <= a) ->
  nonincreasing (l ++ [r]).
Proof.
  induction l as [|a [|b l] IH]; intros Hl Hlast.
  - exact I.
  - simpl. split; [|exact I]. apply Hlast. reflexivity.
  - destruct Hl as [Hba Hl]. split; [exact Hba|].
    apply IH; [exact Hl|].
    intros a' Ha'. apply Hlast.
    change (a :: b :: l) with ([a] ++ (b :: l)).
    rewrite last_entry_app by discriminate. exact Ha'.
Qed.

(** One pass of the loop, entered with [g[j + 1] = 0]: the entry it appends
    is [|s| * |g[j]|], at most [|g[j]|], and it is [|g[j + 1]|] afterwards. *)
Lemma arnoldi_step_residual (A : operator) j st :
  st_g st (j + 1)%nat = 0 ->
  snd (arnoldi_step A j st) = Rabs (st_g (fst (arnoldi_step A j st)) (j + 1)%nat) /\
  0 <= snd (arnoldi_step A j st) <= Rabs (st_g st j).
Proof.
  intros Hg. split; [reflexivity|].
  unfold arnoldi_step. cbv zeta. cbn [snd].
  rewrite upd_other by lia. rewrite upd_same. rewrite Hg. scalar_R.
  set (s := snd (step_rotation A j st)). set (c := fst (step_rotation A j st)).
  replace (- s * st_g st j + c * 0) with (- s * st_g st j) by lra.
  rewrite Rabs_mult, Rabs_Ropp.
  pose proof (givens_rotation_sine_bound (rotated_H A j st j j)
                (rotated_H A j st (j + 1)%nat j)) as Hs.
  fold (step_rotation A j st) in Hs. fold s in Hs.
  pose proof (Rabs_pos s). pose proof (Rabs_pos (st_g st j)). split; nra.
Qed.

Lemma gmres_loop_nonincreasing (A : operator) n x tol k :
  forall j st rv,
    loop_inv n j st ->
    last_entry rv = Some (Rabs (st_g st j)) ->
    nonincreasing rv ->
    Forall (fun r => 0 <= r) rv ->
    match gmres_loop A n x tol (seq j k) st rv with
    | Returned (Ok (_, rv')) => nonincreasing rv' /\ Forall (fun r => 0 <= r) rv'
    | Returned (Raise _) => True
    | Exhausted _ rv' => nonincreasing rv' /\ Forall (fun r => 0 <= r) rv'
    end.
Proof.
  induction k as [|k IH]; intros j st rv Hinv Hlast Hmono Hpos;
    cbn [seq gmres_loop].
  - now split.
  - destruct Hinv as (HH & Hg & HV).
    destruct (arnoldi_step_residual A j st (Hg (j + 1)%nat ltac:(lia)))
      as (Hres & Hres0 & Hresle).
    assert (Hmono' : nonincreasing (rv ++ [snd (arnoldi_step A j st)])).
    { apply nonincreasing_snoc; [exact Hmono|].
      intros a Ha. rewrite Hlast in Ha. injection Ha as <-. exact Hresle. }
    assert (Hpos' : Forall (fun r => 0 <= r) (rv ++ [snd (arnoldi_step A j st)])).
    { apply Forall_app. split; [exact Hpos|]. now constructor. }
    destruct (sleb _ tol).
    + destruct (solve _ _ _); [now split|exact I].
    + apply IH.
      * apply loop_inv_step. now split_and.
      * rewrite last_entry_snoc. f_equal.
        replace (S j) with (j + 1)%nat by lia. exact Hres.
      * exact Hmono'.
      * exact Hpos'.
Qed.

(** In exact arithmetic the history [gmres] returns never increases and has
    no negative entry: every entry is between zero and the initial residual
    norm. *)
Theorem gmres_history_nonincreasing (A : operator) (b : list R)
    (x0 : option (list R)) (tol : R) (maxiter : option Z) (x rv : list R) :
  gmres lstsq A b x0 tol maxiter = Ok (x, rv) ->
  nonincreasing rv /\ Forall (fun r => 0 <= r) rv.
Proof.
  unfold gmres. destruct (seqb _ s0).
  - intros [= <- <-]. split; [exact I|]. constructor; [scalar_R; lra|constructor].
  - destruct (Z.ltb _ 0); [discriminate|].
    set (beta := norm _).
    match goal with
    | |- context [gmres_loop ?A ?n ?x ?tol (seq 0 ?k) ?st ?rv0] =>
        pose proof (gmres_loop_nonincreasing A n x tol k 0 st rv0) as Hloop
    end.
    assert (Hbeta : 0 <= beta) by apply norm_nonneg.
    specialize (Hloop (loop_inv_init _ _ _)).
    destruct (gmres_loop _ _ _ _ _ _ _) as [[[x' rv']|e]|st' rv'].
    + intros [= <- <-]. apply Hloop.
      * cbn. rewrite Rabs_pos_eq by exact Hbeta. reflexivity.
      * exact I.
      * constructor; [exact Hbeta|constructor].
    + discriminate.
    + destruct (lstsq _ _ _) as [y|]; [|discriminate].
      intros [= <- <-]. apply Hloop.
      * cbn. rewrite Rabs_pos_eq by exact Hbeta. reflexivity.
      * exact I.
      * constructor; [exact Hbeta|constructor].
Qed.

Lemma vadd_zeros_r (x : list R) : vadd x (zeros (length x)) = x.
Proof.
  induction x as [|a x IH]; [reflexivity|].
  unfold vadd, zeros in *. cbn [length repeat combine map fst snd].
  rewrite IH. scalar_R. f_equal. lra.
Qed.

(** With [maxiter = 0] no step is taken.  When [lstsq] returns for the empty
    system (or the initial residual is zero, and [lstsq] is not called),
    [gmres] returns the initial guess and the history that holds the initial
    residual norm alone, whatever [lstsq] returns; when [lstsq] raises and the
    initial residual is not zero, [gmres] raises [LinAlgError]. *)
Theorem gmres_zero_maxiter (A : operator) (b : list R) (x0 : option (list R))
    (tol : R) :
  length (initial_guess (length b) x0) = length b ->
  (lstsq 0%nat (st_H (entry_state A b x0)) (st_g (entry_state A b x0)) <> None \/
   initial_residual A b x0 = 0 ->
   gmres lstsq A b x0 tol (Some 0%Z) =
   Ok (initial_guess (length b) x0, [initial_residual A b x0])) /\
  (lstsq 0%nat (st_H (entry_state A b x0)) (st_g (entry_state A b x0)) = None ->
   initial_residual A b x0 <> 0 ->
   gmres lstsq A b x0 tol (Some 0%Z) = Raise LinAlgError).
Proof.
  intros Hlen. unfold gmres, entry_state. cbv zeta.
  fold (initial_residual A b x0).
  rewrite R_seqb. destruct (Req_dec_T (initial_residual A b x0) s0) as [Hz|Hnz].
  - split.
    + intros _. rewrite Hz. reflexivity.
    + intros _ Hne. contradiction.
  - cbn [max_steps Z.ltb Z.compare Z.to_nat seq gmres_loop].
    destruct (lstsq 0%nat _ _) as [y|].
    + split; [|discriminate]. intros _.
      cbn [mat_dot seq fold_left].
      rewrite <- Hlen at 2. rewrite vadd_zeros_r. reflexivity.
    + split; [|reflexivity]. intros [Hsome|Hzero]; contradiction.
Qed.

Lemma restart_loop_at_solution (A : operator) b m tol x n :
  @seqb R _ (norm (vsub b (A x))) s0 = true ->
  forall c residuals,
    ((c = 0%nat /\ residuals = [] /\ (0 < n)%nat) \/
     (c <> 0%nat /\ residuals = [0])) ->
    restart_loop lstsq A b m tol (seq c n) x residuals = Ok (x, [0]).
Proof.
  intros Hbeta.
  assert (Hg : gmres lstsq A b (Some x) tol (Some m) = Ok (x, [0])).
  { unfold gmres. cbn [initial_guess]. rewrite Hbeta. reflexivity. }
  induction n as [|n IH]; intros c residuals Hc; cbn [seq restart_loop].
  - destruct Hc as [(_ & _ & Hn)|(_ & ->)]; [lia|reflexivity].
  - rewrite Hg.
    assert (Hres : (if Nat.eqb c 0 then residuals ++ [0] else residuals ++ tl [0])
                   = [0]).
    { destruct Hc as [(-> & -> & _)|(Hc & ->)]; [reflexivity|].
      apply Nat.eqb_neq in Hc. rewrite Hc. reflexivity. }
    rewrite Hres. change (last_entry [0]) with (Some 0).
    cbv beta iota. destruct (sleb 0 tol); [reflexivity|].
    apply IH. right. split; [lia|reflexivity].
Qed.

(** Started at a solution (initial residual zero), [gmres_restart] with at
    least one cycle returns the initial guess and the history [[0]],
    whatever [m], [tol] (negative included) and the number of cycles. *)
Theorem gmres_restart_at_solution (A : operator) (b : list R)
    (x0 : option (list R)) (m : Z) (tol : R) (maxcycles : Z) :
  initial_residual A b x0 = 0 ->
  (0 < maxcycles)%Z ->
  gmres_restart lstsq A b x0 m tol maxcycles =
  Ok (initial_guess (length b) x0, [0]).
Proof.
  intros Hbeta Hpos. unfold gmres_restart.
  apply restart_loop_at_solution.
  - apply R_seqb_true. exact Hbeta.
  - left. split_and; try reflexivity. lia.
Qed.

End ExactHistory.

(** ** The Arnoldi basis stays orthogonal *)

Section Orthogonality.
Local Open Scope R_scope.

Lemma fold_dot_acc (l : list (R * R)) (acc : R) :
  fold_left (fun a p => a + fst p * snd p) l acc =
  acc + fold_left (fun a p => a + fst p * snd p) l 0.
Proof.
  revert acc. induction l as [|p l IH]; intros acc; simpl; [lra|].
  rewrite IH. rewrite (IH (0 + fst p * snd p)). lra.
Qed.

Lemma dot_cons (a b : R) (u v : list R) : dot (a :: u) (b :: v) = a * b + dot u v.
Proof.
  unfold dot. scalar_R. cbn [combine fold_left fst snd].
  rewrite fold_dot_acc. lra.
Qed.

Lemma dot_nil_l (v : list R) : dot [] v = 0.
Proof. reflexivity. Qed.

Lemma dot_nil_r (u : list R) : dot u [] = 0.
Proof. destruct u; reflexivity. Qed.

Lemma dot_comm (u v : list R) : dot u v = dot v u.
Proof.
  revert v. induction u as [|a u IH]; intros [|b v];
    rewrite ?dot_nil_l, ?dot_nil_r, ?dot_cons; try reflexivity.
  rewrite IH. lra.
Qed.

Lemma dot_zeros_l (n : nat) (v : list R) : dot (zeros n) v = 0.
Proof.
  revert v. induction n as [|n IH]; intros [|b v]; try reflexivity.
  change (zeros (S n)) with (0 :: zeros n). rewrite dot_cons, IH. lra.
Qed.

Lemma dot_vscale_r (a : R) (u v : list R) : dot u (vscale a v) = a * dot u v.
Proof.
  revert v. induction u as [|c u IH]; intros [|b v];
    cbn [vscale map]; rewrite ?dot_nil_l, ?dot_nil_r, ?dot_cons; try lra.
  fold (vscale a v). rewrite IH. scalar_R. lra.
Qed.

Lemma dot_vdiv_r (h : R) (u v : list R) : dot u (vdiv v h) = dot u v / h.
Proof.
  revert v. induction u as [|c u IH]; intros [|b v];
    cbn [vdiv map]; rewrite ?dot_nil_l, ?dot_nil_r, ?dot_cons;
    try (unfold Rdiv; lra).
  fold (vdiv v h). rewrite IH. scalar_R. unfold Rdiv. lra.
Qed.

Lemma dot_vsub_r (u w v : list R) :
  length w = length v -> dot u (vsub w v) = dot u w - dot u v.
Proof.
  revert w v. induction u as [|c u IH]; intros [|a w] [|b v] Hlen;
    try discriminate; cbn [vsub combine map fst snd];
    rewrite ?dot_nil_l, ?dot_nil_r, ?dot_cons; try lra.
  fold (vsub w v). rewrite IH by (simpl in Hlen; lia). scalar_R. lra.
Qed.

Lemma dot_self_nonneg (v : list R) : 0 <= dot v v.
Proof.
  induction v as [|a v IH]; [rewrite dot_nil_l; lra|].
  rewrite dot_cons. nra.
Qed.

Lemma length_vsub (w v : list R) : length w = length v -> length (vsub w v) = length w.
Proof.
  intros Hlen. unfold vsub. rewrite length_map, length_combine. lia.
Qed.

Lemma length_vscale (a : R) (v : list R) : length (vscale a v) = length v.
Proof. unfold vscale. apply length_map. Qed.

Lemma length_vdiv (v : list R) (h : R) : length (vdiv v h) = length v.
Proof. unfold vdiv. apply length_map. Qed.

Lemma length_zeros (n : nat) : length (@zeros R _ n) = n.
Proof. unfold zeros. apply repeat_length. Qed.

(** A vector divided by its nonzero norm has unit norm. *)
Lemma dot_normalised (w : list R) :
  norm w <> 0 -> dot (vdiv w (norm w)) (vdiv w (norm w)) = 1.
Proof.
  intros Hn. rewrite dot_vdiv_r, dot_comm, dot_vdiv_r.
  assert (Hsq : norm w * norm w = dot w w).
  { unfold norm. scalar_R. apply sqrt_sqrt. apply dot_self_nonneg. }
  rewrite <- Hsq. field. exact Hn.
Qed.

(** After the passes [0 .. p - 1] of the modified Gram-Schmidt loop, [w] is
    orthogonal to the columns [0 .. p - 1]. *)
Lemma mgs_orthogonal (n j : nat) (V : nat -> list R) (Hm : nat -> nat -> R)
    (w : list R) :
  orthogonal_basis n j V ->
  length w = n ->
  forall p, (p <= j + 1)%nat ->
    length (snd (fold_left (mgs_step V j) (seq 0 p) (Hm, w))) = n /\
    forall i, (i < p)%nat ->
      dot (V i) (snd (fold_left (mgs_step V j) (seq 0 p) (Hm, w))) = 0.
Proof.
  intros (Hlen & Hunit & Horth) Hw.
  induction p as [|p IH]; intros Hp.
  - split; [exact Hw|]. intros i Hi. lia.
  - destruct (IH ltac:(lia)) as [Hlp Hop].
    rewrite seq_S, fold_left_app. cbn [Nat.add fold_left].
    set (Hw' := fold_left (mgs_step V j) (seq 0 p) (Hm, w)) in *.
    clearbody Hw'. unfold mgs_step. cbn [snd].
    assert (HlV : length (V p) = n) by (apply Hlen; lia).
    split.
    + rewrite length_vsub; [exact Hlp|]. rewrite length_vscale. lia.
    + intros i Hi.
      rewrite dot_vsub_r by (rewrite length_vscale; lia).
      rewrite dot_vscale_r.
      destruct (Nat.eq_dec i p) as [->|Hne].
      * destruct (Hunit p ltac:(lia)) as [H1|Hz].
        -- rewrite H1. scalar_R. lra.
        -- rewrite Hz, !dot_zeros_l. scalar_R. lra.
      * rewrite Hop by lia. rewrite (Horth i p) by lia. scalar_R. lra.
Qed.

(** One pass of the loop extends an orthogonal basis by one column. *)
Lemma arnoldi_step_orthogonal (A : operator) (n j : nat) (st : arnoldi_state) :
  length (A (st_V st j)) = n ->
  st_V st (j + 1)%nat = zeros n ->
  orthogonal_basis n j (st_V st) ->
  orthogonal_basis n (S j) (st_V (fst (arnoldi_step A j st))).
Proof.
  intros HA Hnext Hbasis.
  destruct (mgs_orthogonal n j (st_V st) (st_H st) (A (st_V st j)) Hbasis HA
              (j + 1)%nat (le_n _)) as [Hlw How].
  fold (arnoldi_expand A j st) in Hlw, How. fold (arnoldi_w A j st) in Hlw, How.
  destruct Hbasis as (Hlen & Hunit & Horth).
  rewrite arnoldi_step_V. unfold arnoldi_V.
  rewrite arnoldi_H_subdiagonal. unfold sneb. rewrite R_seqb.
  destruct (Req_dec_T (norm (arnoldi_w A j st)) s0) as [Hz|Hnz]; cbn [negb].
  - (* the column is left as allocated *)
    unfold orthogonal_basis. split_and.
    + intros k Hk. destruct (Nat.eq_dec k (j + 1)%nat) as [->|Hne].
      * rewrite Hnext. apply length_zeros.
      * apply Hlen. lia.
    + intros k Hk. destruct (Nat.eq_dec k (j + 1)%nat) as [->|Hne].
      * now right.
      * apply Hunit. lia.
    + intros i k Hi Hk Hik.
      destruct (Nat.eq_dec i (j + 1)%nat) as [->|Hi'].
      * rewrite Hnext. apply dot_zeros_l.
      * destruct (Nat.eq_dec k (j + 1)%nat) as [->|Hk'].
        -- rewrite Hnext, dot_comm. apply dot_zeros_l.
        -- apply Horth; lia.
  - (* the column is w / norm(w) *)
    unfold orthogonal_basis. split_and.
    + intros k Hk. destruct (Nat.eq_dec k (j + 1)%nat) as [->|Hne].
      * rewrite upd_same, length_vdiv. exact Hlw.
      * rewrite upd_other by exact Hne. apply Hlen. lia.
    + intros k Hk. destruct (Nat.eq_dec k (j + 1)%nat) as [->|Hne].
      * left. rewrite upd_same. now apply dot_normalised.
      * rewrite upd_other by exact Hne. apply Hunit. lia.
    + intros i k Hi Hk Hik.
      destruct (Nat.eq_dec i (j + 1)%nat) as [->|Hi'].
      * rewrite upd_same, upd_other by lia.
        rewrite dot_comm, dot_vdiv_r, How by lia. unfold Rdiv. lra.
      * rewrite (upd_other _ _ _ i) by exact Hi'.
        destruct (Nat.eq_dec k (j + 1)%nat) as [->|Hk'].
        -- rewrite upd_same, dot_vdiv_r, How by lia. unfold Rdiv. lra.
        -- rewrite upd_other by exact Hk'. apply Horth; lia.
Qed.

Lemma gmres_loop_orthogonal (A : operator) n x tol k :
  (forall v, length v = n -> length (A v) = n) ->
  forall j st rv st' rv',
    loop_inv n j st ->
    orthogonal_basis n j (st_V st) ->
    gmres_loop A n x tol (seq j k) st rv = Exhausted st' rv' ->
    orthogonal_basis n (j + k) (st_V st').
Proof.
  intros HA. induction k as [|k IH]; intros j st rv st' rv' Hinv Hbasis;
    cbn [seq gmres_loop].
  - intros [= <- <-]. now rewrite Nat.add_0_r.
  - destruct (sleb _ tol).
    + destruct (solve _ _ _); discriminate.
    + intros Hloop. rewrite <- Nat.add_succ_comm.
      eapply IH; [| |exact Hloop].
      * now apply loop_inv_step.
      * apply arnoldi_step_orthogonal; [| |exact Hbasis].
        -- apply HA. destruct Hbasis as (Hlen & _). apply Hlen. lia.
        -- destruct Hinv as (_ & _ & HV). apply HV. lia.
Qed.

(** What the columns are.  Column 0 is [r0 / beta].  The pass [k] writes
    column [k + 1]: it is [w / norm(w)] when the [w] of that pass has a
    nonzero norm, and it stays the zero column when the norm is zero. *)
Lemma gmres_loop_columns (A : operator) n (r0 : list R) beta j :
  st_V (after_passes A (init_state n r0 beta) j) 0%nat = vdiv r0 beta /\
  forall k, (k < j)%nat ->
    (norm (arnoldi_w A k (after_passes A (init_state n r0 beta) k)) <> 0 ->
     st_V (after_passes A (init_state n r0 beta) j) (k + 1)%nat =
     vdiv (arnoldi_w A k (after_passes A (init_state n r0 beta) k))
          (norm (arnoldi_w A k (after_passes A (init_state n r0 beta) k)))) /\
    (norm (arnoldi_w A k (after_passes A (init_state n r0 beta) k)) = 0 ->
     st_V (after_passes A (init_state n r0 beta) j) (k + 1)%nat = zeros n).
Proof.
  destruct (after_passes_V A (init_state n r0 beta) j) as [H0 Hk].
  split; [rewrite H0; apply upd_same|].
  intros k Hlt. rewrite (Hk k Hlt). unfold arnoldi_V.
  rewrite arnoldi_H_subdiagonal. unfold sneb. rewrite R_seqb.
  destruct (Req_dec_T _ s0) as [Hz|Hnz]; cbn [negb].
  - split; [intros Hne; contradiction|]. intros _.
    destruct (after_passes_inv A n r0 beta k) as (_ & _ & HV). apply HV. lia.
  - split; [intros _; apply upd_same|]. intros Hz. contradiction.
Qed.

(** In exact arithmetic, for an operator that maps arrays of length [n]
    to arrays of length [n] and a nonzero initial residual: whenever the
    loop of [gmres] enters the pass [j], the columns [V[:, 0 .. j]] have
    length [n] and are pairwise orthogonal; column 0 is [r0 / beta] and has
    unit norm; and for [k < j], column [k + 1] is the [w / norm(w)] of the
    pass [k], of unit norm, when that norm is not zero, and the zero column
    when it is. *)
Theorem gmres_basis_orthogonal (A : operator) (b : list R) (x0 : option (list R))
    (tol : R) (j : nat) (st : arnoldi_state) (rv : list R) :
  (forall v, length v = length b -> length (A v) = length b) ->
  length (initial_guess (length b) x0) = length b ->
  initial_residual A b x0 <> 0 ->
  gmres_loop A (length b) (initial_guess (length b) x0) tol (seq 0 j)
             (entry_state A b x0) [initial_residual A b x0] = Exhausted st rv ->
  (forall k, (k <= j)%nat -> length (st_V st k) = length b) /\
  (forall i k, (i <= j)%nat -> (k <= j)%nat -> i <> k ->
     dot (st_V st i) (st_V st k) = 0) /\
  st_V st 0%nat =
    vdiv (vsub b (A (initial_guess (length b) x0))) (initial_residual A b x0) /\
  dot (st_V st 0%nat) (st_V st 0%nat) = 1 /\
  (forall k, (k < j)%nat ->
     (norm (arnoldi_w A k (after_passes A (entry_state A b x0) k)) <> 0 ->
      st_V st (k + 1)%nat =
        vdiv (arnoldi_w A k (after_passes A (entry_state A b x0) k))
             (norm (arnoldi_w A k (after_passes A (entry_state A b x0) k))) /\
      dot (st_V st (k + 1)%nat) (st_V st (k + 1)%nat) = 1) /\
     (norm (arnoldi_w A k (after_passes A (entry_state A b x0) k)) = 0 ->
      st_V st (k + 1)%nat = zeros (length b))).
Proof.
  intros HA Hx Hbeta Hloop.
  assert (Hbasis : orthogonal_basis (length b) j (st_V st)).
  { pose proof Hloop as Hloop'.
    apply (gmres_loop_orthogonal A _ _ tol j HA 0 _ _ _ _
             (loop_inv_init _ _ _)) in Hloop'; [exact Hloop'|].
    assert (Hr0 : length (vsub b (A (initial_guess (length b) x0))) = length b).
    { apply length_vsub. symmetry. apply HA. exact Hx. }
    cbn [init_state st_V]. unfold orthogonal_basis. split_and.
    - intros k Hk. replace k with 0%nat by lia.
      rewrite upd_same, length_vdiv. exact Hr0.
    - intros k Hk. replace k with 0%nat by lia. left.
      rewrite upd_same. apply dot_normalised. exact Hbeta.
    - intros i k Hi Hk Hik. lia. }
  destruct Hbasis as (Hlen & _ & Horth).
  apply gmres_loop_exhausted in Hloop. destruct Hloop as (_ & -> & _).
  unfold entry_state in *. cbv zeta in *. fold (initial_residual A b x0) in *.
  destruct (gmres_loop_columns A (length b)
              (vsub b (A (initial_guess (length b) x0)))
              (initial_residual A b x0) j) as [Hcol0 Hcols].
  split_and.
  - exact Hlen.
  - exact Horth.
  - exact Hcol0.
  - rewrite Hcol0. apply dot_normalised. exact Hbeta.
  - intros k Hk. destruct (Hcols k Hk) as [Hunit Hzero]. split.
    + intros Hne. rewrite (Hunit Hne). split; [reflexivity|].
      now apply dot_normalised.
    + exact Hzero.
Qed.

Lemma gmres_basis_orthogonal_witness :
  (forall k, (k <= 2)%nat -> length (A3_V2 k) = 3%nat) /\
  (forall i k, (i <= 2)%nat -> (k <= 2)%nat -> i <> k ->
     dot (A3_V2 i) (A3_V2 k) = 0) /\
  A3_V2 0%nat = vdiv (vsub b3 (A3 (initial_guess 3 None))) 1 /\
  dot (A3_V2 0%nat) (A3_V2 0%nat) = 1 /\
  A3_V2 1%nat = vdiv [0; 12; 0] 12 /\
  A3_V2 2%nat = vdiv [0; 0; 4] 4.
Proof.
  pose proof (gmres_basis_orthogonal A3 b3 None tol_default 2 A3_st2
                                     [1; 4 / 5; 16 / 25]) as Hthm.
  rewrite A3_entry, A3_initial_residual in Hthm.
  destruct Hthm as (Hlen & Horth & Hcol0 & Hunit & Hcols).
  - intros v _. unfold A3, dense. now rewrite length_map.
  - reflexivity.
  - lra.
  - apply gmres_loop_exhausted. split_and.
    + pose proof tol_default_bounds.
      intros [|[|k]] Hk; [rewrite A3_residual_0|rewrite A3_residual_1|lia];
        apply R_sleb_false; lra.
    + now rewrite A3_after_2.
    + cbn [seq map app]. now rewrite A3_residual_0, A3_residual_1.
  - cbn [st_V A3_st2] in *. change (length b3) with 3%nat in *.
    split_and; [exact Hlen|exact Horth|exact Hcol0|exact Hunit| |].
    + destruct (Hcols 0%nat ltac:(lia)) as [Hne _].
      cbn [after_passes] in Hne. rewrite A3_w0, norm_0_12_0 in Hne.
      apply Hne. lra.
    + destruct (Hcols 1%nat ltac:(lia)) as [Hne _].
      rewrite A3_after_1, A3_w1, norm_0_0_4 in Hne.
      apply Hne. lra.
Defined.

End Orthogonality.

(** ** A right-hand side that is an eigenvector *)

Section OneStep.
Local Open Scope R_scope.
Variable lstsq : nat -> (nat -> nat -> R) -> (nat -> R) -> option (list R).

Lemma vsub_zeros_r (v : list R) : vsub v (zeros (length v)) = v.
Proof.
  induction v as [|a v IH]; [reflexivity|].
  unfold vsub, zeros in *. cbn [length repeat combine map fst snd].
  rewrite IH. scalar_R. f_equal. lra.
Qed.

Lemma vsub_self (v : list R) : vsub v v = zeros (length v).
Proof.
  induction v as [|a v IH]; [reflexivity|].
  unfold vsub, zeros in *. cbn [length repeat combine map fst snd].
  rewrite IH. scalar_R. f_equal. lra.
Qed.

Lemma vadd_zeros_l (v : list R) : vadd (zeros (length v)) v = v.
Proof.
  induction v as [|a v IH]; [reflexivity|].
  unfold vadd, zeros in *. cbn [length repeat combine map fst snd].
  rewrite IH. scalar_R. f_equal. lra.
Qed.

Lemma norm_zeros (n : nat) : norm (zeros n) = 0.
Proof. unfold norm. rewrite dot_zeros_l. scalar_R. apply sqrt_0. Qed.

Lemma vscale_vdiv (v : list R) (beta lam : R) :
  beta <> 0 -> lam <> 0 -> vscale (beta / lam) (vdiv v beta) = vdiv v lam.
Proof.
  intros Hbeta Hlam. unfold vscale, vdiv. rewrite map_map.
  apply map_ext. intros a. scalar_R. field. auto.
Qed.

(** In exact arithmetic, with the default [x0]: when [b] is an eigenvector
    of a linear operator for an eigenvalue [lam <> 0], [tol >= 0] and at
    least one step is allowed, the first Arnoldi step breaks down and
    [gmres] returns the exact solution [b / lam] with the history
    [[norm(b), 0]]. *)
Theorem gmres_eigenvector_one_step (A : operator) (b : list R) (tol : R)
    (maxiter : option Z) (lam : R) :
  A (zeros (length b)) = zeros (length b) ->
  norm b <> 0 ->
  A (vdiv b (norm b)) = vscale lam (vdiv b (norm b)) ->
  lam <> 0 ->
  0 <= tol ->
  (1 <= max_steps (length b) maxiter)%Z ->
  gmres lstsq A b None tol maxiter = Ok (vdiv b lam, [norm b; 0]).
Proof.
  intros HA0 Hb HAv Hlam Htol Hm.
  assert (Hr0 : vsub b (A (initial_guess (length b) None)) = b).
  { unfold initial_guess. rewrite HA0. apply vsub_zeros_r. }
  assert (Hbeta : initial_residual A b None = norm b).
  { unfold initial_residual. now rewrite Hr0. }
  rewrite gmres_enter_loop;
    [|rewrite Hbeta; apply R_seqb_false; exact Hb|lia].
  rewrite Hbeta. unfold entry_state. cbv zeta. rewrite Hr0.
  destruct (Z.to_nat (max_steps (length b) maxiter)) as [|m] eqn:Hm'; [lia|].
  cbn [seq gmres_loop].
  set (st := init_state (length b) b (norm b)).
  assert (HV0 : st_V st 0%nat = vdiv b (norm b)) by reflexivity.
  assert (Hw : arnoldi_w A 0 st = zeros (length b)).
  { unfold arnoldi_w, arnoldi_expand. cbn [Nat.add seq fold_left].
    unfold mgs_step. cbn [snd]. rewrite HV0, HAv.
    rewrite dot_vscale_r, dot_normalised by exact Hb.
    scalar_R. rewrite Rmult_1_r, vsub_self.
    now rewrite length_vscale, length_vdiv. }
  assert (HH : forall r c,
             arnoldi_H A 0 st r c =
             upd2 (upd2 (fun _ _ => 0) 0%nat 0%nat lam) 1%nat 0%nat 0 r c).
  { intros r c. unfold arnoldi_H. rewrite Hw, norm_zeros.
    unfold arnoldi_expand. cbn [Nat.add seq fold_left].
    unfold mgs_step. cbn [fst snd]. rewrite HV0, HAv.
    rewrite dot_vscale_r, dot_normalised by exact Hb.
    scalar_R. rewrite Rmult_1_r. reflexivity. }
  assert (Hrot : step_rotation A 0 st = (1, 0)).
  { unfold step_rotation, rotated_H. cbn [seq fold_left].
    rewrite !HH. apply givens_rotation_b_zero. }
  assert (HV : arnoldi_V A 0 st = st_V st).
  { unfold arnoldi_V. rewrite arnoldi_H_subdiagonal, Hw, norm_zeros.
    unfold sneb. rewrite R_seqb_true by reflexivity. reflexivity. }
  assert (Hres : snd (arnoldi_step A 0 st) = 0).
  { unfold arnoldi_step. cbv zeta. cbn [snd]. rewrite Hrot. cbn [fst snd].
    subst st. cbn [init_state st_g]. unfold upd. cbn [Nat.eqb Nat.add].
    scalar_R. replace (- 0 * norm b + 1 * 0) with 0 by lra. apply Rabs_R0. }
  rewrite Hres, R_sleb_true by exact Htol.
  assert (Hsolve : solve (st_H (fst (arnoldi_step A 0 st)))
                         (st_g (fst (arnoldi_step A 0 st))) (0 + 1) =
                   Some [norm b / lam]).
  { unfold solve. cbn [Nat.add back_substitute Nat.sub row_sum].
    unfold arnoldi_step. cbv zeta. cbn [fst st_H st_g]. rewrite Hrot. cbn [fst snd].
    unfold rotated_H. cbn [seq fold_left].
    rewrite !HH. unfold upd2. cbn [Nat.eqb Nat.add andb].
    rewrite R_seqb_false by (scalar_R; lra).
    subst st. cbn [init_state st_g]. unfold upd. cbn [Nat.eqb Nat.add].
    scalar_R. do 2 f_equal. field. exact Hlam. }
  rewrite Hsolve. do 2 f_equal.
  unfold mat_dot. cbn [Nat.add seq fold_left nth].
  rewrite arnoldi_step_V, HV, HV0, vscale_vdiv by assumption.
  unfold initial_guess.
  rewrite <- (length_vdiv b lam) at 1 2. now rewrite !vadd_zeros_l.
Qed.

End OneStep.

Section OneStepWitness.
Local Open Scope R_scope.

Lemma gmres_eigenvector_one_step_witness :
  gmres lstsq_1x1 A2 [0; 1] None tol_default None =
  Ok ([0 / - 7; 1 / - 7], [norm [0; 1]; 0]).
Proof.
  assert (Hn : norm [0; 1] = 1) by (eval_R; apply sqrt_of_square; lra).
  apply (gmres_eigenvector_one_step lstsq_1x1 A2 [0; 1] tol_default None (- 7)).
  - eval_R. vec_R.
  - rewrite Hn. lra.
  - rewrite Hn. eval_R. vec_R.
  - lra.
  - pose proof tol_default_bounds. lra.
  - simpl. lia.
Defined.

End OneStepWitness.

(** ** The general results at the concrete inputs *)

Section MoreWitnesses.
Local Open Scope R_scope.

Lemma A2_not_stopped : @seqb R _ (initial_residual A2 b2 None) 0 = false.
Proof. rewrite A2_initial_residual. apply R_seqb_false. lra. Qed.

Lemma gmres_stopping_rule_witness :
  exists mid,
    Forall (fun r => sleb r tol_default = false) mid /\
    (([1; 4 / 5; 0] = initial_residual A2 b2 None :: mid /\
      length mid = Z.to_nat (max_steps (length b2) None)) \/
     (exists last,
        [1; 4 / 5; 0] = initial_residual A2 b2 None :: mid ++ [last] /\
        sleb last tol_default = true /\
        (length mid < Z.to_nat (max_steps (length b2) None))%nat)).
Proof.
  apply (gmres_stopping_rule lstsq_1x1 A2 b2 None tol_default None A2_x
                             [1; 4 / 5; 0]).
  - exact A2_not_stopped.
  - apply A2_gmres.
Defined.

Lemma gmres_history_nonincreasing_witness :
  nonincreasing [1; 4 / 5; 0] /\ Forall (fun r => 0 <= r) [1; 4 / 5; 0].
Proof.
  apply (gmres_history_nonincreasing lstsq_1x1 A2 b2 None tol_default None A2_x
                                     [1; 4 / 5; 0]).
  apply A2_gmres.
Defined.

Lemma gmres_zero_maxiter_witness :
  gmres lstsq_1x1 A2 b2 None tol_default (Some 0%Z) =
  Ok (initial_guess (length b2) None, [initial_residual A2 b2 None]).
Proof.
  apply (gmres_zero_maxiter lstsq_1x1 A2 b2 None tol_default).
  - reflexivity.
  - left. discriminate.
Defined.




Lemma gmres_restart_first_cycle_witness :
  match gmres lstsq_1x1 A0 b0 (Some (initial_guess (length b0) None))
              tol_default (Some 1%Z) with
  | Raise e => gmres_restart lstsq_1x1 A0 b0 None 1 tol_default 20 = Raise e
  | Ok (x, rv) =>
      match last_entry rv with
      | Some r =>
          sleb r tol_default = true ->
          gmres_restart lstsq_1x1 A0 b0 None 1 tol_default 20 = Ok (x, rv)
      | None => False
      end
  end.
Proof.
  apply (gmres_restart_first_cycle lstsq_1x1 A0 b0 None 1 tol_default 20). lia.
Defined.

Lemma gmres_restart_history_length_witness :
  (length [1; 4 / 5; 0]%R <= 1 + Z.to_nat 20 * Z.to_nat 1)%nat /\
  ((0 < 20)%Z -> (1 <= length [1; 4 / 5; 0]%R)%nat).
Proof.
  apply (gmres_restart_history_length lstsq_1x1 A2 b2 None 1 tol_default 20
                                      [1 / 9; 4 / 21]).
  apply A2_restart. intros M rhs _. reflexivity.
Defined.

Lemma A2_solved : initial_residual A2 b2 (Some [1 / 9; 4 / 21]) = 0.
Proof.
  unfold initial_residual, initial_guess.
  replace (vsub b2 (A2 [1 / 9; 4 / 21])) with [0; 0] by (eval_R; vec_R).
  apply norm_0_0.
Qed.

Lemma gmres_restart_at_solution_witness :
  gmres_restart lstsq_1x1 A2 b2 (Some [1 / 9; 4 / 21]) 1 tol_default 20 =
  Ok (initial_guess (length b2) (Some [1 / 9; 4 / 21]), [0]).
Proof.
  apply (gmres_restart_at_solution lstsq_1x1 A2 b2 (Some [1 / 9; 4 / 21]) 1
                                   tol_default 20).
  - exact A2_solved.
  - lia.
Defined.

Lemma gmres_restart_h_refines_gmres_restart_witness :
  exists fresh,
    snd (gmres_restart_h lstsq_1x1 A2 0 None 1 tol_default 20 [Vec b2]) =
      [Vec b2] ++ fresh /\
    match gmres_restart lstsq_1x1 A2 b2 None 1 tol_default 20 with
    | Ok (x, rs) =>
        exists xr,
          fst (gmres_restart_h lstsq_1x1 A2 0 None 1 tol_default 20 [Vec b2]) =
            Ok (xr, rs) /\
          nth_error ([Vec b2] ++ fresh) xr = Some (Vec x)
    | Raise e =>
        fst (gmres_restart_h lstsq_1x1 A2 0 None 1 tol_default 20 [Vec b2]) =
          Raise e
    end.
Proof.
  apply (gmres_restart_h_refines_gmres_restart lstsq_1x1 A2 0 None 1 tol_default
           20 [Vec b2] b2 None); reflexivity.
Defined.

End MoreWitnesses.
